(** * Video transcription tool: formatter, workflows and command line

    A shallow embedding of [transcriber.py] and [audio_extractor.py].

    - Python [str] values are sequences of Unicode code points ([pystr]).
    - Python [float] values are binary64 numbers (Rocq's primitive floats).
    - Python objects handed around by the formatter are modelled twice: as
      immutable trees ([value]) for the functional contract, and as objects in
      a store addressed by location ([Heap]) for the frame property.
    - The file system, standard output, the external downloader and the
      speech-recognition library are an explicit world threaded through a
      state-and-exception monad. *)

From Stdlib Require Import ZArith NArith List Lia Bool Ascii String DecimalString.
From Stdlib Require Import PrimFloat FloatOps SpecFloat.
From stdpp Require Import base tactics option list countable gmap.

Set Warnings "-inexact-float,-register-all".
Open Scope Z_scope.

(** ** Python strings *)

Module PyStr.

(** A Python [str]: a sequence of code points. *)
Abbreviation pystr := (list N).

(** Literals are written as Rocq strings and read byte by byte, which is the
    code point sequence for ASCII text. *)
Fixpoint py (s : string) : pystr :=
  match s with
  | EmptyString => []
  | String c r => N_of_ascii c :: py r
  end.

Definition eqb_str (a b : pystr) : bool := bool_decide (a = b).

(** [str.isspace] on one code point: the characters CPython lists in
    [_PyUnicode_IsWhitespace]. *)
Definition is_space (c : N) : bool :=
  ((0x09 <=? c) && (c <=? 0x0D) || (0x1C <=? c) && (c <=? 0x20)
   || (c =? 0x85) || (c =? 0xA0) || (c =? 0x1680)
   || (0x2000 <=? c) && (c <=? 0x200A)
   || (c =? 0x2028) || (c =? 0x2029) || (c =? 0x202F) || (c =? 0x205F)
   || (c =? 0x3000))%N.

Fixpoint lstrip (s : pystr) : pystr :=
  match s with
  | c :: r => if is_space c then lstrip r else s
  | [] => []
  end.

Definition rstrip (s : pystr) : pystr := rev (lstrip (rev s)).

(** [s.strip()] with no argument. *)
Definition strip (s : pystr) : pystr := rstrip (lstrip s).

(** [s.startswith(p)] *)
Fixpoint startswith (p s : pystr) : bool :=
  match p, s with
  | [], _ => true
  | a :: p', b :: s' => (a =? b)%N && startswith p' s'
  | _ :: _, [] => false
  end.

Definition endswith (p s : pystr) : bool := startswith (rev p) (rev s).

(** [needle in s] for two strings: substring search. *)
Fixpoint contains (needle s : pystr) : bool :=
  startswith needle s ||
  match s with
  | [] => false
  | _ :: r => contains needle r
  end.

(** [s.rfind(c)] for a one-character needle: the last index of [c], or -1. *)
Fixpoint rfind_from (c : N) (s : pystr) (i : Z) (last : Z) : Z :=
  match s with
  | [] => last
  | a :: r => rfind_from c r (i + 1) (if (a =? c)%N then i else last)
  end.

Definition rfind (c : N) (s : pystr) : Z := rfind_from c s 0 (-1).

(** Slices [s[i:]] and [s[:i]] for an index [0 <= i]. *)
Definition slice_from (s : pystr) (i : Z) : pystr := drop (Z.to_nat i) s.
Definition slice_to (s : pystr) (i : Z) : pystr := take (Z.to_nat i) s.

Definition sep : N := 0x2F.     (* '/' *)
Definition extsep : N := 0x2E.  (* '.' *)

End PyStr.
Export PyStr.

(** ** [os.path] on POSIX ([posixpath]) *)

Module OsPath.

(** [os.path.join(a, b)] *)
Definition join (a b : pystr) : pystr :=
  if startswith [sep] b then b
  else if eqb_str a [] || endswith [sep] a then a ++ b
  else a ++ [sep] ++ b.

(** [os.path.basename(p)] *)
Definition basename (p : pystr) : pystr := slice_from p (rfind sep p + 1).

Definition all_sep (s : pystr) : bool := forallb (fun c => (c =? sep)%N) s.

Fixpoint rstrip_sep_rev (r : pystr) : pystr :=
  match r with
  | c :: r' => if (c =? sep)%N then rstrip_sep_rev r' else r
  | [] => []
  end.

(** [os.path.dirname(p)] *)
Definition dirname (p : pystr) : pystr :=
  let head := slice_to p (rfind sep p + 1) in
  if negb (eqb_str head []) && negb (all_sep head)
  then rev (rstrip_sep_rev (rev head))
  else head.

(** The loop of [genericpath._splitext] that skips the leading dots of the
    file name: [true] when some character in [p[filenameIndex:dotIndex]] is
    not a dot. *)
Definition has_stem (p : pystr) (filenameIndex dotIndex : Z) : bool :=
  existsb (fun c => negb (c =? extsep)%N)
          (slice_to (slice_from p filenameIndex) (dotIndex - filenameIndex)).

(** [os.path.splitext(p)] *)
Definition splitext (p : pystr) : pystr * pystr :=
  let sepIndex := rfind sep p in
  let dotIndex := rfind extsep p in
  if (sepIndex <? dotIndex) && has_stem p (sepIndex + 1) dotIndex
  then (slice_to p dotIndex, slice_from p dotIndex)
  else (p, []).

End OsPath.

(** ** Python floats: [round] and [repr] *)

Module PyFloat.

(** The integer nearest to [n / d], ties to the even one ([0 <= n], [0 < d]). *)
Definition round_half_even (n d : Z) : Z :=
  let q := n / d in
  match 2 * (n mod d) ?= d with
  | Lt => q
  | Gt => q + 1
  | Eq => if Z.even q then q else q + 1
  end.

(** The fraction [n / (d * 2^e)] as a numerator and a denominator. *)
Definition scale2 (n d e : Z) : Z * Z :=
  if 0 <=? e then (n, d * 2 ^ e) else (n * 2 ^ (- e), d).

(** The binary64 number nearest to the positive rational [n / d], ties to the
    even significand: what [strtod] returns for a decimal string. *)
Definition nearest_float (n d : Z) : float :=
  let e0 := Z.log2 n - Z.log2 d - 52 in
  let '(n0, d0) := scale2 n d e0 in
  let e1 := if n0 <? d0 * 2 ^ 52 then e0 - 1 else e0 in
  let e := Z.max e1 (-1074) in
  let '(n1, d1) := scale2 n d e in
  let m := round_half_even n1 d1 in
  if m =? 0 then zero
  else if 1024 <=? Z.log2 m + e then infinity
  else SF2Prim (S754_finite false (Z.to_pos m) e).

Definition with_sign (s : bool) (f : float) : float := if s then (- f)%float else f.

(** [round(x, ndigits)] for a float [x] and [0 <= ndigits]: the exact value of
    [x] is rounded half-even to [ndigits] decimals and the result is the
    nearest float to that decimal (CPython's [double_round]); infinities, NaN
    and zeros round to themselves. *)
Definition float_round (x : float) (ndigits : N) : float :=
  match Prim2SF x with
  | S754_finite s m e =>
      let p := 10 ^ Z.of_N ndigits in
      let q := if 0 <=? e then Z.pos m * 2 ^ e * p
               else round_half_even (Z.pos m * p) (2 ^ (- e)) in
      if q =? 0 then with_sign s zero else with_sign s (nearest_float q p)
  | _ => x
  end.

(** *** Shortest [repr] *)

(** The fraction [n / (d * 10^k)]. *)
Definition scale10 (n d k : Z) : Z * Z :=
  if 0 <=? k then (n, d * 10 ^ k) else (n * 10 ^ (- k), d).

Definition lt_pow10 (n d k : Z) : bool :=
  let '(a, b) := scale10 n d k in a <? b.

Fixpoint decpt_from (fuel : nat) (n d k : Z) : Z :=
  match fuel with
  | O => k
  | S f => if lt_pow10 n d k then k else decpt_from f n d (k + 1)
  end.

(** The least [k] with [n / d < 10^k]. *)
Definition decpt_of (n d : Z) : Z :=
  let l := Z.log2 n - Z.log2 d in
  decpt_from 8 n d ((l - 1) * 30103 / 100000 - 1).

(** The [ndig]-digit decimal that reads back as [x], if there is one: the
    candidates are the two multiples of [10^(decpt - ndig)] around [n / d]. *)
Definition candidate (x : float) (n d decpt : Z) (ndig : Z) : option Z :=
  let p := decpt - ndig in
  let '(a, b) := scale10 n d p in
  let lo := a / b in
  let hi := lo + 1 in
  let back c := if c =? 0 then false
                else let '(cn, cd) := scale10 c 1 (- p) in
                     PrimFloat.eqb (nearest_float cn cd) x in
  match back lo, back hi with
  | true, true => Some (if 2 * a <=? (lo + hi) * b then lo else hi)
  | true, false => Some lo
  | false, true => Some hi
  | false, false => None
  end.

Fixpoint shortest_from (fuel : nat) (x : float) (n d decpt ndig : Z) : Z * Z :=
  match fuel with
  | O => (0, ndig)
  | S f => match candidate x n d decpt ndig with
           | Some c => (c, ndig)
           | None => shortest_from f x n d decpt (ndig + 1)
           end
  end.

Fixpoint strip_zeros (fuel : nat) (c decpt : Z) : Z * Z :=
  match fuel with
  | O => (c, decpt)
  | S f => if (c mod 10 =? 0) && (0 <? c) then strip_zeros f (c / 10) decpt else (c, decpt)
  end.

Definition digits_of (z : Z) : pystr :=
  py (DecimalString.NilZero.string_of_uint (N.to_uint (Z.to_N z))).

(** The shortest digit string that reads back as the positive finite [x], with
    the position of the decimal point ([0.d1d2... * 10^decpt]). *)
Definition shortest_digits (x : float) (m : positive) (e : Z) : pystr * Z :=
  let '(n, d) := scale2 (Z.pos m) 1 (- e) in
  let decpt := decpt_of n d in
  let '(c, ndig) := shortest_from 17 x n d decpt 1 in
  let decpt' := if c =? 10 ^ ndig then decpt + 1 else decpt in
  let '(c', _) := strip_zeros 20 c 0 in
  (digits_of c', decpt').

Definition zeros (k : Z) : pystr := repeat 0x30%N (Z.to_nat k).

(** The layout of [float_repr_style = 'short'] for format code ['r']. *)
Definition layout_repr (digits : pystr) (decpt : Z) : pystr :=
  let len := Z.of_nat (length digits) in
  if (decpt <=? -4) || (16 <? decpt) then
    let ex := decpt - 1 in
    let mant := match digits with
                | d1 :: (_ :: _) as rest => d1 :: py "." ++ rest
                | _ => digits
                end in
    let exd := digits_of (Z.abs ex) in
    mant ++ py "e" ++ (if ex <? 0 then py "-" else py "+")
         ++ (if Z.abs ex <? 10 then py "0" else []) ++ exd
  else if decpt <=? 0 then py "0." ++ zeros (- decpt) ++ digits
  else if len <=? decpt then digits ++ zeros (decpt - len) ++ py ".0"
  else slice_to digits decpt ++ py "." ++ slice_from digits decpt.

(** [float.__repr__] *)
Definition float_repr (x : float) : pystr :=
  match Prim2SF x with
  | S754_nan => py "nan"
  | S754_infinity s => if s then py "-inf" else py "inf"
  | S754_zero s => if s then py "-0.0" else py "0.0"
  | S754_finite s m e =>
      let '(digits, decpt) := shortest_digits (abs x) m e in
      (if s then py "-" else []) ++ layout_repr digits decpt
  end.

(** [int.__repr__] *)
Definition int_repr (z : Z) : pystr :=
  (if z <? 0 then py "-" else []) ++ digits_of (Z.abs z).

End PyFloat.

(** ** Python values, exceptions and the operations the formatter uses *)

Module PyVal.

(** The exceptions the modelled code can meet.  [KeyboardInterrupt] and
    [SystemExit] derive from [BaseException] only; all others are caught by
    [except Exception]. *)
Inductive exn : Type :=
  | KeyboardInterrupt
  | SystemExit (code : Z)
  | KeyError
  | TypeError
  | AttributeError
  | ImportError
  | CalledProcessError
  | FileNotFoundError
  | FileExistsError
  | IsADirectoryError
  | NotADirectoryError
  | OSError
  | UnicodeEncodeError.

Definition is_Exception (e : exn) : bool :=
  match e with
  | KeyboardInterrupt | SystemExit _ => false
  | _ => true
  end.

(** The outcome of evaluating an expression: a value or a raised exception. *)
Inductive res (A : Type) : Type :=
  | Ok (a : A)
  | Raise (e : exn).
Arguments Ok {A} a.
Arguments Raise {A} e.

Definition rbind {A B} (m : res A) (k : A -> res B) : res B :=
  match m with
  | Ok a => k a
  | Raise e => Raise e
  end.

#[export] Instance res_bind : MBind res := fun A B k m => rbind m k.
#[export] Instance res_ret : MRet res := @Ok.

(** Python objects as trees.  A [dict] keeps its insertion order; the keys that
    occur (in the recogniser's result and in the records built here) are
    strings, and a lookup returns the first binding. *)
Inductive value : Type :=
  | VNone
  | VBool (b : bool)
  | VInt (z : Z)
  | VFloat (f : float)
  | VStr (s : pystr)
  | VList (l : list value)
  | VDict (d : list (pystr * value)).

Fixpoint dict_get (key : pystr) (d : list (pystr * value)) : option value :=
  match d with
  | [] => None
  | (k, v) :: r => if eqb_str k key then Some v else dict_get key r
  end.

(** [bool(v)] *)
Definition truthy (v : value) : bool :=
  match v with
  | VNone => false
  | VBool b => b
  | VInt z => negb (z =? 0)
  | VFloat f => negb (is_zero f)
  | VStr s => negb (eqb_str s [])
  | VList l => match l with [] => false | _ => true end
  | VDict d => match d with [] => false | _ => true end
  end.

Definition is_str (key : pystr) (v : value) : bool :=
  match v with
  | VStr s => eqb_str s key
  | _ => false
  end.

(** [key in v] for a string [key]. *)
Definition py_contains (key : pystr) (v : value) : res bool :=
  match v with
  | VDict d => Ok (match dict_get key d with Some _ => true | None => false end)
  | VList l => Ok (existsb (is_str key) l)
  | VStr s => Ok (contains key s)
  | _ => Raise TypeError
  end.

(** [v[key]] for a string [key]. *)
Definition py_getitem (v : value) (key : pystr) : res value :=
  match v with
  | VDict d => match dict_get key d with
               | Some x => Ok x
               | None => Raise KeyError
               end
  | _ => Raise TypeError
  end.

(** The items [for x in v] runs over. *)
Definition py_iter (v : value) : res (list value) :=
  match v with
  | VList l => Ok l
  | VDict d => Ok (map (fun kv => VStr (fst kv)) d)
  | VStr s => Ok (map (fun c => VStr [c]) s)
  | _ => Raise TypeError
  end.

(** [round(v, ndigits)] *)
Definition py_round (v : value) (ndigits : N) : res value :=
  match v with
  | VFloat f => Ok (VFloat (PyFloat.float_round f ndigits))
  | VInt z => Ok (VInt z)
  | VBool b => Ok (VInt (if b then 1 else 0))
  | _ => Raise TypeError
  end.

(** [v.strip()] *)
Definition py_strip (v : value) : res value :=
  match v with
  | VStr s => Ok (VStr (strip s))
  | _ => Raise AttributeError
  end.

End PyVal.
Export PyVal.

(** ** [VideoTranscriber.format_output] *)

Module Formatter.

(** The dict display built for one segment; its sub-expressions are evaluated
    from left to right. *)
Definition format_segment (segment : value) : res value :=
  start ← py_getitem segment (py "start");
  start' ← py_round start 2;
  end_ ← py_getitem segment (py "end");
  end' ← py_round end_ 2;
  text ← py_getitem segment (py "text");
  sentence ← py_strip text;
  Ok (VDict [(py "timestamp", VDict [(py "start", start'); (py "end", end')]);
             (py "sentence", sentence)]).

(** The [for] loop: one [append] per segment. *)
Fixpoint format_loop (segments : list value) (formatted_output : list value)
  : res (list value) :=
  match segments with
  | [] => Ok formatted_output
  | segment :: rest =>
      formatted_segment ← format_segment segment;
      format_loop rest (formatted_output ++ [formatted_segment])
  end.

(** [key not in v] *)
Definition py_not_in (key : pystr) (v : value) : res bool :=
  present ← py_contains key v;
  Ok (negb present).

Definition format_output (transcription_result : value) : res value :=
  let formatted_output := [] in
  stop ← (if negb (truthy transcription_result) then Ok true
          else py_not_in (py "segments") transcription_result);
  if (stop : bool) then Ok (VList formatted_output)
  else
    segments ← py_getitem transcription_result (py "segments");
    items ← py_iter segments;
    out ← format_loop items formatted_output;
    Ok (VList out).

(** The data of a segment as the recogniser documents it. *)
Record segment_data : Type := {
  seg_start : float;
  seg_end : float;
  seg_text : pystr
}.

(** [seg] is a mapping with a float under [start] and [end] and a string
    under [text]; it may hold other keys. *)
Definition is_segment (seg : value) (s : segment_data) : Prop :=
  exists d, seg = VDict d
    /\ dict_get (py "start") d = Some (VFloat (seg_start s))
    /\ dict_get (py "end") d = Some (VFloat (seg_end s))
    /\ dict_get (py "text") d = Some (VStr (seg_text s)).

(** A formatted record. *)
Definition record (start end_ : float) (sentence : pystr) : value :=
  VDict [(py "timestamp", VDict [(py "start", VFloat start); (py "end", VFloat end_)]);
         (py "sentence", VStr sentence)].

(** The record for a segment: times rounded to two decimals, text stripped. *)
Definition record_of (s : segment_data) : value :=
  record (PyFloat.float_round (seg_start s) 2) (PyFloat.float_round (seg_end s) 2)
         (strip (seg_text s)).

Definition segment_ok (seg : value) : bool :=
  match seg with
  | VDict d =>
      match dict_get (py "start") d, dict_get (py "end") d, dict_get (py "text") d with
      | Some (VFloat _), Some (VFloat _), Some (VStr _) => true
      | _, _, _ => false
      end
  | _ => false
  end.

(** A transcription result of the documented shape: a mapping whose
    [segments] entry is a list of segments. *)
Definition well_formed (v : value) : bool :=
  match v with
  | VDict d =>
      match dict_get (py "segments") d with
      | Some (VList segs) => forallb segment_ok segs
      | _ => false
      end
  | _ => false
  end.

End Formatter.

(** ** [json.dumps(obj, indent=2, ensure_ascii=False)] and UTF-8 *)

Module Json.

Definition hex_digit (n : N) : N :=
  if (n <? 10)%N then (0x30 + n)%N else (0x61 + (n - 10))%N.

Definition quote : N := 0x22.
Definition backslash : N := 0x5C.

(** The replacement of one character by [encode_basestring]: only the quote,
    the backslash and the control characters below U+0020 are escaped. *)
Definition escape_char (c : N) : pystr :=
  if (c =? quote)%N then [backslash; quote]
  else if (c =? backslash)%N then [backslash; backslash]
  else if (c =? 0x0A)%N then backslash :: py "n"
  else if (c =? 0x0D)%N then backslash :: py "r"
  else if (c =? 0x09)%N then backslash :: py "t"
  else if (c =? 0x08)%N then backslash :: py "b"
  else if (c =? 0x0C)%N then backslash :: py "f"
  else if (c <? 0x20)%N
       then backslash :: py "u00" ++ [hex_digit (N.shiftr c 4); hex_digit (N.land c 0xF)]
  else [c].

Definition encode_basestring (s : pystr) : pystr :=
  [quote] ++ flat_map escape_char s ++ [quote].

(** [floatstr]: [float.__repr__], except for NaN and the infinities. *)
Definition floatstr (f : float) : pystr :=
  match Prim2SF f with
  | S754_nan => py "NaN"
  | S754_infinity s => if s then py "-Infinity" else py "Infinity"
  | _ => PyFloat.float_repr f
  end.

(** [s.join(parts)] *)
Fixpoint str_join (s : pystr) (parts : list pystr) : pystr :=
  match parts with
  | [] => []
  | [x] => x
  | x :: r => x ++ s ++ str_join s r
  end.

Definition indent_width : nat := 2.

(** A line break followed by the indentation of nesting level [level]. *)
Definition newline_indent (level : nat) : pystr :=
  0x0A%N :: repeat 0x20%N (indent_width * level).

Definition item_separator : pystr := py ",".
Definition key_separator : pystr := py ": ".

(** The pretty-printing encoder ([_make_iterencode] with an indent). *)
Fixpoint encode (level : nat) (v : value) : pystr :=
  match v with
  | VNone => py "null"
  | VBool b => if b then py "true" else py "false"
  | VInt z => PyFloat.int_repr z
  | VFloat f => floatstr f
  | VStr s => encode_basestring s
  | VList [] => py "[]"
  | VList l =>
      py "[" ++ newline_indent (S level)
        ++ str_join (item_separator ++ newline_indent (S level)) (map (encode (S level)) l)
        ++ newline_indent level ++ py "]"
  | VDict [] => py "{}"
  | VDict d =>
      py "{" ++ newline_indent (S level)
        ++ str_join (item_separator ++ newline_indent (S level))
             (map (fun kv => encode_basestring (fst kv) ++ key_separator
                               ++ encode (S level) (snd kv)) d)
        ++ newline_indent level ++ py "}"
  end.

Definition dumps (v : value) : pystr := encode 0 v.

(** The UTF-8 encoding of one code point: the bits of the code point, six
    at a time from the right, each group in a byte [10xxxxxx], behind a first
    byte that tells the length.  Surrogates cannot be encoded. *)
Definition utf8_char (c : N) : option (list N) :=
  let low x := (0x80 + x mod 64)%N in
  if (c <? 0x80)%N then Some [c]
  else if (c <? 0x800)%N then Some [(0xC0 + c / 64)%N; low c]
  else if (c <? 0x10000)%N then
    if (0xD800 <=? c)%N && (c <=? 0xDFFF)%N then None
    else Some [(0xE0 + c / 64 / 64)%N; low (c / 64)%N; low c]
  else if (c <? 0x110000)%N then
    Some [(0xF0 + c / 64 / 64 / 64)%N; low (c / 64 / 64)%N; low (c / 64)%N; low c]
  else None.

(** [s.encode('utf-8')]: [None] stands for [UnicodeEncodeError]. *)
Fixpoint utf8_encode (s : pystr) : option (list N) :=
  match s with
  | [] => Some []
  | c :: r =>
      match utf8_char c, utf8_encode r with
      | Some b, Some br => Some (b ++ br)
      | _, _ => None
      end
  end.




End Json.

(** ** The world: file system, console, external tools *)

Module World.

Inductive node : Type :=
  | File (content : list N)
  | Dir.

(** The file system maps a path, as the program spells it, to what is there.
    Paths are not normalised: no symbolic links, no [.] or [..], no doubled
    separators, and a file is spelled the same way wherever it is named.  A
    path that ends with a separator can name a directory only: no file is
    created or moved there. *)
Abbreviation filesystem := (gmap pystr node).

(** What the program does to the outside, in order. *)
Inductive event : Type :=
  | EvRun (cmd : list pystr)               (* subprocess.run(cmd, ...) *)
  | EvOpen (path : pystr)                  (* open(path, 'w', encoding='utf-8') *)
  | EvWrite (path : pystr) (data : list N) (* f.write(text), as bytes on disk *)
  | EvPrint (text : pystr).                (* print(text) *)

(** How an external process ends. *)
Inductive proc_status : Type :=
  | Exited (code : Z)
  | NoSuchProgram        (* FileNotFoundError from subprocess.run *)
  | SpawnFailed          (* any other OSError *)
  | Interrupted.         (* KeyboardInterrupt while waiting *)

(** An external process ends with a status and leaves files behind. *)
Record proc_result : Type := {
  status : proc_status;
  created : list (pystr * list N)
}.

(** How a call into the speech-recognition library ends. *)
Inductive transcribe_result : Type :=
  | Transcribed (result : value)
  | TranscribeFailed
  | TranscribeInterrupted.

(** The surroundings of one run.  The external downloader and the recogniser
    are arbitrary; the recogniser reads files and writes none. *)
Record env : Type := {
  cwd : pystr;                                               (* os.getcwd() *)
  tmp_name : filesystem -> pystr;                            (* the name mkdtemp picks *)
  run_process : list pystr -> filesystem -> proc_result;
  whisper_installed : bool;
  whisper_transcribe : pystr -> pystr -> filesystem -> transcribe_result
}.

(** The [VideoTranscriber] object. *)
Record transcriber : Type := {
  model_size : pystr;
  temp_dir : option pystr
}.

Record state : Type := {
  fs : filesystem;
  trace : list event;
  self : transcriber
}.

Definition set_fs (f : filesystem -> filesystem) (st : state) : state :=
  {| fs := f (fs st); trace := trace st; self := self st |}.
Definition log_event (e : event) (st : state) : state :=
  {| fs := fs st; trace := trace st ++ [e]; self := self st |}.
Definition set_temp_dir (d : option pystr) (st : state) : state :=
  {| fs := fs st; trace := trace st;
     self := {| model_size := model_size (self st); temp_dir := d |} |}.

(** *** The monad of statements: state and exceptions *)

Definition M (A : Type) : Type := state -> res A * state.

Definition ret {A} (a : A) : M A := fun st => (Ok a, st).
Definition raise {A} (e : exn) : M A := fun st => (Raise e, st).
Definition bind {A B} (m : M A) (k : A -> M B) : M B :=
  fun st => match m st with
            | (Ok a, st') => k a st'
            | (Raise e, st') => (Raise e, st')
            end.
Definition lift {A} (r : res A) : M A := fun st => (r, st).
Definition get : M state := fun st => (Ok st, st).
Definition modify (f : state -> state) : M unit := fun st => (Ok tt, f st).

#[export] Instance M_bind : MBind M := fun A B k m => bind m k.
#[export] Instance M_ret : MRet M := @ret.

(** [try: m except ...: handler]: [handler e] is [None] when no clause
    matches [e]. *)
Definition try_catch {A} (m : M A) (handler : exn -> option (M A)) : M A :=
  fun st => match m st with
            | (Ok a, st') => (Ok a, st')
            | (Raise e, st') =>
                match handler e with
                | Some h => h st'
                | None => (Raise e, st')
                end
            end.

(** [except Exception as e: handler] *)
Definition except_Exception {A} (h : exn -> M A) (e : exn) : option (M A) :=
  if is_Exception e then Some (h e) else None.

(** [try: m finally: fin]: an exception raised by [fin] replaces the outcome
    of [m]. *)
Definition try_finally {A} (m : M A) (fin : M unit) : M A :=
  fun st => let '(r, st') := m st in
            match fin st' with
            | (Ok _, st'') => (r, st'')
            | (Raise e, st'') => (Raise e, st'')
            end.

(** *** File system calls *)

Definition is_dir (f : filesystem) (p : pystr) : bool :=
  match f !! p with
  | Some Dir => true
  | _ => false
  end.

(** [os.path.exists(p)] *)
Definition path_exists (f : filesystem) (p : pystr) : bool :=
  match f !! p with
  | Some _ => negb (eqb_str p [])
  | None => false
  end.

(** [p] is [d] or lies below it. *)
Definition inside (d p : pystr) : bool := eqb_str p d || startswith (d ++ [sep]) p.

(** [p] ends with a separator: the system takes it for a directory. *)
Definition trailing_sep (p : pystr) : bool :=
  match last p with
  | Some c => (c =? sep)%N
  | None => false
  end.

(** [p] without the separators it ends with, the root apart. *)
Definition untrail (p : pystr) : pystr :=
  if trailing_sep p && negb (OsPath.all_sep p) then OsPath.dirname p else p.

(** The directory that must exist for an entry [p] to be created. *)
Definition parent_ok (f : filesystem) (p : pystr) : bool :=
  let d := OsPath.dirname p in
  eqb_str d [] || OsPath.all_sep d || is_dir f d.

(** A file left behind by an external process: directories stay. *)
Definition ext_create (f : filesystem) (pc : pystr * list N) : filesystem :=
  if eqb_str (fst pc) [] || is_dir f (fst pc) then f
  else <[fst pc := File (snd pc)]> f.

Definition ext_apply (l : list (pystr * list N)) (f : filesystem) : filesystem :=
  fold_left ext_create l f.

(** The paths of [p] that end before a separator, shortest first, then [p]. *)
Fixpoint ancestors_from (done rest : pystr) : list pystr :=
  match rest with
  | [] => [done]
  | c :: r =>
      (if (c =? sep)%N && negb (eqb_str done []) then [done] else [])
        ++ ancestors_from (done ++ [c]) r
  end.

Fixpoint mkdir_chain (l : list pystr) (f : filesystem) : res filesystem :=
  match l with
  | [] => Ok f
  | p :: r =>
      match f !! p with
      | Some Dir => mkdir_chain r f
      | Some (File _) => Raise (match r with [] => FileExistsError | _ => NotADirectoryError end)
      | None => mkdir_chain r (<[p := Dir]> f)
      end
  end.

(** [os.makedirs(p, exist_ok=True)] *)
Definition makedirs (p : pystr) : M unit :=
  fun st => if eqb_str p [] then (Raise FileNotFoundError, st)
            else match mkdir_chain (ancestors_from [] p) (fs st) with
                 | Ok f' => (Ok tt, set_fs (fun _ => f') st)
                 | Raise e => (Raise e, st)
                 end.

(** [shutil.rmtree(d)] *)
Definition rmtree (d : pystr) : M unit :=
  fun st => match fs st !! d with
            | Some Dir => (Ok tt, set_fs (filter (fun kv => inside d (fst kv) = false)) st)
            | Some (File _) => (Raise NotADirectoryError, st)
            | None => (Raise FileNotFoundError, st)
            end.

(** Moving the entry [src], with what lies below it, to [dst]. *)
Definition rename_key (src dst p : pystr) : pystr :=
  if inside src p then dst ++ drop (length src) p else p.

Definition has_children (f : filesystem) (d : pystr) : bool :=
  existsb (fun kv => startswith (d ++ [sep]) (fst kv)) (map_to_list f).

(** [os.rename(src, dst)].  A name that ends with a separator stands for the
    directory of that name: a file cannot be moved from or to one, and a
    directory cannot be moved to one whose name without the separator is
    taken. *)
Definition rename (src dst : pystr) : M unit :=
  fun st =>
    let f := fs st in
    if eqb_str dst [] || eqb_str src [] then (Raise FileNotFoundError, st)
    else match f !! src, f !! dst with
         | None, _ => (Raise FileNotFoundError, st)
         | Some (File _), Some Dir => (Raise IsADirectoryError, st)
         | Some Dir, Some (File _) => (Raise NotADirectoryError, st)
         | Some (File c), _ =>
             if trailing_sep src || trailing_sep dst then (Raise NotADirectoryError, st)
             else if eqb_str src dst then (Ok tt, st)
             else if parent_ok f dst
             then (Ok tt, set_fs (fun f => <[dst := File c]> (delete src f)) st)
             else (Raise FileNotFoundError, st)
         | Some Dir, o =>
             if eqb_str src dst then (Ok tt, st)
             else if inside src dst then (Raise OSError, st)
             else if match o with Some _ => has_children f dst | None => false end
             then (Raise OSError, st)
             else if trailing_sep dst && negb (OsPath.all_sep dst)
                     && path_exists f (untrail dst)
             then (Raise OSError, st)
             else if parent_ok f dst
             then (Ok tt, set_fs (fun f =>
                      list_to_map (map (fun kv => (rename_key src dst (fst kv), snd kv))
                                       (map_to_list (delete dst f)))) st)
             else (Raise FileNotFoundError, st)
         end.

(** [tempfile.mkdtemp()]: a new directory under the name the system picks. *)
Definition mkdtemp (E : env) : M pystr :=
  fun st => let d := tmp_name E (fs st) in
            if eqb_str d [] then (Raise FileNotFoundError, st)
            else match fs st !! d with
                 | Some _ => (Raise FileExistsError, st)
                 | None => (Ok d, set_fs (fun f => <[d := Dir]> f) st)
                 end.

(** [with open(path, 'w', encoding='utf-8') as f: f.write(text)]: the file is
    created or truncated when it is opened, and the text is encoded when it is
    written.  A path that ends with a separator cannot be opened for
    writing. *)
Definition write_text (path text : pystr) : M unit :=
  fun st =>
    if eqb_str path [] then (Raise FileNotFoundError, st)
    else if trailing_sep path then
      (Raise (match fs st !! untrail path with
              | Some (File _) => NotADirectoryError
              | _ => IsADirectoryError
              end), st)
    else if is_dir (fs st) path then (Raise IsADirectoryError, st)
    else if negb (parent_ok (fs st) path) then (Raise FileNotFoundError, st)
    else
      let st1 := log_event (EvOpen path) (set_fs (fun f => <[path := File []]> f) st) in
      match Json.utf8_encode text with
      | Some data =>
          (Ok tt, log_event (EvWrite path data) (set_fs (fun f => <[path := File data]> f) st1))
      | None => (Raise UnicodeEncodeError, st1)
      end.

(** Standard output is a UTF-8 text stream with strict error handling (the
    default in a UTF-8 locale): it takes every text but one that holds a
    surrogate code point. *)
Definition stdout_accepts (text : pystr) : bool :=
  match Json.utf8_encode text with
  | Some _ => true
  | None => false
  end.

(** [print(text)]: the text is encoded before anything is written. *)
Definition print (text : pystr) : M unit :=
  fun st => if stdout_accepts text then (Ok tt, log_event (EvPrint text) st)
            else (Raise UnicodeEncodeError, st).

(** [list(Path(d).glob("audio.*"))]: the entries directly in [d] whose name
    starts with [audio.], in directory order. *)
Definition glob_audio (f : filesystem) (d : pystr) : list pystr :=
  filter (fun p => eqb_str p (d ++ [sep] ++ OsPath.basename p) = true
                   ∧ startswith (py "audio.") (OsPath.basename p) = true)
         (map fst (map_to_list f)).

(** [subprocess.run(cmd, capture_output=True, text=True, check=True)] *)
Definition subprocess_run (E : env) (cmd : list pystr) : M unit :=
  fun st =>
    let r := run_process E cmd (fs st) in
    let st' := log_event (EvRun cmd) (set_fs (ext_apply (created r)) st) in
    match status r with
    | Exited code => if code =? 0 then (Ok tt, st') else (Raise CalledProcessError, st')
    | NoSuchProgram => (Raise FileNotFoundError, st')
    | SpawnFailed => (Raise OSError, st')
    | Interrupted => (Raise KeyboardInterrupt, st')
    end.

(** [import whisper; whisper.load_model(size).transcribe(path, ...)] *)
Definition whisper_call (E : env) (path : pystr) : M value :=
  fun st =>
    if whisper_installed E then
      match whisper_transcribe E (model_size (self st)) path (fs st) with
      | Transcribed v => (Ok v, st)
      | TranscribeFailed => (Raise OSError, st)
      | TranscribeInterrupted => (Raise KeyboardInterrupt, st)
      end
    else (Raise ImportError, st).

End World.
Export World.

(** ** [VideoTranscriber]: adapters and workflows *)

Module Transcriber.

Section WithEnv.
Variable E : env.

(** [if x:] for an optional string argument. *)
Definition given (x : option pystr) : bool :=
  match x with
  | Some s => negb (eqb_str s [])
  | None => false
  end.

Definition unless_exists (p : pystr) (m : M unit) : M unit :=
  st ← get;
  if path_exists (fs st) p then ret tt else m.

(** The [cmd] list of [extract_audio_to_file]. *)
Definition extract_cmd (video_url base_path audio_format : pystr) : list pystr :=
  [py "yt-dlp"; py "--extract-audio";
   py "--audio-format"; audio_format;
   py "--audio-quality"; py "0";
   py "--output"; base_path ++ py ".%(ext)s";
   video_url].

(** The [cmd] list of [download_audio]. *)
Definition download_cmd (video_url output_path : pystr) : list pystr :=
  [py "yt-dlp"; py "--extract-audio";
   py "--audio-format"; py "wav";
   py "--audio-quality"; py "0";
   py "--output"; output_path;
   video_url].

Definition extract_audio_to_file (video_url output_audio_path audio_format : pystr) : M bool :=
  try_catch
    (let output_dir := OsPath.dirname output_audio_path in
     _ ← (if negb (eqb_str output_dir []) then unless_exists output_dir (makedirs output_dir)
          else ret tt);
     let base_path := fst (OsPath.splitext output_audio_path) in
     let cmd := extract_cmd video_url base_path audio_format in
     _ ← subprocess_run E cmd;
     let expected_file := base_path ++ py "." ++ audio_format in
     st ← get;
     if path_exists (fs st) expected_file then
       _ ← (if negb (eqb_str expected_file output_audio_path)
            then rename expected_file output_audio_path else ret tt);
       ret true
     else ret false)
    (except_Exception (fun _ => ret false)).

Definition transcribe_audio (audio_path : pystr) : M value :=
  try_catch (whisper_call E audio_path)
            (except_Exception (fun _ => ret VNone)).

Definition transcribe_local_audio (audio_path : pystr) : M value :=
  st ← get;
  if negb (path_exists (fs st) audio_path) then ret VNone
  else transcribe_audio audio_path.

Definition download_audio (video_url output_path : pystr) : M bool :=
  try_catch
    (let cmd := download_cmd video_url output_path in
     _ ← subprocess_run E cmd;
     ret true)
    (except_Exception (fun _ => ret false)).

Definition format_output (transcription_result : value) : M value :=
  lift (Formatter.format_output transcription_result).

Definition cleanup : M unit :=
  st ← get;
  match temp_dir (self st) with
  | Some d => if negb (eqb_str d []) && path_exists (fs st) d then rmtree d else ret tt
  | None => ret tt
  end.

(** The tail both workflows share: serialise, then write or print. *)
Definition output_results (formatted_output : value) (output_file : option pystr) : M unit :=
  let json_output := Json.dumps formatted_output in
  match output_file with
  | Some path => if given output_file then write_text path json_output
                 else print json_output
  | None => print json_output
  end.

(** The [try] block of [process_video], for the temporary directory [d]. *)
Definition process_video_body (d video_url : pystr) (output_file : option pystr) : M bool :=
  let audio_path := OsPath.join d (py "audio.%(ext)s") in
  ok ← download_audio video_url audio_path;
  if negb ok then ret false else
  st ← get;
  match glob_audio (fs st) d with
  | [] => ret false
  | actual_audio_path :: _ =>
      transcription_result ← transcribe_audio actual_audio_path;
      if negb (truthy transcription_result) then ret false else
      formatted_output ← format_output transcription_result;
      _ ← output_results formatted_output output_file;
      ret true
  end.

Definition process_video (video_url : pystr) (output_file : option pystr) : M bool :=
  d ← mkdtemp E;
  _ ← modify (set_temp_dir (Some d));
  try_finally
    (try_catch (process_video_body d video_url output_file)
               (except_Exception (fun _ => ret false)))
    cleanup.

(** The first part of [process_video_with_audio_save]: where the audio and
    the JSON go, with the two directories made on the way. *)
Definition audio_save_paths (audio_output_path : pystr)
    (transcription_output_file : option pystr) : M (pystr * option pystr) :=
  let audio_dir := OsPath.join (cwd E) (py "audio") in
  _ ← unless_exists audio_dir (makedirs audio_dir);
  let audio_filename := OsPath.basename audio_output_path in
  let audio_output_path := OsPath.join audio_dir audio_filename in
  let result_dir := OsPath.join (cwd E) (py "result") in
  match transcription_output_file with
  | Some name =>
      if given transcription_output_file then
        _ ← unless_exists result_dir (makedirs result_dir);
        let json_filename := OsPath.basename name in
        ret (audio_output_path, Some (OsPath.join result_dir json_filename))
      else ret (audio_output_path, transcription_output_file)
  | None => ret (audio_output_path, None)
  end.

(** The second part: extract, transcribe, format, write or print. *)
Definition audio_save_steps (video_url audio_output_path : pystr)
    (transcription_output_file : option pystr) (audio_format : pystr) : M bool :=
  ok ← extract_audio_to_file video_url audio_output_path audio_format;
  if negb ok then ret false else
  transcription_result ← transcribe_local_audio audio_output_path;
  if negb (truthy transcription_result) then ret false else
  formatted_output ← format_output transcription_result;
  _ ← output_results formatted_output transcription_output_file;
  ret true.

Definition process_video_with_audio_save
    (video_url audio_output_path : pystr) (transcription_output_file : option pystr)
    (audio_format : pystr) : M bool :=
  try_catch
    (paths ← audio_save_paths audio_output_path transcription_output_file;
     audio_save_steps video_url (fst paths) (snd paths) audio_format)
    (except_Exception (fun _ => ret false)).

End WithEnv.

End Transcriber.

(** ** The command lines *)

Module Cli.

(** *** [argparse] *)

Inductive action_kind : Type :=
  | Store (choices : option (list pystr))   (* takes one argument *)
  | StoreTrue
  | Help.

Record option_spec : Type := {
  option_strings : list pystr;
  dest : pystr;
  kind : action_kind;
  required : bool;
  default_value : value
}.

Record parser : Type := {
  positional : pystr;              (* the one positional argument *)
  options : list option_spec
}.

Inductive parse_outcome : Type :=
  | Parsed (namespace : list (pystr * value))
  | ParserExit (code : Z).          (* parser.exit / parser.error *)

Inductive token : Type :=
  | TArg (a : pystr)
  | TOpt (o : option_spec).

Definition find_option (P : parser) (t : pystr) : option option_spec :=
  List.find (fun o => existsb (eqb_str t) (option_strings o)) (options P).

(** How [_parse_optional] reads one argument string.  Strings that start with
    a dash and are no option string of the parser (abbreviations, [--], [=]
    forms, clustered flags, negative numbers) are outside this model: [None]. *)
Definition classify (P : parser) (t : pystr) : option token :=
  match find_option P t with
  | Some o => Some (TOpt o)
  | None => if startswith (py "-") t && negb (eqb_str t (py "-")) then None
            else Some (TArg t)
  end.

Fixpoint classify_all (P : parser) (argv : list pystr) : option (list token) :=
  match argv with
  | [] => Some []
  | t :: r => match classify P t, classify_all P r with
              | Some x, Some xs => Some (x :: xs)
              | _, _ => None
              end
  end.

Fixpoint ns_set (k : pystr) (v : value) (ns : list (pystr * value)) : list (pystr * value) :=
  match ns with
  | [] => [(k, v)]
  | (k', v') :: r => if eqb_str k' k then (k, v) :: r else (k', v') :: ns_set k v r
  end.

Definition usage_error : Z := 2.

(** The arguments are consumed from left to right; [seen] lists the
    destinations filled so far and [extras] counts unclaimed arguments. *)
Fixpoint consume (P : parser) (ts : list token) (ns : list (pystr * value))
    (seen : list pystr) (extras : nat) : parse_outcome :=
  match ts with
  | [] =>
      if negb (existsb (eqb_str (positional P)) seen) then ParserExit usage_error
      else if existsb (fun o => required o && negb (existsb (eqb_str (dest o)) seen)) (options P)
      then ParserExit usage_error
      else if negb (extras =? 0)%nat then ParserExit usage_error
      else Parsed ns
  | TArg a :: r =>
      if existsb (eqb_str (positional P)) seen then consume P r ns seen (S extras)
      else consume P r (ns_set (positional P) (VStr a) ns) (positional P :: seen) extras
  | TOpt o :: r =>
      match kind o with
      | Help => ParserExit 0
      | StoreTrue => consume P r (ns_set (dest o) (VBool true) ns) (dest o :: seen) extras
      | Store choices =>
          match r with
          | TArg a :: r' =>
              if match choices with
                 | Some l => existsb (eqb_str a) l
                 | None => true
                 end
              then consume P r' (ns_set (dest o) (VStr a) ns) (dest o :: seen) extras
              else ParserExit usage_error
          | _ => ParserExit usage_error
          end
      end
  end.

Definition defaults (P : parser) : list (pystr * value) :=
  (positional P, VNone)
    :: flat_map (fun o => match kind o with
                          | Help => []
                          | _ => [(dest o, default_value o)]
                          end) (options P).

(** [parser.parse_args()] on the arguments after the program name. *)
Definition parse_args (P : parser) (argv : list pystr) : option parse_outcome :=
  match classify_all P argv with
  | Some ts => Some (consume P ts (defaults P) [] 0)
  | None => None
  end.

Definition help_option : option_spec :=
  {| option_strings := [py "-h"; py "--help"]; dest := py "help"; kind := Help;
     required := false; default_value := VNone |}.

Definition audio_formats : list pystr := [py "wav"; py "mp3"; py "flac"; py "m4a"; py "aac"].
Definition model_sizes : list pystr := [py "tiny"; py "base"; py "small"; py "medium"; py "large"].

(** The parser of [transcriber.py]. *)
Definition transcriber_parser : parser :=
  {| positional := py "url";
     options :=
       [ help_option;
         {| option_strings := [py "-o"; py "--output"]; dest := py "output";
            kind := Store None; required := false; default_value := VNone |};
         {| option_strings := [py "-a"; py "--audio-output"]; dest := py "audio_output";
            kind := Store None; required := false; default_value := VNone |};
         {| option_strings := [py "-f"; py "--audio-format"]; dest := py "audio_format";
            kind := Store (Some audio_formats); required := false; default_value := VStr (py "wav") |};
         {| option_strings := [py "-m"; py "--model"]; dest := py "model";
            kind := Store (Some model_sizes); required := false; default_value := VStr (py "base") |};
         {| option_strings := [py "-v"; py "--verbose"]; dest := py "verbose";
            kind := StoreTrue; required := false; default_value := VBool false |} ] |}.

(** The parser of [audio_extractor.py]. *)
Definition extractor_parser : parser :=
  {| positional := py "url";
     options :=
       [ help_option;
         {| option_strings := [py "-o"; py "--output"]; dest := py "output";
            kind := Store None; required := true; default_value := VNone |};
         {| option_strings := [py "-f"; py "--format"]; dest := py "format";
            kind := Store (Some audio_formats); required := false; default_value := VStr (py "wav") |};
         {| option_strings := [py "-v"; py "--verbose"]; dest := py "verbose";
            kind := StoreTrue; required := false; default_value := VBool false |} ] |}.

(** An attribute of the namespace that holds a string or [None]. *)
Definition attr (ns : list (pystr * value)) (name : pystr) : option pystr :=
  match dict_get name ns with
  | Some (VStr s) => Some s
  | _ => None
  end.

Definition attr_str (ns : list (pystr * value)) (name : pystr) : pystr :=
  default [] (attr ns name).

(** *** The two [main] functions, after [parse_args] *)

Section WithEnv.
Variable E : env.

Definition sys_exit {A} (code : Z) : M A := raise (SystemExit code).

(** [subprocess.run(['yt-dlp', '--version'], capture_output=True, check=True)]
    guarded by [except (CalledProcessError, FileNotFoundError): sys.exit(1)]. *)
Definition check_ytdlp : M unit :=
  try_catch (subprocess_run E [py "yt-dlp"; py "--version"])
    (fun e => match e with
              | CalledProcessError | FileNotFoundError => Some (sys_exit 1)
              | _ => None
              end).

(** [import whisper] guarded by [except ImportError: sys.exit(1)]. *)
Definition check_whisper : M unit :=
  if whisper_installed E then ret tt else sys_exit 1.

(** The workflow [main] of [transcriber.py] selects. *)
Definition selected_workflow (args : list (pystr * value)) : M bool :=
  if Transcriber.given (attr args (py "audio_output")) then
    Transcriber.process_video_with_audio_save E
      (attr_str args (py "url")) (attr_str args (py "audio_output"))
      (attr args (py "output")) (attr_str args (py "audio_format"))
  else
    Transcriber.process_video E (attr_str args (py "url")) (attr args (py "output")).

Definition interrupted_or_failed (h : M unit) (e : exn) : option (M unit) :=
  match e with
  | KeyboardInterrupt => Some h
  | SystemExit _ => None
  | _ => Some h
  end.

(** [transcriber.main] between [parse_args] and the [try]: the dependency
    checks and the construction of the transcriber. *)
Definition transcriber_setup (args : list (pystr * value)) : M unit :=
  _ ← check_whisper;
  _ ← check_ytdlp;
  modify (fun st => {| fs := fs st; trace := trace st;
                       self := {| model_size := attr_str args (py "model");
                                  temp_dir := None |} |}).

(** [transcriber.main] from the parsed arguments on. *)
Definition transcriber_run (args : list (pystr * value)) : M unit :=
  _ ← transcriber_setup args;
  try_catch
    (success ← selected_workflow args;
     if negb success then sys_exit 1 else ret tt)
    (interrupted_or_failed (_ ← Transcriber.cleanup; sys_exit 1)).

(** The status the interpreter exits with when the script ends in [r]: an
    uncaught exception gives 1, an uncaught [KeyboardInterrupt] ends the
    process by SIGINT, which a shell reports as 130. *)
Definition exit_status (r : res unit) : Z :=
  match r with
  | Ok _ => 0
  | Raise (SystemExit code) => code
  | Raise KeyboardInterrupt => 130
  | Raise _ => 1
  end.

Definition script (P : parser) (run : list (pystr * value) -> M unit)
    (argv : list pystr) (st : state) : option Z :=
  match parse_args P argv with
  | Some (Parsed args) => Some (exit_status (fst (run args st)))
  | Some (ParserExit code) => Some code
  | None => None
  end.

(** [python transcriber.py argv...] *)
Definition transcriber_main : list pystr -> state -> option Z :=
  script transcriber_parser transcriber_run.

End WithEnv.

End Cli.

(** ** [audio_extractor.py]: [main] with the lines it prints *)

Module Extractor.
Import Transcriber Cli.

Section Main.
Variable E : env.
(** [str(e)] of a caught exception. *)
Variable describe : exn -> pystr.

Definition not_found_line : pystr :=
  py "Error: yt-dlp not found. Please install with: pip install yt-dlp".
Definition success_line (output : pystr) : pystr :=
  py "Audio successfully extracted to: " ++ output.
Definition failure_line : pystr :=
  py "Audio extraction failed. Check the logs for details.".
Definition interrupted_line : pystr :=
  [10%N] ++ py "Process interrupted by user".
Definition unexpected_line (e : exn) : pystr :=
  py "Unexpected error: " ++ describe e.

(** [subprocess.run(['yt-dlp', '--version'], capture_output=True, check=True)]
    guarded by [except (CalledProcessError, FileNotFoundError)], which prints
    and exits. *)
Definition check_ytdlp : M unit :=
  try_catch (subprocess_run E [py "yt-dlp"; py "--version"])
    (fun e => match e with
              | CalledProcessError | FileNotFoundError =>
                  Some (_ ← print not_found_line; sys_exit 1)
              | _ => None
              end).

(** [main] between [parse_args] and the [try]: the probe and the
    construction of the transcriber. *)
Definition setup : M unit :=
  _ ← check_ytdlp;
  modify (fun st => {| fs := fs st; trace := trace st;
                       self := {| model_size := py "base"; temp_dir := None |} |}).

(** The call [main] makes. *)
Definition call (args : list (pystr * value)) : M bool :=
  extract_audio_to_file E (attr_str args (py "url")) (attr_str args (py "output"))
    (attr_str args (py "format")).

(** The clauses [except KeyboardInterrupt] and [except Exception as e] of
    [main]. *)
Definition handler (e : exn) : option (M unit) :=
  match e with
  | KeyboardInterrupt => Some (_ ← print interrupted_line; sys_exit 1)
  | SystemExit _ => None
  | _ => Some (_ ← print (unexpected_line e); sys_exit 1)
  end.

(** [main] from the parsed arguments on. *)
Definition main (args : list (pystr * value)) : M unit :=
  _ ← setup;
  try_catch
    (success ← call args;
     if (success : bool)
     then print (success_line (attr_str args (py "output")))
     else (_ ← print failure_line; sys_exit 1))
    handler.

(** [python audio_extractor.py argv...] *)
Definition extractor_main : list pystr -> state -> option Z :=
  script extractor_parser main.

End Main.
End Extractor.

(** ** The formatter over a store of mutable objects *)

Module Heap.

Definition loc := nat.

(** An object in the store.  Lists and dicts hold references. *)
Inductive obj : Type :=
  | ONone
  | OBool (b : bool)
  | OInt (z : Z)
  | OFloat (f : float)
  | OStr (s : pystr)
  | OList (items : list loc)
  | ODict (entries : list (pystr * loc)).

(** The store: the object at address [l] is [σ !! l]; allocation appends. *)
Abbreviation store := (list obj).

(** The outcome of a statement on the store; [OutOfFuel] marks a loop cut
    short by the model's step bound. *)
Inductive hres (A : Type) : Type :=
  | HOk (a : A)
  | HRaise (e : exn)
  | OutOfFuel.
Arguments HOk {A} a.
Arguments HRaise {A} e.
Arguments OutOfFuel {A}.

Definition HM (A : Type) : Type := store -> hres A * store.

Definition hret {A} (a : A) : HM A := fun σ => (HOk a, σ).
Definition hraise {A} (e : exn) : HM A := fun σ => (HRaise e, σ).
Definition hbind {A B} (m : HM A) (k : A -> HM B) : HM B :=
  fun σ => match m σ with
           | (HOk a, σ') => k a σ'
           | (HRaise e, σ') => (HRaise e, σ')
           | (OutOfFuel, σ') => (OutOfFuel, σ')
           end.

#[export] Instance HM_bind : MBind HM := fun A B k m => hbind m k.
#[export] Instance HM_ret : MRet HM := @hret.

Definition alloc (o : obj) : HM loc := fun σ => (HOk (length σ), σ ++ [o]).

(** Reading an object; a dangling reference cannot arise in Python and is
    reported as a [TypeError] here. *)
Definition deref (l : loc) : HM obj :=
  fun σ => match σ !! l with
           | Some o => (HOk o, σ)
           | None => (HRaise TypeError, σ)
           end.

Fixpoint entries_get (key : pystr) (d : list (pystr * loc)) : option loc :=
  match d with
  | [] => None
  | (k, v) :: r => if eqb_str k key then Some v else entries_get key r
  end.

Definition truthy (o : obj) : bool :=
  match o with
  | ONone => false
  | OBool b => b
  | OInt z => negb (z =? 0)
  | OFloat f => negb (is_zero f)
  | OStr s => negb (eqb_str s [])
  | OList l => match l with [] => false | _ => true end
  | ODict d => match d with [] => false | _ => true end
  end.

Definition is_str_at (σ : store) (key : pystr) (l : loc) : bool :=
  match σ !! l with
  | Some (OStr s) => eqb_str s key
  | _ => false
  end.

(** [key in x] *)
Definition py_contains (key : pystr) (x : loc) : HM bool :=
  fun σ => match σ !! x with
           | Some (ODict d) => (HOk (match entries_get key d with Some _ => true | None => false end), σ)
           | Some (OList l) => (HOk (existsb (is_str_at σ key) l), σ)
           | Some (OStr s) => (HOk (contains key s), σ)
           | _ => (HRaise TypeError, σ)
           end.

(** [x[key]] *)
Definition py_getitem (x : loc) (key : pystr) : HM loc :=
  o ← deref x;
  match o with
  | ODict d => match entries_get key d with
               | Some l => hret l
               | None => hraise KeyError
               end
  | _ => hraise TypeError
  end.

(** [round(x, ndigits)]: a float gives a new float object, an [int] itself. *)
Definition py_round (x : loc) (ndigits : N) : HM loc :=
  o ← deref x;
  match o with
  | OFloat f => alloc (OFloat (PyFloat.float_round f ndigits))
  | OInt z => hret x
  | OBool b => alloc (OInt (if b then 1 else 0))
  | _ => hraise TypeError
  end.

(** [x.strip()]: the string itself when there is nothing to strip. *)
Definition py_strip (x : loc) : HM loc :=
  o ← deref x;
  match o with
  | OStr s => if eqb_str (strip s) s then hret x else alloc (OStr (strip s))
  | _ => hraise AttributeError
  end.

(** [lst.append(x)]: the list object at [lst] is updated in place. *)
Definition list_append (lst x : loc) : HM unit :=
  fun σ => match σ !! lst with
           | Some (OList items) => (HOk tt, <[lst := OList (items ++ [x])]> σ)
           | _ => (HRaise AttributeError, σ)
           end.

(** One step of the iterator over the object at [it]: its [i]-th item, read
    from the object as it is now, or [None] when the iteration is over. *)
Definition iter_next (it : loc) (i : nat) : HM (option loc) :=
  o ← deref it;
  match o with
  | OList items => hret (items !! i)
  | ODict d => match d !! i with
               | Some kv => l ← alloc (OStr (fst kv)); hret (Some l)
               | None => hret None
               end
  | OStr s => match s !! i with
              | Some c => l ← alloc (OStr [c]); hret (Some l)
              | None => hret None
              end
  | _ => hraise TypeError
  end.

Definition format_segment (segment : loc) : HM loc :=
  start ← py_getitem segment (py "start");
  start' ← py_round start 2;
  end_ ← py_getitem segment (py "end");
  end' ← py_round end_ 2;
  timestamp ← alloc (ODict [(py "start", start'); (py "end", end')]);
  text ← py_getitem segment (py "text");
  sentence ← py_strip text;
  alloc (ODict [(py "timestamp", timestamp); (py "sentence", sentence)]).

(** The [for] loop over the live object [segments], from item [i] on. *)
Fixpoint format_loop (fuel : nat) (segments : loc) (i : nat) (formatted_output : loc)
  : HM unit :=
  match fuel with
  | O => fun σ => (OutOfFuel, σ)
  | S fuel' =>
      next ← iter_next segments i;
      match next with
      | None => hret tt
      | Some segment =>
          formatted_segment ← format_segment segment;
          _ ← list_append formatted_output formatted_segment;
          format_loop fuel' segments (S i) formatted_output
      end
  end.

(** The number of items an iteration over the object at [l] starts with. *)
Definition size_at (σ : store) (l : loc) : nat :=
  match σ !! l with
  | Some (OList items) => length items
  | Some (ODict d) => length d
  | Some (OStr s) => length s
  | _ => 0
  end.

Definition format_output (transcription_result : loc) : HM loc :=
  formatted_output ← alloc (OList []);
  o ← deref transcription_result;
  stop ← (if negb (truthy o) then hret true
          else present ← py_contains (py "segments") transcription_result;
               hret (negb present));
  if (stop : bool) then hret formatted_output
  else
    segments ← py_getitem transcription_result (py "segments");
    _ ← (fun σ => format_loop (S (size_at σ segments)) segments 0 formatted_output σ);
    hret formatted_output.

(** Reading a tree back from the store, to depth [depth]. *)
Fixpoint reify (depth : nat) (σ : store) (l : loc) : option value :=
  match depth with
  | O => None
  | S d =>
      match σ !! l with
      | None => None
      | Some ONone => Some VNone
      | Some (OBool b) => Some (VBool b)
      | Some (OInt z) => Some (VInt z)
      | Some (OFloat f) => Some (VFloat f)
      | Some (OStr s) => Some (VStr s)
      | Some (OList items) => VList <$> mapM (reify d σ) items
      | Some (ODict es) =>
          VDict <$> mapM (fun kv => v ← reify d σ (snd kv); Some (fst kv, v)) es
      end
  end.

End Heap.

(** ** Vocabulary of the statements below *)

Module Vocabulary.

(** A statement respects a relation when every run, whatever its outcome,
    relates the state before to the state after. *)
Definition respects (R : relation state) {A} (m : M A) : Prop :=
  forall st, R st (snd (m st)).

(** [st'] extends the trace of [st] by events that all satisfy [Q]. *)
Definition adds (Q : event -> Prop) (st st' : state) : Prop :=
  exists evs, trace st' = trace st ++ evs /\ Forall Q evs.

(** The directory [d] stays a directory and the transcriber object is not
    touched. *)
Definition keeps (d : pystr) (st st' : state) : Prop :=
  (fs st !! d = Some Dir -> fs st' !! d = Some Dir) /\ self st' = self st.

(** A statement raises only exceptions that satisfy [P]. *)
Definition raises (P : exn -> Prop) {A} (m : M A) : Prop :=
  forall st e st', m st = (Raise e, st') -> P e.

(** [e] is an ordinary exception, one that [except Exception] catches. *)
Definition ordinary (e : exn) : Prop := is_Exception e = true.

(** [e] is not a [SystemExit]. *)
Definition not_exit (e : exn) : Prop :=
  match e with
  | SystemExit _ => False
  | _ => True
  end.

(** How the probe [yt-dlp --version] of the two [main] functions ends. *)
Definition probe_status (E : env) (st : state) : proc_status :=
  status (run_process E [py "yt-dlp"; py "--version"] (fs st)).

(** Launching a process is the only event that is no output of the program. *)
Definition is_run (ev : event) : Prop :=
  match ev with
  | EvRun _ => True
  | _ => False
  end.

(** The adapter failures of the temporary-audio workflow, seen from the
    state [st1] in which its [try] block starts. *)
Inductive temp_adapter_failure (E : env) (url d : pystr) (st1 : state) : Prop :=
  | download_failed st2 :
      Transcriber.download_audio E url (OsPath.join d (py "audio.%(ext)s")) st1
        = (Ok false, st2) ->
      temp_adapter_failure E url d st1
  | audio_missing st2 :
      Transcriber.download_audio E url (OsPath.join d (py "audio.%(ext)s")) st1
        = (Ok true, st2) ->
      glob_audio (fs st2) d = [] ->
      temp_adapter_failure E url d st1
  | no_transcript st2 p rest v st3 :
      Transcriber.download_audio E url (OsPath.join d (py "audio.%(ext)s")) st1
        = (Ok true, st2) ->
      glob_audio (fs st2) d = p :: rest ->
      Transcriber.transcribe_audio E p st2 = (Ok v, st3) ->
      truthy v = false ->
      temp_adapter_failure E url d st1.

(** The adapter failures of the saved-audio workflow, seen from the state
    [st1] in which the audio path [ap] has been fixed. *)
Inductive saved_adapter_failure (E : env) (url ap fmt : pystr) (st1 : state) : Prop :=
  | extract_failed st2 :
      Transcriber.extract_audio_to_file E url ap fmt st1 = (Ok false, st2) ->
      saved_adapter_failure E url ap fmt st1
  | no_saved_transcript st2 v st3 :
      Transcriber.extract_audio_to_file E url ap fmt st1 = (Ok true, st2) ->
      Transcriber.transcribe_local_audio E ap st2 = (Ok v, st3) ->
      truthy v = false ->
      saved_adapter_failure E url ap fmt st1.

(** Where the saved-audio workflow puts the audio. *)
Definition audio_target (E : env) (audio_output_path : pystr) : pystr :=
  OsPath.join (OsPath.join (cwd E) (py "audio")) (OsPath.basename audio_output_path).

(** Where the saved-audio workflow puts the JSON, if anywhere. *)
Definition json_target (E : env) (transcription_output_file : option pystr) : option pystr :=
  match transcription_output_file with
  | Some name =>
      if Transcriber.given transcription_output_file
      then Some (OsPath.join (OsPath.join (cwd E) (py "result")) (OsPath.basename name))
      else transcription_output_file
  | None => None
  end.

(** [text] is the JSON text of what [format_output] returned for some
    non-empty result of the recogniser. *)
Definition formatted_json (text : pystr) : Prop :=
  exists v formatted,
    truthy v = true
    /\ Formatter.format_output v = Ok formatted
    /\ text = Json.dumps formatted.

(** The events of a workflow that launches [cmd] and sends its JSON to [out]:
    the one command; the output file and nothing else opened and written,
    with the UTF-8 bytes of the JSON text; the JSON text printed only when
    no output file is given. *)
Definition workflow_event (cmd : list pystr) (out : option pystr) (ev : event) : Prop :=
  match ev with
  | EvRun c => c = cmd
  | EvOpen path => Transcriber.given out = true /\ out = Some path
  | EvWrite path data =>
      Transcriber.given out = true /\ out = Some path
      /\ exists text, formatted_json text /\ Json.utf8_encode text = Some data
  | EvPrint text => Transcriber.given out = false /\ formatted_json text
  end.









(** A recogniser result with two segments. *)
Definition hello_segments : list (pystr * value) :=
  [(py "text", VStr (py "hello world bye"));
   (py "segments",
    VList [VDict [(py "id", VInt 0); (py "start", VFloat 0); (py "end", VFloat 1.236);
                  (py "text", VStr (py "  hello world  "))];
           VDict [(py "id", VInt 1); (py "start", VFloat 1.236); (py "end", VFloat 2.5);
                  (py "text", VStr (py " bye"))]])].

(** The references an object holds. *)
Definition refs (o : Heap.obj) : list Heap.loc :=
  match o with
  | Heap.OList items => items
  | Heap.ODict entries => map snd entries
  | _ => []
  end.

(** A store without dangling references. *)
Definition closed (σ : list Heap.obj) : Prop :=
  forall l o, σ !! l = Some o -> Forall (fun l' => (l' < length σ)%nat) (refs o).

(** [σ'] has every object of [σ] below address [n] as it was, and is no
    shorter. *)
Definition stable (n : nat) (σ σ' : list Heap.obj) : Prop :=
  (length σ <= length σ')%nat /\ forall l, (l < n)%nat -> σ' !! l = σ !! l.

(** A statement on the store leaves the objects below address [n] alone. *)
Definition hkeeps (n : nat) {A} (m : Heap.HM A) : Prop :=
  forall σ, (n <= length σ)%nat -> stable n σ (snd (m σ)).

(** A statement on the store that the step bound never cuts short. *)
Definition total {A} (m : Heap.HM A) : Prop :=
  forall σ, fst (m σ) <> Heap.OutOfFuel.

(** Reading a tree from the store as [Heap.reify] does, along references
    that never pass through the address [out]. *)
Fixpoint reify_avoid (out : Heap.loc) (depth : nat) (σ : list Heap.obj) (l : Heap.loc)
  : option value :=
  match depth with
  | O => None
  | S d =>
      if bool_decide (l = out) then None else
      match σ !! l with
      | None => None
      | Some Heap.ONone => Some VNone
      | Some (Heap.OBool b) => Some (VBool b)
      | Some (Heap.OInt z) => Some (VInt z)
      | Some (Heap.OFloat f) => Some (VFloat f)
      | Some (Heap.OStr s) => Some (VStr s)
      | Some (Heap.OList items) => VList <$> mapM (reify_avoid out d σ) items
      | Some (Heap.ODict es) =>
          VDict <$> mapM (fun kv => v ← reify_avoid out d σ (snd kv); Some (fst kv, v)) es
      end
  end.

(** The object at [l] reads as the tree [v], without passing through [out]. *)
Definition rep (out : Heap.loc) (σ : list Heap.obj) (l : Heap.loc) (v : value) : Prop :=
  exists d, reify_avoid out d σ l = Some v.

(** The object [o] has the shape of [v], and its references read as the
    parts of [v]. *)
Definition rel_obj (out : Heap.loc) (σ : list Heap.obj) (o : Heap.obj) (v : value) : Prop :=
  match o, v with
  | Heap.ONone, VNone => True
  | Heap.OBool b, VBool b' => b = b'
  | Heap.OInt z, VInt z' => z = z'
  | Heap.OFloat f, VFloat f' => f = f'
  | Heap.OStr s, VStr s' => s = s'
  | Heap.OList items, VList vs => Forall2 (rep out σ) items vs
  | Heap.ODict es, VDict dv =>
      Forall2 (fun e kv => fst e = fst kv /\ rep out σ (snd e) (snd kv)) es dv
  | _, _ => False
  end.

Definition to_hres {A} (r : res A) : Heap.hres A :=
  match r with
  | Ok a => Heap.HOk a
  | Raise e => Heap.HRaise e
  end.

(** The statement [m] on the store does what the function on trees gives as
    [r]: the same exception, or an address that reads as the same value; and
    it leaves the objects of [σ] alone. *)
Definition agrees (out : Heap.loc) (σ : list Heap.obj) (m : Heap.HM Heap.loc)
    (r : res value) : Prop :=
  match r with
  | Ok w => exists l σ', m σ = (Heap.HOk l, σ') /\ rep out σ' l w
                         /\ stable (length σ) σ σ'
  | Raise e => exists σ', m σ = (Heap.HRaise e, σ') /\ stable (length σ) σ σ'
  end.

(** A store that holds the result [hello_segments], followed by a
    [language] entry, at address 13. *)
Definition hello_store : list Heap.obj :=
  [ Heap.OInt 0; Heap.OFloat 0; Heap.OFloat 1.236; Heap.OStr (py "  hello world  ");
    Heap.ODict [(py "id", 0); (py "start", 1); (py "end", 2); (py "text", 3)]%nat;
    Heap.OInt 1; Heap.OFloat 1.236; Heap.OFloat 2.5; Heap.OStr (py " bye");
    Heap.ODict [(py "id", 5); (py "start", 6); (py "end", 7); (py "text", 8)]%nat;
    Heap.OList [4; 9]%nat;
    Heap.OStr (py "hello world bye");
    Heap.OStr (py "en");
    Heap.ODict [(py "text", 11); (py "segments", 10); (py "language", 12)]%nat ].

(** A machine on which everything works: the downloader leaves a WAV file
    where it is asked to and the recogniser returns [hello_segments]. *)
Definition demo_env : env :=
  {| cwd := py "/work";
     tmp_name := fun _ => py "/tmp/tmpabc";
     run_process := fun cmd _ =>
       if existsb (eqb_str (py "--version")) cmd
       then {| status := Exited 0; created := [] |}
       else {| status := Exited 0;
               created := [(py "/tmp/tmpabc/audio.wav", [0x52; 0x49; 0x46; 0x46]%N);
                           (py "/work/audio/x.wav", [0x52; 0x49; 0x46; 0x46]%N)] |};
     whisper_installed := true;
     whisper_transcribe := fun _ _ _ => Transcribed (VDict hello_segments) |}.

(** The same machine with a downloader that exits with status 1. *)
Definition failing_env : env :=
  {| cwd := py "/work";
     tmp_name := fun _ => py "/tmp/tmpabc";
     run_process := fun cmd _ =>
       if existsb (eqb_str (py "--version")) cmd
       then {| status := Exited 0; created := [] |}
       else {| status := Exited 1; created := [] |};
     whisper_installed := true;
     whisper_transcribe := fun _ _ _ => Transcribed (VDict hello_segments) |}.

(** The same machine with a user who interrupts the download. *)
Definition interrupting_env : env :=
  {| cwd := py "/work";
     tmp_name := fun _ => py "/tmp/tmpabc";
     run_process := fun cmd _ =>
       if existsb (eqb_str (py "--version")) cmd
       then {| status := Exited 0; created := [] |}
       else {| status := Interrupted;
               created := [(py "/tmp/tmpabc/audio.wav.part", [0x52]%N)] |};
     whisper_installed := true;
     whisper_transcribe := fun _ _ _ => Transcribed (VDict hello_segments) |}.

Definition demo_state : state :=
  {| fs := {[ py "/work" := Dir; py "/tmp" := Dir ]};
     trace := [];
     self := {| model_size := py "base"; temp_dir := None |} |}.

Definition demo_url : pystr := py "https://example.org/v".

(** *** Vocabulary of the further properties *)

(** [s] is what [strip] leaves of itself: it neither starts nor ends with
    whitespace. *)
Definition stripped (s : pystr) : Prop :=
  strip s = s
  /\ (forall c t, s = c :: t -> is_space c = false)
  /\ (forall t c, s = t ++ [c] -> is_space c = false).

(** The record [r] holds the string [s] under [sentence]. *)
Definition sentence_of (r : value) (s : pystr) : Prop :=
  py_getitem r (py "sentence") = Ok (VStr s).

(** [e] is the user's interrupt. *)
Definition interrupt (e : exn) : Prop := e = KeyboardInterrupt.

(** Nothing was sent to the outside and the transcriber object was not
    touched. *)
Definition silent (st st' : state) : Prop := trace st' = trace st /\ self st' = self st.

(** The state the program is in when the process [cmd] it launched in [st]
    has ended. *)
Definition after_run (E : env) (cmd : list pystr) (st : state) : state :=
  log_event (EvRun cmd) (set_fs (ext_apply (created (run_process E cmd (fs st)))) st).

(** The command of the dependency probe of the two [main] functions. *)
Definition probe : list pystr := [py "yt-dlp"; py "--version"].

(** [t] is one of the strings [argv], or an option of the parser [P] that one
    of the strings [argv] names. *)
Definition token_of (P : Cli.parser) (argv : list pystr) (t : Cli.token) : Prop :=
  match t with
  | Cli.TArg a => a ∈ argv
  | Cli.TOpt o => o ∈ Cli.options P /\ exists s, s ∈ argv /\ s ∈ Cli.option_strings o
  end.

(** None of the option strings of [o] is on the command line. *)
Definition absent (argv : list pystr) (o : Cli.option_spec) : Prop :=
  forall s, s ∈ Cli.option_strings o -> s ∉ argv.

(** The attribute [name] holds one of [choices]. *)
Definition one_of (choices : list pystr) (ns : list (pystr * value)) (name : pystr) : Prop :=
  exists s, Cli.attr ns name = Some s /\ s ∈ choices.

(** The attribute [name] holds one of the strings of the command line. *)
Definition from_argv (argv : list pystr) (ns : list (pystr * value)) (name : pystr) : Prop :=
  exists s, Cli.attr ns name = Some s /\ s ∈ argv.

(** The transcriber object asks for the model [m]. *)
Definition asks_for (m : pystr) (st : state) : Prop := model_size (self st) = m.

(** From every state that satisfies [P] the two statements run alike, into a
    state that satisfies [P]. *)
Definition alike (P : state -> Prop) {A} (m m' : M A) : Prop :=
  forall st, P st -> m st = m' st /\ P (snd (m st)).

(** Lists and dicts can be changed in place; the other objects cannot. *)
Definition mutable (o : Heap.obj) : Prop :=
  match o with
  | Heap.OList _ | Heap.ODict _ => True
  | _ => False
  end.

(** [l'] is [l], or an object that [l] holds a chain of references to. *)
Inductive reaches (σ : list Heap.obj) : Heap.loc -> Heap.loc -> Prop :=
  | reaches_here l : reaches σ l l
  | reaches_through l o l' l'' :
      σ !! l = Some o -> l' ∈ refs o -> reaches σ l' l'' -> reaches σ l l''.

(** An address that a call on the store [σ] may put into its result: a new
    object, or an old one that cannot be changed. *)
Definition shareable (σ : list Heap.obj) (l : Heap.loc) : Prop :=
  (length σ <= l)%nat \/ exists o, σ !! l = Some o /\ ~ mutable o.

(** The objects of [σ] are in [σ'] as they were, and the new objects of
    [σ'] hold shareable references only. *)
Definition separate (σ σ' : list Heap.obj) : Prop :=
  stable (length σ) σ σ'
  /\ forall l o, (length σ <= l)%nat -> σ' !! l = Some o -> Forall (shareable σ) (refs o).

(** The two segments of [hello_segments]. *)
Definition hello_items : list value :=
  [VDict [(py "id", VInt 0); (py "start", VFloat 0); (py "end", VFloat 1.236);
          (py "text", VStr (py "  hello world  "))];
   VDict [(py "id", VInt 1); (py "start", VFloat 1.236); (py "end", VFloat 2.5);
          (py "text", VStr (py " bye"))]].

(** The machine [demo_env] with a recogniser that fails. *)
Definition deaf_env : env :=
  {| cwd := cwd demo_env;
     tmp_name := tmp_name demo_env;
     run_process := run_process demo_env;
     whisper_installed := true;
     whisper_transcribe := fun _ _ _ => TranscribeFailed |}.

(** The machine [demo_env] with a recogniser that knows the model [base]
    only. *)
Definition base_only_env : env :=
  {| cwd := cwd demo_env;
     tmp_name := tmp_name demo_env;
     run_process := run_process demo_env;
     whisper_installed := true;
     whisper_transcribe := fun model path f =>
       if eqb_str model (py "base") then whisper_transcribe demo_env model path f
       else TranscribeFailed |}.

(** The state [demo_state] with the directory [audio] in place. *)
Definition audio_state : state :=
  {| fs := {[ py "/work" := Dir; py "/work/audio" := Dir; py "/tmp" := Dir ]};
     trace := [];
     self := {| model_size := py "base"; temp_dir := None |} |}.

(** The namespace of [audio_extractor.py URL -o /work/audio/x.wav]. *)
Definition extractor_args : list (pystr * value) :=
  [(py "url", VStr demo_url); (py "output", VStr (py "/work/audio/x.wav"));
   (py "format", VStr (py "wav")); (py "verbose", VBool false)].

(** [x] is a NaN or an infinity. *)
Definition non_finite (x : float) : Prop :=
  match Prim2SF x with
  | S754_nan | S754_infinity _ => True
  | _ => False
  end.

(** A machine state in which the regular file [/work/f] lies on the way to
    the directory the audio is to go to. *)
Definition blocked_state : state :=
  {| fs := {[ py "/work" := Dir; py "/work/f" := File [] ]};
     trace := [];
     self := {| model_size := py "base"; temp_dir := None |} |}.

(** The namespace of [transcriber.py URL]. *)
Definition url_args : list (pystr * value) :=
  Cli.ns_set (py "url") (VStr demo_url) (Cli.defaults Cli.transcriber_parser).




(** The saved-audio workflow on [demo_env] with [-a /tmp/sub/x.wav
    -o a/b/out.json]. *)
Definition sub_run : res bool * state :=
  Transcriber.process_video_with_audio_save demo_env demo_url (py "/tmp/sub/x.wav")
    (Some (py "a/b/out.json")) (py "wav") demo_state.

(** [p] is an absolute path in normal form: it starts with a separator, does
    not end with one, and holds no empty name, no [.] and no [..]. *)
Definition normal (p : pystr) : bool :=
  startswith [sep] p && negb (trailing_sep p)
  && negb (contains [sep; sep] p)
  && negb (contains (py "/./") p) && negb (endswith (py "/.") p)
  && negb (contains (py "/../") p) && negb (endswith (py "/..") p).

(** A file name that holds a lone surrogate, as [sys.argv] has it for a byte
    that is no UTF-8. *)
Definition odd_name : pystr := [0xDCFF]%N ++ py ".wav".

(** The machine [demo_env] with a downloader that leaves the file
    [odd_name]. *)
Definition odd_env : env :=
  {| cwd := cwd demo_env;
     tmp_name := tmp_name demo_env;
     run_process := fun cmd _ =>
       if existsb (eqb_str (py "--version")) cmd
       then {| status := Exited 0; created := [] |}
       else {| status := Exited 0; created := [(odd_name, [0x52; 0x49; 0x46; 0x46]%N)] |};
     whisper_installed := true;
     whisper_transcribe := whisper_transcribe demo_env |}.

End Vocabulary.

(** * Properties *)

(** ** Strings and paths *)

Section StringFacts.

Lemma lstrip_split (s : pystr) :
exists l, s = l ++ lstrip s /\ forallb is_space l = true.
Proof.
induction s as [|c r IH]; simpl.
- exists []. split; reflexivity.
- destruct (is_space c) eqn:Hc.
  + destruct IH as (l & Hl & Hs). exists (c :: l). split.
    * simpl. congruence.
    * simpl. rewrite Hc. exact Hs.
  + exists []. split; reflexivity.
Qed.

Lemma lstrip_head (s : pystr) c t : lstrip s = c :: t -> is_space c = false.
Proof.
induction s as [|a r IH]; simpl; [discriminate|].
destruct (is_space a) eqn:Ha; [exact IH|].
intros [= <- <-]. exact Ha.
Qed.

Lemma forallb_rev {A} (f : A -> bool) (l : list A) :
forallb f (rev l) = forallb f l.
Proof.
induction l as [|a l IH]; [reflexivity|].
simpl. rewrite forallb_app, IH. simpl. rewrite andb_true_r. apply andb_comm.
Qed.

Lemma rstrip_split (s : pystr) :
exists r, s = rstrip s ++ r /\ forallb is_space r = true.
Proof.
destruct (lstrip_split (rev s)) as (l & Hl & Hs).
exists (rev l). split.
- unfold rstrip. rewrite <- rev_app_distr, <- Hl. symmetry. apply rev_involutive.
- rewrite forallb_rev. exact Hs.
Qed.

Lemma rstrip_last (s : pystr) t c : rstrip s = t ++ [c] -> is_space c = false.
Proof.
unfold rstrip. intros H.
apply (f_equal (@rev N)) in H. rewrite rev_involutive, rev_app_distr in H.
simpl in H. eapply lstrip_head. exact H.
Qed.

(** Stripping only removes whitespace, from both ends. *)
Lemma strip_split (s : pystr) :
exists l r, s = l ++ strip s ++ r
  /\ forallb is_space l = true /\ forallb is_space r = true.
Proof.
destruct (lstrip_split s) as (l & Hl & Hls).
destruct (rstrip_split (lstrip s)) as (r & Hr & Hrs).
exists l, r. unfold strip. rewrite <- Hr. auto.
Qed.

Lemma lstrip_suffix_head (s : pystr) : forall c t,
rstrip s = c :: t -> exists t', s = c :: t'.
Proof.
intros c t H. destruct (rstrip_split s) as (r & Hr & _).
rewrite H in Hr. simpl in Hr. eauto.
Qed.

(** What is left neither starts nor ends with whitespace. *)
Lemma strip_ends (s : pystr) :
(forall c t, strip s = c :: t -> is_space c = false)
/\ (forall t c, strip s = t ++ [c] -> is_space c = false).
Proof.
split.
- intros c t H. unfold strip in H.
  destruct (lstrip_suffix_head _ _ _ H) as (t' & Ht').
  eapply lstrip_head. exact Ht'.
- intros t c H. eapply rstrip_last. exact H.
Qed.

Lemma rfind_from_absent c (s : pystr) : forall i last,
c ∉ s -> rfind_from c s i last = last.
Proof.
induction s as [|a r IH]; intros i last Hc; simpl; [reflexivity|].
rewrite IH by (intros ?; apply Hc; by right).
destruct (N.eqb_spec a c) as [->|_]; [|reflexivity].
exfalso. apply Hc. by left.
Qed.

Lemma rfind_from_last c (a b : pystr) : forall i last,
c ∉ b -> rfind_from c (a ++ c :: b) i last = i + Z.of_nat (length a).
Proof.
induction a as [|x a IH]; intros i last Hc; simpl.
- rewrite N.eqb_refl, rfind_from_absent by exact Hc. lia.
- rewrite IH by exact Hc. lia.
Qed.

Lemma basename_plain (p : pystr) : sep ∉ p -> OsPath.basename p = p.
Proof.
intros H. unfold OsPath.basename, rfind, slice_from.
rewrite rfind_from_absent by exact H. reflexivity.
Qed.

(** The directory part of a path is dropped. *)
Lemma basename_app (dir name : pystr) :
sep ∉ name -> OsPath.basename (dir ++ sep :: name) = name.
Proof.
intros H. unfold OsPath.basename, rfind, slice_from.
rewrite rfind_from_last by exact H.
replace (Z.to_nat (0 + Z.of_nat (length dir) + 1)) with (length dir + 1)%nat by lia.
rewrite <- drop_drop, drop_app_length. reflexivity.
Qed.

Lemma basename_no_sep (p : pystr) : sep ∉ OsPath.basename p.
Proof.
destruct (decide (sep ∈ p)) as [Hin|Hout].
- apply list_elem_of_split_r in Hin as (a & b & -> & Hb).
  rewrite basename_app by exact Hb. exact Hb.
- rewrite basename_plain by exact Hout. exact Hout.
Qed.

End StringFacts.

(** ** The formatter *)

Module FormatterFacts.
Import Formatter PyFloat Vocabulary.

Ltac res_simpl := unfold mbind, res_bind, rbind in *; simpl in *.

Lemma dict_get_nonempty key (d : list (pystr * value)) v :
  dict_get key d = Some v -> truthy (VDict d) = true.
Proof. destruct d; [discriminate | reflexivity]. Qed.

Lemma format_segment_record (seg : value) (s : segment_data) :
  is_segment seg s -> format_segment seg = Ok (record_of s).
Proof.
  intros (d & -> & Hs & He & Ht).
  unfold format_segment, py_getitem. res_simpl.
  rewrite Hs. simpl. rewrite He. simpl. rewrite Ht. reflexivity.
Qed.

(** The loop appends one record per segment, in order. *)
Lemma format_loop_records (segs : list value) (fields : list segment_data) :
  Forall2 is_segment segs fields ->
  forall acc, format_loop segs acc = Ok (acc ++ map record_of fields).
Proof.
  induction 1 as [|seg s segs fields Hseg _ IH]; intros acc; simpl.
  - by rewrite app_nil_r.
  - res_simpl. rewrite (format_segment_record _ _ Hseg).
    rewrite IH, <- app_assoc. reflexivity.
Qed.

(** C1: for a result that holds a list of N segments under [segments], each
    with a float [start], a float [end] and a string [text], [format_output]
    returns exactly N records in the order of the segments, and the i-th
    record holds the i-th segment's times rounded to two decimals and its text
    stripped of leading and trailing whitespace; the text ["  hello world  "]
    gives the sentence ["hello world"]. *)
Theorem format_output_records
    (d : list (pystr * value)) (segs : list value) (fields : list segment_data) :
  dict_get (py "segments") d = Some (VList segs) ->
  Forall2 is_segment segs fields ->
  format_output (VDict d) = Ok (VList (map record_of fields))
  /\ length (map record_of fields) = length segs
  /\ (forall i s, fields !! i = Some s ->
        map record_of fields !! i
        = Some (record (float_round (seg_start s) 2) (float_round (seg_end s) 2)
                       (strip (seg_text s))))
  /\ strip (py "  hello world  ") = py "hello world".
Proof.
  intros Hd Hsegs. repeat split.
  - unfold format_output.
    rewrite (dict_get_nonempty _ _ _ Hd). simpl.
    unfold py_not_in, py_contains, py_getitem. res_simpl. rewrite Hd. simpl.
    rewrite (format_loop_records _ _ Hsegs). reflexivity.
  - rewrite length_map. symmetry. eapply Forall2_length. exact Hsegs.
  - intros i s Hi. rewrite list_lookup_fmap, Hi. reflexivity.
Qed.

Lemma format_output_records_witness :
  format_output (VDict hello_segments)
  = Ok (VList [record 0 1.24 (py "hello world"); record 1.24 2.5 (py "bye")]).
Proof.
  refine (proj1 (format_output_records hello_segments _
    [ {| seg_start := 0; seg_end := 1.236; seg_text := py "  hello world  " |};
      {| seg_start := 1.236; seg_end := 2.5; seg_text := py " bye" |} ] _ _)).
  - reflexivity.
  - repeat constructor; eexists; repeat split; reflexivity.
Defined.

(** C2 (as amended): on an input that is empty or absent ([None], an empty
    mapping, any falsy value), and on an input in which ['segments' in x] is
    false (a mapping without that key), [format_output] returns the empty
    list without raising, and that list is serialised as [[]]. *)
Theorem format_output_empty (v : value) :
  truthy v = false \/ py_contains (py "segments") v = Ok false ->
  format_output v = Ok (VList []) /\ Json.dumps (VList []) = py "[]".
Proof.
  intros H. split; [|reflexivity].
  unfold format_output. destruct (truthy v) eqn:Ht; simpl.
  - destruct H as [H|H]; [discriminate|].
    unfold py_not_in. res_simpl. rewrite H. reflexivity.
  - reflexivity.
Qed.

Lemma format_output_empty_witness :
  (format_output VNone = Ok (VList []) /\ Json.dumps (VList []) = py "[]")
  /\ (format_output (VDict [(py "text", VStr (py "hi"))]) = Ok (VList [])
      /\ Json.dumps (VList []) = py "[]").
Proof.
  split.
  - apply (format_output_empty VNone). left. reflexivity.
  - apply (format_output_empty (VDict [(py "text", VStr (py "hi"))])). right. reflexivity.
Defined.

(** C2 (as stated) fails: a malformed result, here one whose [segments] entry
    is [None], or one whose segment lacks [text], makes [format_output] raise
    instead of returning the empty list. *)
Lemma format_output_malformed_raises :
  well_formed (VDict [(py "segments", VNone)]) = false
  /\ format_output (VDict [(py "segments", VNone)]) = Raise TypeError
  /\ format_output (VDict [(py "segments", VNone)]) <> Ok (VList [])
  /\ well_formed (VDict [(py "segments", VList [VDict [(py "start", VFloat 0)]])]) = false
  /\ format_output (VDict [(py "segments", VList [VDict [(py "start", VFloat 0)]])])
     = Raise KeyError.
Proof. repeat split; try reflexivity. discriminate. Qed.

Lemma round_half_even_nearest (n d : Z) :
  0 <= n -> 0 < d ->
  2 * Z.abs (n - round_half_even n d * d) <= d
  /\ (2 * Z.abs (n - round_half_even n d * d) = d -> Z.even (round_half_even n d) = true).
Proof.
  intros Hn Hd. unfold round_half_even.
  pose proof (Z.div_mod n d ltac:(lia)) as Hdm.
  pose proof (Z.mod_pos_bound n d Hd) as Hm.
  destruct (Z.compare_spec (2 * (n mod d)) d) as [Heq|Hlt|Hgt].
  - destruct (Z.even (n / d)) eqn:Hev.
    + split; [lia | auto].
    + split; [lia|]. intros _. rewrite Z.even_add, Hev. reflexivity.
  - split; lia.
  - split; lia.
Qed.

(** On a finite float with a fractional part, [round] takes the exact value
    in hundredths to the nearest integer, ties to even, and returns the float
    nearest to that many hundredths. *)
Lemma float_round_finite (x : float) (s : bool) (m : positive) (e : Z) :
  Prim2SF x = S754_finite s m e -> e < 0 ->
  let q := round_half_even (Z.pos m * 100) (2 ^ (- e)) in
  float_round x 2
  = if q =? 0 then with_sign s zero else with_sign s (nearest_float q 100).
Proof.
  intros Hx He q. unfold float_round. rewrite Hx.
  destruct (Z.leb_spec 0 e); [lia|]. reflexivity.
Qed.

(** C7: rounding to two decimals is round-half-even on the exact value of
    the float (the hundredths are the nearest integer, and an exact tie goes
    to the even one); a segment with [start = 1.236] gets [1.24], and
    [1.005], which is stored slightly below, rounds to [1.0] (one of the two
    values the claim allows). *)
Theorem round_two_decimals :
  (forall (m : positive) (k : N),
      let n := Z.pos m * 100 in
      let d := 2 ^ Z.of_N k in
      2 * Z.abs (n - round_half_even n d * d) <= d
      /\ (2 * Z.abs (n - round_half_even n d * d) = d
          -> Z.even (round_half_even n d) = true))
  /\ float_round 1.236 2 = 1.24%float
  /\ (float_round 1.005 2 = 1.0%float \/ float_round 1.005 2 = 1.01%float)
  /\ format_output
       (VDict [(py "segments",
                VList [VDict [(py "start", VFloat 1.236); (py "end", VFloat 1.005);
                              (py "text", VStr (py "hi"))]])])
     = Ok (VList [record 1.24 1.0 (py "hi")]).
Proof.
  split; [|split; [|split]].
  - intros m k n d. apply round_half_even_nearest; subst n d; [lia|].
    apply Z.pow_pos_nonneg; lia.
  - vm_compute. reflexivity.
  - left. vm_compute. reflexivity.
  - vm_compute. reflexivity.
Qed.

End FormatterFacts.

(** ** Reasoning about statements *)

Module StmtLogic.
Import Vocabulary.

Ltac M_simpl :=
  unfold mbind, mret, M_bind, M_ret, bind, ret, raise, lift, get, modify in *; simpl in *.

Lemma run_bind {A B} (m : M A) (k : A -> M B) st a st' :
  m st = (Ok a, st') -> mbind k m st = k a st'.
Proof. intros H. M_simpl. rewrite H. reflexivity. Qed.

Lemma run_bind_raise {A B} (m : M A) (k : A -> M B) st e st' :
  m st = (Raise e, st') -> mbind k m st = (Raise e, st').
Proof. intros H. M_simpl. rewrite H. reflexivity. Qed.

Lemma run_get {B} (k : state -> M B) st : mbind k get st = k st st.
Proof. reflexivity. Qed.

(** [print] returns exactly when standard output takes the text. *)
Lemma print_ok text st st' :
  print text st = (Ok tt, st') ->
  stdout_accepts text = true /\ st' = log_event (EvPrint text) st.
Proof.
  unfold print. destruct (stdout_accepts text); [|discriminate].
  intros [= <-]. split; reflexivity.
Qed.

Lemma print_accepted text st :
  stdout_accepts text = true -> print text st = (Ok tt, log_event (EvPrint text) st).
Proof. unfold print. intros ->. reflexivity. Qed.

Lemma print_refused text st :
  stdout_accepts text = false -> print text st = (Raise UnicodeEncodeError, st).
Proof. unfold print. intros ->. reflexivity. Qed.

(** Printing a line and calling [sys.exit(1)] ends in [SystemExit(1)], or
    in [UnicodeEncodeError] when the line cannot be printed. *)
Lemma print_then_exit line st :
  (stdout_accepts line = true
   /\ (_ ← print line; Cli.sys_exit 1) st
      = (@Raise unit (SystemExit 1), log_event (EvPrint line) st))
  \/ (stdout_accepts line = false
      /\ (_ ← print line; Cli.sys_exit 1) st = (@Raise unit UnicodeEncodeError, st)).
Proof.
  destruct (stdout_accepts line) eqn:Ha; [left | right]; (split; [reflexivity|]).
  - rewrite (run_bind _ _ _ _ _ (print_accepted line st Ha)). reflexivity.
  - rewrite (run_bind_raise _ _ _ _ _ (print_refused line st Ha)). reflexivity.
Qed.

(** It does not end normally. *)
Lemma print_then_exit_raises line st :
  fst ((_ ← print line; @Cli.sys_exit unit 1) st) <> Ok tt.
Proof. destruct (print_then_exit line st) as [[_ ->] | [_ ->]]; discriminate. Qed.

Lemma run_lift {A B} (a : A) (k : A -> M B) st : mbind k (lift (Ok a)) st = k a st.
Proof. reflexivity. Qed.

Lemma bind_ok_inv {A B} (m : M A) (k : A -> M B) st b st' :
  mbind k m st = (Ok b, st') ->
  exists a st1, m st = (Ok a, st1) /\ k a st1 = (Ok b, st').
Proof.
  M_simpl. destruct (m st) as [[a|e] st1]; [eauto | discriminate].
Qed.

(** A guarded block that returns [True] was not left by an exception. *)
Lemma try_catch_true_inv (m : M bool) st st' :
  try_catch m (except_Exception (fun _ => ret false)) st = (Ok true, st') ->
  m st = (Ok true, st').
Proof.
  unfold try_catch, except_Exception. destruct (m st) as [[b|e] st1]; [auto|].
  destruct (is_Exception e); simpl; discriminate.
Qed.

Section Respects.
Context (R : relation state) `{!PreOrder R}.

Lemma respects_ret {A} (a : A) : respects R (ret a).
Proof. intros st. reflexivity. Qed.

Lemma respects_mret {A} (a : A) : respects R (mret a).
Proof. intros st. reflexivity. Qed.

Lemma respects_raise {A} (e : exn) : respects R (@raise A e).
Proof. intros st. reflexivity. Qed.

Lemma respects_lift {A} (r : res A) : respects R (lift r).
Proof. intros st. reflexivity. Qed.

Lemma respects_get : respects R get.
Proof. intros st. reflexivity. Qed.

Lemma respects_bind {A B} (m : M A) (k : A -> M B) :
  respects R m -> (forall a, respects R (k a)) -> respects R (mbind k m).
Proof.
  intros Hm Hk st. specialize (Hm st). M_simpl.
  destruct (m st) as [[a|e] st1]; simpl in *; [|exact Hm].
  etransitivity; [exact Hm | apply Hk].
Qed.

Lemma respects_try_catch {A} (m : M A) (handler : exn -> option (M A)) :
  respects R m -> (forall e h, handler e = Some h -> respects R h) ->
  respects R (try_catch m handler).
Proof.
  intros Hm Hh st. specialize (Hm st). unfold try_catch.
  destruct (m st) as [[a|e] st1]; simpl in *; [exact Hm|].
  destruct (handler e) as [h|] eqn:He; simpl; [|exact Hm].
  etransitivity; [exact Hm | eapply Hh; exact He].
Qed.

Lemma respects_except_Exception {A} (m : M A) (h : exn -> M A) :
  respects R m -> (forall e, respects R (h e)) ->
  respects R (try_catch m (except_Exception h)).
Proof.
  intros Hm Hh. apply respects_try_catch; [exact Hm|].
  intros e h'. unfold except_Exception. destruct (is_Exception e); [|discriminate].
  intros [= <-]. apply Hh.
Qed.

Lemma respects_try_finally {A} (m : M A) (fin : M unit) :
  respects R m -> respects R fin -> respects R (try_finally m fin).
Proof.
  intros Hm Hf st. specialize (Hm st). unfold try_finally.
  destruct (m st) as [r st1]; simpl in *. specialize (Hf st1).
  destruct (fin st1) as [[[]|e] st2]; simpl in *; etransitivity; eauto.
Qed.

Lemma respects_format_output (v : value) : respects R (Transcriber.format_output v).
Proof. apply respects_lift. Qed.
End Respects.

(** *** The events a statement adds *)

#[export] Instance adds_preorder Q : PreOrder (adds Q).
Proof.
  split.
  - intros st. exists []. split; [by rewrite app_nil_r | constructor].
  - intros a b c (e1 & H1 & Q1) (e2 & H2 & Q2). exists (e1 ++ e2). split.
    + rewrite H2, H1, app_assoc. reflexivity.
    + apply Forall_app. auto.
Qed.

Lemma adds_same_trace Q st st' : trace st' = trace st -> adds Q st st'.
Proof. intros H. exists []. split; [by rewrite app_nil_r | constructor]. Qed.


Ltac quiet := solve [apply adds_same_trace; reflexivity].

Section Adds.
Context (E : env) (Q : event -> Prop).

Lemma adds_subprocess_run cmd : Q (EvRun cmd) -> respects (adds Q) (subprocess_run E cmd).
Proof.
  intros HQ st. unfold subprocess_run.
  assert (adds Q st (log_event (EvRun cmd)
            (set_fs (ext_apply (created (run_process E cmd (fs st)))) st))) as Hadd.
  { exists [EvRun cmd]. split; [reflexivity | by constructor]. }
  destruct (status _); [destruct (_ =? _)|..]; exact Hadd.
Qed.

Lemma adds_write_text path text :
  Q (EvOpen path) ->
  (forall data, Json.utf8_encode text = Some data -> Q (EvWrite path data)) ->
  respects (adds Q) (write_text path text).
Proof.
  intros HO HW st. unfold write_text.
  destruct (eqb_str path []); [quiet|].
  destruct (trailing_sep path); [quiet|].
  destruct (is_dir _ _); [quiet|].
  destruct (negb _); [quiet|].
  destruct (Json.utf8_encode text) as [data|] eqn:Henc; simpl.
  - exists [EvOpen path; EvWrite path data]. split.
    + simpl. rewrite <- app_assoc. reflexivity.
    + repeat constructor; auto.
  - exists [EvOpen path]. split; [reflexivity | by constructor].
Qed.

Lemma adds_print text : Q (EvPrint text) -> respects (adds Q) (print text).
Proof.
  intros HQ st. unfold print. destruct (stdout_accepts text); [|quiet].
  exists [EvPrint text]. split; [reflexivity | by constructor].
Qed.

Lemma adds_modify_fs_self (f : state -> state) :
  (forall st, trace (f st) = trace st) -> respects (adds Q) (modify f).
Proof. intros H st. apply adds_same_trace. apply H. Qed.

Lemma adds_makedirs p : respects (adds Q) (makedirs p).
Proof.
  intros st. unfold makedirs. destruct (eqb_str p []); [quiet|].
  destruct (mkdir_chain _ _); quiet.
Qed.

Lemma adds_rmtree d : respects (adds Q) (rmtree d).
Proof.
  intros st. unfold rmtree. destruct (fs st !! d) as [[]|]; quiet.
Qed.

Lemma adds_rename a b : respects (adds Q) (rename a b).
Proof.
  intros st. unfold rename.
  repeat (match goal with
          | |- context [if ?c then _ else _] => destruct c
          | |- context [match ?o with Some _ => _ | None => _ end] => destruct o
          | |- context [match ?n with File _ => _ | Dir => _ end] => destruct n
          end; try quiet).
Qed.

Lemma adds_mkdtemp : respects (adds Q) (mkdtemp E).
Proof.
  intros st. unfold mkdtemp. destruct (eqb_str _ _); [quiet|].
  destruct (fs st !! _); quiet.
Qed.

Lemma adds_whisper_call path : respects (adds Q) (whisper_call E path).
Proof.
  intros st. unfold whisper_call. destruct (whisper_installed E); [|quiet].
  destruct (whisper_transcribe _ _ _ _); quiet.
Qed.

Lemma adds_unless_exists p m :
  respects (adds Q) m -> respects (adds Q) (Transcriber.unless_exists p m).
Proof.
  intros Hm. unfold Transcriber.unless_exists.
  apply respects_bind; [apply _ | apply respects_get; apply _ |].
  intros st. destruct (path_exists _ _); [apply respects_ret; apply _ | exact Hm].
Qed.

Lemma adds_cleanup : respects (adds Q) Transcriber.cleanup.
Proof.
  unfold Transcriber.cleanup.
  apply respects_bind; [apply _ | apply respects_get; apply _ |].
  intros st. destruct (temp_dir (self st)) as [d|]; [|apply respects_ret; apply _].
  destruct (_ && _); [apply adds_rmtree | apply respects_ret; apply _].
Qed.

Lemma adds_transcribe_audio path : respects (adds Q) (Transcriber.transcribe_audio E path).
Proof.
  unfold Transcriber.transcribe_audio.
  apply respects_except_Exception; [apply _ | apply adds_whisper_call |].
  intros _. apply respects_ret; apply _.
Qed.

Lemma adds_transcribe_local_audio path :
  respects (adds Q) (Transcriber.transcribe_local_audio E path).
Proof.
  unfold Transcriber.transcribe_local_audio.
  apply respects_bind; [apply _ | apply respects_get; apply _ |].
  intros st. destruct (negb _); [apply respects_ret; apply _ | apply adds_transcribe_audio].
Qed.
End Adds.

End StmtLogic.

(** ** The temporary-audio workflow *)

Module TempWorkflow.
Import Vocabulary StmtLogic Transcriber.

#[export] Instance keeps_preorder d : PreOrder (keeps d).
Proof.
  split.
  - intros st. split; auto.
  - intros a b c [H1 S1] [H2 S2]. split; [auto | congruence].
Qed.

Lemma ext_create_dir (f : filesystem) pc d :
  f !! d = Some Dir -> ext_create f pc !! d = Some Dir.
Proof.
  intros Hd. unfold ext_create.
  destruct (eqb_str pc.1 [] || is_dir f pc.1) eqn:Hc; [exact Hd|].
  apply orb_false_elim in Hc as [_ Hc].
  rewrite lookup_insert_ne; [exact Hd|].
  intros Heq. unfold is_dir in Hc. rewrite Heq, Hd in Hc. discriminate.
Qed.

Lemma ext_apply_dir l : forall (f : filesystem) d,
  f !! d = Some Dir -> ext_apply l f !! d = Some Dir.
Proof.
  unfold ext_apply. induction l as [|pc l IH]; intros f d Hd; simpl; [exact Hd|].
  apply IH. apply ext_create_dir. exact Hd.
Qed.

Section Keeps.
Context (E : env) (d : pystr).

Lemma keeps_subprocess_run cmd : respects (keeps d) (subprocess_run E cmd).
Proof.
  intros st. unfold subprocess_run.
  assert (keeps d st (log_event (EvRun cmd)
            (set_fs (ext_apply (created (run_process E cmd (fs st)))) st))) as Hk.
  { split; [|reflexivity]. simpl. apply ext_apply_dir. }
  destruct (status _); [destruct (_ =? _)|..]; exact Hk.
Qed.

Lemma keeps_write_text path text : respects (keeps d) (write_text path text).
Proof.
  intros st. unfold write_text.
  destruct (eqb_str path []); [reflexivity|].
  destruct (trailing_sep path); [reflexivity|].
  destruct (is_dir (fs st) path) eqn:Hdir; [reflexivity|].
  destruct (negb _); [reflexivity|].
  assert (fs st !! d = Some Dir -> path <> d) as Hne.
  { intros Hd ->. unfold is_dir in Hdir. rewrite Hd in Hdir. discriminate. }
  destruct (Json.utf8_encode text); simpl; (split; [|reflexivity]); simpl; intros Hd.
  - rewrite !lookup_insert_ne by auto. exact Hd.
  - rewrite lookup_insert_ne by auto. exact Hd.
Qed.

Lemma keeps_print text : respects (keeps d) (print text).
Proof.
  intros st. unfold print. destruct (stdout_accepts text); [|reflexivity].
  split; [auto | reflexivity].
Qed.

Lemma keeps_whisper_call path : respects (keeps d) (whisper_call E path).
Proof.
  intros st. unfold whisper_call. destruct (whisper_installed E); [|reflexivity].
  destruct (whisper_transcribe _ _ _ _); reflexivity.
Qed.

Ltac rstep :=
  first [ apply respects_ret | apply respects_mret | apply respects_get
        | apply respects_lift | apply respects_format_output
        | apply keeps_subprocess_run | apply keeps_write_text
        | apply keeps_print | apply keeps_whisper_call
        | apply respects_bind; [| |intros ?]
        | apply respects_except_Exception; [| |intros ?] ];
  try apply _.

Lemma keeps_download_audio url p : respects (keeps d) (download_audio E url p).
Proof. unfold download_audio. repeat rstep. Qed.

Lemma keeps_transcribe_audio p : respects (keeps d) (transcribe_audio E p).
Proof. unfold transcribe_audio. repeat rstep. Qed.

Lemma keeps_output_results v out : respects (keeps d) (output_results v out).
Proof.
  unfold output_results. destruct out as [path|]; [destruct (given _)|]; rstep.
Qed.

Lemma keeps_process_video_body d' url out :
  respects (keeps d) (process_video_body E d' url out).
Proof.
  unfold process_video_body.
  rstep; [apply keeps_download_audio|].
  destruct (negb a); [rstep|].
  rstep; [rstep|].
  destruct (glob_audio _ _); [rstep|].
  rstep; [apply keeps_transcribe_audio|].
  destruct (negb _); [rstep|].
  rstep; [rstep|].
  rstep; [apply keeps_output_results | rstep].
Qed.
End Keeps.

(** [rmtree] removes the directory. *)
Lemma rmtree_gone d st :
  fs st !! d = Some Dir ->
  rmtree d st = (Ok tt, set_fs (filter (fun kv => inside d (fst kv) = false)) st)
  /\ path_exists (fs (set_fs (filter (fun kv => inside d (fst kv) = false)) st)) d = false.
Proof.
  intros Hd. unfold rmtree. rewrite Hd. split; [reflexivity|].
  unfold path_exists. simpl.
  rewrite map_lookup_filter_None_2; [reflexivity|].
  right. intros x _. simpl. unfold inside, eqb_str.
  rewrite bool_decide_eq_true_2 by reflexivity. discriminate.
Qed.

(** What a run of [process_video] amounts to once the temporary directory
    [d] is made: the guarded body, then the removal of [d]. *)
Lemma process_video_run E url out st d st0 :
  mkdtemp E st = (Ok d, st0) ->
  exists r st2,
    try_catch (process_video_body E d url out) (except_Exception (fun _ => ret false))
              (set_temp_dir (Some d) st0) = (r, st2)
    /\ fs st2 !! d = Some Dir
    /\ process_video E url out st
       = (r, set_fs (filter (fun kv => inside d (fst kv) = false)) st2).
Proof.
  intros Hmk.
  assert (d <> [] /\ fs st0 !! d = Some Dir) as [Hne Hd0].
  { unfold mkdtemp in Hmk.
    destruct (eqb_str (tmp_name E (fs st)) []) eqn:Hn; [discriminate|].
    destruct (fs st !! tmp_name E (fs st)); [discriminate|].
    injection Hmk as <- <-. split.
    - intros Heq. unfold eqb_str in Hn. rewrite bool_decide_eq_true_2 in Hn by exact Heq.
      discriminate.
    - simpl. apply lookup_insert_eq. }
  pose proof (respects_except_Exception (keeps d) _ (fun _ : exn => ret false)
                (keeps_process_video_body E d d url out)
                (fun _ => respects_ret (keeps d) false)
                (set_temp_dir (Some d) st0)) as [Hk Hself].
  destruct (try_catch _ _ (set_temp_dir (Some d) st0)) as [r st2] eqn:Hbody.
  simpl in Hk, Hself. specialize (Hk Hd0).
  exists r, st2. split; [reflexivity|]. split; [exact Hk|].
  unfold process_video. M_simpl. rewrite Hmk. simpl.
  unfold try_finally. rewrite Hbody.
  unfold cleanup. M_simpl. rewrite Hself. simpl.
  assert (eqb_str d [] = false) as ->.
  { unfold eqb_str. apply bool_decide_eq_false_2. exact Hne. }
  unfold path_exists. rewrite Hk. simpl.
  assert (eqb_str d [] = false) as ->.
  { unfold eqb_str. apply bool_decide_eq_false_2. exact Hne. }
  simpl. destruct (rmtree_gone d st2 Hk) as [-> _]. reflexivity.
Qed.

(** C3: whenever [process_video] has made its temporary directory, that
    directory does not exist any more when the call returns, whether the call
    returns [True] or [False] or is left by an exception or a user interrupt. *)
Theorem temp_dir_removed E url out st d st0 :
  mkdtemp E st = (Ok d, st0) ->
  path_exists (fs (snd (process_video E url out st))) d = false
  /\ temp_dir (self (snd (process_video E url out st))) = Some d.
Proof.
  intros Hmk.
  destruct (process_video_run E url out st d st0 Hmk) as (r & st2 & Hbody & Hd & ->).
  simpl. split; [apply rmtree_gone; exact Hd|].
  pose proof (respects_except_Exception (keeps d) _ (fun _ : exn => ret false)
                (keeps_process_video_body E d d url out)
                (fun _ => respects_ret (keeps d) false)
                (set_temp_dir (Some d) st0)) as [_ Hself].
  rewrite Hbody in Hself. simpl in Hself. rewrite Hself. reflexivity.
Qed.

End TempWorkflow.

(** ** Directories *)

Module DirFacts.
Import Vocabulary StmtLogic Transcriber.

Lemma ancestors_from_last (rest : pystr) : forall done,
  exists l, ancestors_from done rest = l ++ [done ++ rest].
Proof.
  induction rest as [|c r IH]; intros done; simpl.
  - exists []. by rewrite app_nil_r.
  - destruct (IH (done ++ [c])) as (l & ->).
    exists ((if (c =? sep)%N && negb (eqb_str done []) then [done] else []) ++ l).
    rewrite <- !app_assoc. reflexivity.
Qed.

Lemma mkdir_chain_keeps l : forall (f f' : filesystem) q n,
  mkdir_chain l f = Ok f' -> f !! q = Some n -> f' !! q = Some n.
Proof.
  induction l as [|p l IH]; intros f f' q n; simpl.
  - intros [= <-]. auto.
  - destruct (f !! p) as [[]|] eqn:Hp; [discriminate | apply IH |].
    intros Hc Hq. eapply IH; [exact Hc|].
    rewrite lookup_insert_ne; [exact Hq|]. intros ->. congruence.
Qed.

Lemma mkdir_chain_last l p : forall (f f' : filesystem),
  mkdir_chain (l ++ [p]) f = Ok f' -> f' !! p = Some Dir.
Proof.
  induction l as [|a l IH]; intros f f'; simpl.
  - destruct (f !! p) as [[]|] eqn:Hp; [discriminate | |].
    + intros [= <-]. exact Hp.
    + intros [= <-]. apply lookup_insert_eq.
  - destruct (f !! a) as [[]|]; [|apply IH..].
    destruct (l ++ [p]); discriminate.
Qed.

(** A successful [makedirs] leaves the directory in place and keeps what was
    there. *)
Lemma makedirs_ok p st st' :
  makedirs p st = (Ok tt, st') ->
  path_exists (fs st') p = true
  /\ forall q, path_exists (fs st) q = true -> path_exists (fs st') q = true.
Proof.
  unfold makedirs. destruct (eqb_str p []) eqn:Hp; [discriminate|].
  destruct (mkdir_chain _ _) as [f'|] eqn:Hc; [|discriminate].
  intros [= <-]. simpl. split.
  - destruct (ancestors_from_last p []) as (l & Hl). rewrite Hl in Hc.
    apply mkdir_chain_last in Hc. unfold path_exists. simpl in Hc. rewrite Hc, Hp.
    reflexivity.
  - intros q. unfold path_exists. destruct (fs st !! q) as [n|] eqn:Hq; [|discriminate].
    rewrite (mkdir_chain_keeps _ _ _ _ _ Hc Hq). auto.
Qed.

Lemma unless_exists_makedirs_ok p st st' :
  unless_exists p (makedirs p) st = (Ok tt, st') ->
  path_exists (fs st') p = true
  /\ forall q, path_exists (fs st) q = true -> path_exists (fs st') q = true.
Proof.
  unfold unless_exists. rewrite run_get.
  destruct (path_exists (fs st) p) eqn:Hp.
  - intros [= <-]. auto.
  - apply makedirs_ok.
Qed.

(** The directory part of [a/name], for a directory [a] that does not end
    with a separator and a name without one. *)
Lemma dirname_join (a name : pystr) (c : N) (a' : pystr) :
  a = a' ++ [c] -> c <> sep -> sep ∉ name ->
  OsPath.join a name = a ++ sep :: name /\ OsPath.dirname (a ++ sep :: name) = a.
Proof.
  intros Ha Hc Hname. split.
  - unfold OsPath.join.
    assert (startswith [sep] name = false) as ->.
    { destruct name as [|x name]; [reflexivity|]. cbn [startswith].
      destruct (N.eqb_spec sep x) as [<-|]; [|reflexivity].
      exfalso. apply Hname. left. }
    assert (eqb_str a [] = false) as ->.
    { unfold eqb_str. apply bool_decide_eq_false_2. subst a. destruct a'; discriminate. }
    assert (endswith [sep] a = false) as ->; [|reflexivity].
    unfold endswith. subst a. rewrite rev_app_distr. cbn [rev app startswith].
    destruct (N.eqb_spec sep c) as [<-|]; [contradiction | reflexivity].
  - unfold OsPath.dirname, rfind, slice_to.
    rewrite rfind_from_last by exact Hname.
    replace (Z.to_nat (0 + Z.of_nat (length a) + 1)) with (length a + 1)%nat by lia.
    assert (take (length a + 1) (a ++ sep :: name) = a ++ [sep]) as ->.
    { replace (length a + 1)%nat with (length (a ++ [sep])).
      - change (a ++ sep :: name) with (a ++ [sep] ++ name).
        rewrite app_assoc. apply take_app_length.
      - rewrite length_app. reflexivity. }
    assert (eqb_str (a ++ [sep]) [] = false) as ->.
    { unfold eqb_str. apply bool_decide_eq_false_2. destruct a; discriminate. }
    assert (OsPath.all_sep (a ++ [sep]) = false) as ->.
    { unfold OsPath.all_sep. subst a. rewrite !forallb_app. cbn [forallb].
      destruct (N.eqb_spec c sep); [contradiction|].
      rewrite andb_false_r. reflexivity. }
    cbn [negb andb]. rewrite rev_app_distr. cbn [rev app OsPath.rstrip_sep_rev].
    rewrite N.eqb_refl.
    subst a. rewrite rev_app_distr. cbn [rev app OsPath.rstrip_sep_rev].
    destruct (N.eqb_spec c sep); [contradiction|].
    change (c :: rev a') with (rev [c] ++ rev a').
    rewrite <- rev_app_distr. apply rev_involutive.
Qed.

Lemma join_ends (a b b' : pystr) (c : N) :
  b = b' ++ [c] -> exists x, OsPath.join a b = x ++ [c].
Proof.
  intros ->. unfold OsPath.join.
  destruct (startswith [sep] (b' ++ [c])); [eauto|].
  destruct (_ || _).
  - exists (a ++ b'). by rewrite <- app_assoc.
  - exists (a ++ [sep] ++ b'). by rewrite <- !app_assoc.
Qed.

Section Paths.
Context (E : env).

(** When the saved-audio workflow has settled its paths, the directory of
    the audio file is [audio/] under the working directory, and it exists. *)
Lemma audio_save_paths_dir p out st ap jp st1 :
  audio_save_paths E p out st = (Ok (ap, jp), st1) ->
  OsPath.dirname ap = OsPath.join (cwd E) (py "audio")
  /\ path_exists (fs st1) (OsPath.dirname ap) = true.
Proof.
  unfold audio_save_paths. intros H.
  apply bind_ok_inv in H as ([] & st0 & Hmk & H).
  apply unless_exists_makedirs_ok in Hmk as [Hex Hkeep0].
  destruct (join_ends (cwd E) (py "audio") (py "audi") 0x6F%N eq_refl) as (x & Hx).
  destruct (dirname_join _ (OsPath.basename p) _ _ Hx ltac:(discriminate)
              (basename_no_sep p)) as [Hj Hd].
  assert (ap = OsPath.join (OsPath.join (cwd E) (py "audio")) (OsPath.basename p)
          /\ forall q, path_exists (fs st0) q = true -> path_exists (fs st1) q = true)
    as [-> Hkeep].
  { destruct out as [name|]; [destruct (given (Some name))|].
    - apply bind_ok_inv in H as ([] & st0' & Hmk' & H).
      apply unless_exists_makedirs_ok in Hmk' as [_ Hk]. injection H as <- _ <-. auto.
    - injection H as <- _ <-. auto.
    - injection H as <- _ <-. auto. }
  rewrite Hj, Hd. split; [reflexivity|]. apply Hkeep. exact Hex.
Qed.
End Paths.

End DirFacts.

(** ** Adapter failures *)

Module FailureFacts.
Import Vocabulary StmtLogic Transcriber TempWorkflow DirFacts.

Section Failures.
Context (E : env).

Lemma adds_download_audio Q url p :
  Q (EvRun (download_cmd url p)) -> respects (adds Q) (download_audio E url p).
Proof.
  intros HQ. unfold download_audio.
  apply respects_except_Exception; [apply _ | | intros _; apply respects_ret; apply _].
  apply respects_bind; [apply _ | apply adds_subprocess_run; exact HQ |].
  intros _. apply respects_ret; apply _.
Qed.

Lemma adds_extract_audio_to_file Q url ap fmt :
  Q (EvRun (extract_cmd url (fst (OsPath.splitext ap)) fmt)) ->
  respects (adds Q) (extract_audio_to_file E url ap fmt).
Proof.
  intros HQ. unfold extract_audio_to_file.
  apply respects_except_Exception; [apply _ | | intros _; apply respects_ret; apply _].
  apply respects_bind; [apply _ | |].
  { destruct (negb _); [|apply respects_ret; apply _].
    apply adds_unless_exists. apply adds_makedirs. }
  intros _. apply respects_bind; [apply _ | apply adds_subprocess_run; exact HQ |].
  intros _. apply respects_bind; [apply _ | apply respects_get; apply _ |].
  intros st. destruct (path_exists _ _); [|apply respects_ret; apply _].
  apply respects_bind; [apply _ | | intros _; apply respects_ret; apply _].
  destruct (negb _); [apply adds_rename | apply respects_ret; apply _].
Qed.

Lemma adds_audio_save_paths Q p out : respects (adds Q) (audio_save_paths E p out).
Proof.
  unfold audio_save_paths.
  apply respects_bind; [apply _ | apply adds_unless_exists; apply adds_makedirs |].
  intros _. destruct out as [name|]; [|apply respects_ret; apply _].
  destruct (given _); [|apply respects_ret; apply _].
  apply respects_bind; [apply _ | apply adds_unless_exists; apply adds_makedirs |].
  intros _. apply respects_ret; apply _.
Qed.

(** A non-zero exit of the downloader makes [download_audio] return [False]. *)
Lemma download_audio_nonzero url p st c :
  status (run_process E (download_cmd url p) (fs st)) = Exited c -> c <> 0 ->
  exists st2, download_audio E url p st = (Ok false, st2).
Proof.
  intros Hs Hc. unfold download_audio, try_catch, subprocess_run. M_simpl.
  rewrite Hs. destruct (Z.eqb_spec c 0); [contradiction|]. simpl. eauto.
Qed.

(** A missing library or a failing recogniser makes [transcribe_audio]
    return [None]. *)
Lemma transcribe_audio_none p st :
  whisper_installed E = false
  \/ whisper_transcribe E (model_size (self st)) p (fs st) = TranscribeFailed ->
  transcribe_audio E p st = (Ok VNone, st).
Proof.
  intros H. unfold transcribe_audio, try_catch, whisper_call.
  destruct (whisper_installed E); [|reflexivity].
  destruct H as [H|H]; [discriminate|]. rewrite H. reflexivity.
Qed.

(** A non-zero exit of the downloader, or the expected file missing after
    it, makes [extract_audio_to_file] return [False]. *)
Lemma extract_audio_to_file_fails url ap fmt st :
  let base_path := fst (OsPath.splitext ap) in
  let r := run_process E (extract_cmd url base_path fmt) (fs st) in
  OsPath.dirname ap = [] \/ path_exists (fs st) (OsPath.dirname ap) = true ->
  (exists c, status r = Exited c /\ c <> 0)
  \/ (status r = Exited 0
      /\ path_exists (ext_apply (created r) (fs st)) (base_path ++ py "." ++ fmt) = false) ->
  exists st2, extract_audio_to_file E url ap fmt st = (Ok false, st2).
Proof.
  intros base_path r Hdir Hfail.
  unfold extract_audio_to_file, try_catch.
  erewrite run_bind; cycle 1.
  { instantiate (1 := st). instantiate (1 := tt).
    destruct Hdir as [-> | Hex]; [reflexivity|].
    destruct (negb _); [|reflexivity].
    unfold unless_exists. rewrite run_get, Hex. reflexivity. }
  fold base_path. unfold subprocess_run. M_simpl. fold r.
  destruct Hfail as [(c & Hs & Hc) | (Hs & Habs)]; rewrite Hs.
  - destruct (Z.eqb_spec c 0); [contradiction|]. simpl. eauto.
  - simpl. rewrite Habs. eauto.
Qed.

Lemma is_run_download url p : is_run (EvRun (download_cmd url p)).
Proof. exact I. Qed.

Lemma temp_failure_body url d out st1 :
  temp_adapter_failure E url d st1 ->
  exists st2, process_video_body E d url out st1 = (Ok false, st2)
              /\ adds is_run st1 st2.
Proof.
  pose proof (adds_download_audio is_run url (OsPath.join d (py "audio.%(ext)s"))
                (is_run_download _ _) st1) as Hdl.
  intros [st2 Hd | st2 Hd Hg | st2 p rest v st3 Hd Hg Ht Hv];
    unfold process_video_body; M_simpl; rewrite Hd in *; simpl in *.
  - eauto.
  - rewrite Hg. eauto.
  - rewrite Hg, Ht. simpl. rewrite Hv. simpl. exists st3. split; [reflexivity|].
    etransitivity; [exact Hdl|].
    pose proof (adds_transcribe_audio E is_run p st2) as Ha.
    rewrite Ht in Ha. exact Ha.
Qed.

Lemma saved_failure_steps url ap jp fmt st1 :
  saved_adapter_failure E url ap fmt st1 ->
  exists st2, audio_save_steps E url ap jp fmt st1 = (Ok false, st2)
              /\ adds is_run st1 st2.
Proof.
  pose proof (adds_extract_audio_to_file is_run url ap fmt I st1) as Hex.
  intros [st2 He | st2 v st3 He Ht Hv];
    unfold audio_save_steps; M_simpl; rewrite He in *; simpl in *.
  - eauto.
  - rewrite Ht. simpl. rewrite Hv. simpl. exists st3. split; [reflexivity|].
    etransitivity; [exact Hex|].
    pose proof (adds_transcribe_local_audio E is_run ap st2) as Ha.
    rewrite Ht in Ha. exact Ha.
Qed.

(** C4: in both workflows an adapter failure (the downloader exits
    non-zero, the audio file it should have left is missing, or the
    recogniser gives no result, for instance because the library is not
    installed) makes the workflow return [False], and the run opens and
    writes no file and prints nothing: its only events are process launches. *)
Theorem adapter_failure_reports_failure (url : pystr) :
  (forall out st d st0,
      mkdtemp E st = (Ok d, st0) ->
      temp_adapter_failure E url d (set_temp_dir (Some d) st0) ->
      fst (process_video E url out st) = Ok false
      /\ adds is_run st (snd (process_video E url out st)))
  /\ (forall p out fmt st ap jp st1,
      audio_save_paths E p out st = (Ok (ap, jp), st1) ->
      saved_adapter_failure E url ap fmt st1 ->
      fst (process_video_with_audio_save E url p out fmt st) = Ok false
      /\ adds is_run st (snd (process_video_with_audio_save E url p out fmt st)))
  /\ (forall out st d st0 c,
      mkdtemp E st = (Ok d, st0) ->
      status (run_process E (download_cmd url (OsPath.join d (py "audio.%(ext)s"))) (fs st0))
        = Exited c ->
      c <> 0 ->
      fst (process_video E url out st) = Ok false
      /\ adds is_run st (snd (process_video E url out st)))
  /\ (forall p out fmt st ap jp st1,
      audio_save_paths E p out st = (Ok (ap, jp), st1) ->
      let base_path := fst (OsPath.splitext ap) in
      let r := run_process E (extract_cmd url base_path fmt) (fs st1) in
      (exists c, status r = Exited c /\ c <> 0)
      \/ (status r = Exited 0
          /\ path_exists (ext_apply (created r) (fs st1)) (base_path ++ py "." ++ fmt)
             = false) ->
      fst (process_video_with_audio_save E url p out fmt st) = Ok false
      /\ adds is_run st (snd (process_video_with_audio_save E url p out fmt st)))
  /\ (forall p st,
      whisper_installed E = false
      \/ whisper_transcribe E (model_size (self st)) p (fs st) = TranscribeFailed ->
      transcribe_audio E p st = (Ok VNone, st) /\ truthy VNone = false).
Proof.
  assert (forall out st d st0,
      mkdtemp E st = (Ok d, st0) ->
      temp_adapter_failure E url d (set_temp_dir (Some d) st0) ->
      fst (process_video E url out st) = Ok false
      /\ adds is_run st (snd (process_video E url out st))) as Htemp.
  { intros out st d st0 Hmk Hfail.
    destruct (process_video_run E url out st d st0 Hmk) as (r & st2 & Hbody & _ & ->).
    destruct (temp_failure_body url d out _ Hfail) as (st2' & Hb & Hadds).
    unfold try_catch in Hbody. rewrite Hb in Hbody. injection Hbody as <- <-.
    simpl. split; [reflexivity|].
    etransitivity; [|etransitivity; [exact Hadds|]].
    + pose proof (adds_mkdtemp E is_run st) as Hm. rewrite Hmk in Hm.
      etransitivity; [exact Hm|]. apply adds_same_trace. reflexivity.
    + apply adds_same_trace. reflexivity. }
  assert (forall p out fmt st ap jp st1,
      audio_save_paths E p out st = (Ok (ap, jp), st1) ->
      saved_adapter_failure E url ap fmt st1 ->
      fst (process_video_with_audio_save E url p out fmt st) = Ok false
      /\ adds is_run st (snd (process_video_with_audio_save E url p out fmt st))) as Hsaved.
  { intros p out fmt st ap jp st1 Hpaths Hfail.
    destruct (saved_failure_steps url ap jp fmt st1 Hfail) as (st2 & Hs & Hadds).
    unfold process_video_with_audio_save, try_catch. M_simpl.
    rewrite Hpaths. simpl. rewrite Hs. simpl. split; [reflexivity|].
    pose proof (adds_audio_save_paths is_run p out st) as Hp.
    rewrite Hpaths in Hp. etransitivity; [exact Hp | exact Hadds]. }
  split; [exact Htemp|]. split; [exact Hsaved|]. split; [|split].
  - intros out st d st0 c Hmk Hs Hc. apply (Htemp out st d st0 Hmk).
    destruct (download_audio_nonzero url (OsPath.join d (py "audio.%(ext)s"))
                (set_temp_dir (Some d) st0) c Hs Hc) as (st2 & Hdl).
    eapply download_failed. exact Hdl.
  - intros p out fmt st ap jp st1 Hpaths base_path r Hraw.
    apply (Hsaved p out fmt st ap jp st1 Hpaths).
    destruct (DirFacts.audio_save_paths_dir E _ _ _ _ _ _ Hpaths) as [_ Hdir].
    destruct (extract_audio_to_file_fails url ap fmt st1 (or_intror Hdir) Hraw)
      as (st2 & Hex).
    eapply extract_failed. exact Hex.
  - intros p st H. split; [apply transcribe_audio_none; exact H | reflexivity].
Qed.
End Failures.

End FailureFacts.

(** ** The JSON text *)

Module JsonFacts.
Import Vocabulary Formatter Json.















(** ASCII text is encoded as itself. *)
Lemma utf8_encode_ascii (s : pystr) :
  Forall (fun x => (x < 0x80)%N) s -> utf8_encode s = Some s.
Proof.
  induction 1 as [|c s Hc _ IH]; simpl; [reflexivity|].
  unfold utf8_char. destruct (N.ltb_spec c 0x80); [|lia]. rewrite IH. reflexivity.
Qed.

End JsonFacts.

(** ** What the workflows launch, write and print *)

Module TraceFacts.
Import Vocabulary StmtLogic Transcriber TempWorkflow FailureFacts.

Section Traces.
Context (E : env).

Lemma adds_output_results Q formatted out :
  (forall path, out = Some path -> given out = true ->
      Q (EvOpen path)
      /\ forall data, Json.utf8_encode (Json.dumps formatted) = Some data ->
                      Q (EvWrite path data)) ->
  (given out = false -> Q (EvPrint (Json.dumps formatted))) ->
  respects (adds Q) (output_results formatted out).
Proof.
  intros Hw Hp. unfold output_results.
  destruct out as [path|]; [destruct (given (Some path)) eqn:Hg|].
  - destruct (Hw path eq_refl eq_refl) as [HO HW]. apply adds_write_text; auto.
  - apply adds_print. auto.
  - apply adds_print. auto.
Qed.

(** Formatting and output, for a non-empty result [tr] of the recogniser. *)
Lemma adds_workflow_tail cmd out tr :
  truthy tr = true ->
  respects (adds (workflow_event cmd out))
    (formatted_output ← format_output tr;
     _ ← output_results formatted_output out;
     ret true).
Proof.
  intros Htr st. unfold format_output.
  destruct (Formatter.format_output tr) as [formatted|e] eqn:Hf.
  - rewrite run_lift. revert st.
    apply respects_bind; [apply _ | | intros _; apply respects_ret; apply _].
    apply adds_output_results.
    + intros path -> Hg. split; [split; auto|].
      intros data Hd. simpl. repeat split; auto.
      exists (Json.dumps formatted). split; [|exact Hd].
      exists tr, formatted. auto.
    + intros Hg. simpl. split; [exact Hg|]. exists tr, formatted. auto.
  - apply adds_same_trace. reflexivity.
Qed.


Lemma adds_audio_save_steps url ap jp fmt :
  respects (adds (workflow_event (extract_cmd url (fst (OsPath.splitext ap)) fmt) jp))
           (audio_save_steps E url ap jp fmt).
Proof.
  unfold audio_save_steps.
  apply respects_bind; [apply _ | apply adds_extract_audio_to_file; reflexivity |].
  intros ok. destruct (negb ok); [apply respects_ret; apply _|].
  apply respects_bind; [apply _ | apply adds_transcribe_local_audio |].
  intros tr. destruct (truthy tr) eqn:Htr; simpl; [|apply respects_ret; apply _].
  apply adds_workflow_tail. exact Htr.
Qed.

Lemma mkdtemp_name st d st0 : mkdtemp E st = (Ok d, st0) -> d = tmp_name E (fs st).
Proof.
  unfold mkdtemp. destruct (eqb_str _ _); [discriminate|].
  destruct (fs st !! _); [discriminate|]. intros [= <- _]. reflexivity.
Qed.


(** The paths the saved-audio workflow settles on. *)
Lemma audio_save_paths_result p out st ap jp st1 :
  audio_save_paths E p out st = (Ok (ap, jp), st1) ->
  ap = audio_target E p /\ jp = json_target E out.
Proof.
  unfold audio_save_paths. intros H.
  apply bind_ok_inv in H as ([] & st0 & _ & H).
  unfold audio_target, json_target.
  destruct out as [name|]; [destruct (given (Some name))|].
  - apply bind_ok_inv in H as ([] & st0' & _ & H). injection H as <- <- _. auto.
  - injection H as <- <- _. auto.
  - injection H as <- <- _. auto.
Qed.

(** The events of a run of the saved-audio workflow. *)
Lemma saved_workflow_events url p out fmt st :
  adds (workflow_event
          (extract_cmd url (fst (OsPath.splitext (audio_target E p))) fmt)
          (json_target E out))
       st (snd (process_video_with_audio_save E url p out fmt st)).
Proof.
  unfold process_video_with_audio_save.
  set (Q := workflow_event _ _).
  apply respects_except_Exception; [apply _ | | intros _; apply respects_ret; apply _].
  intros st0.
  destruct (audio_save_paths E p out st0) as [[[ap jp]|e] st1] eqn:Hp.
  - rewrite (run_bind _ _ _ _ _ Hp). simpl.
    destruct (audio_save_paths_result _ _ _ _ _ _ Hp) as [-> ->].
    pose proof (adds_audio_save_paths E Q p out st0) as H1. rewrite Hp in H1.
    etransitivity; [exact H1|]. apply adds_audio_save_steps.
  - rewrite (run_bind_raise _ _ _ _ _ Hp).
    pose proof (adds_audio_save_paths E Q p out st0) as H1. rewrite Hp in H1. exact H1.
Qed.
End Traces.

End TraceFacts.

(** ** The saved-audio workflow *)

Module SavedWorkflow.
Import Vocabulary StmtLogic Transcriber TraceFacts.

Section Saved.
Context (E : env).

Lemma write_text_ok path text st st' :
  write_text path text st = (Ok tt, st') ->
  exists data,
    Json.utf8_encode text = Some data
    /\ trace st' = trace st ++ [EvOpen path; EvWrite path data]
    /\ fs st' = <[path := File data]> (<[path := File []]> (fs st)).
Proof.
  unfold write_text.
  destruct (eqb_str path []); [discriminate|].
  destruct (trailing_sep path); [discriminate|].
  destruct (is_dir _ _); [discriminate|].
  destruct (negb _); [discriminate|].
  destruct (Json.utf8_encode text) as [data|]; [|discriminate].
  intros [= <-]. exists data. split; [reflexivity|]. split; [|reflexivity].
  simpl. rewrite <- app_assoc. reflexivity.
Qed.

Lemma path_exists_insert (f : filesystem) path n q :
  path_exists f q = true -> path_exists (<[path := n]> f) q = true.
Proof.
  unfold path_exists. destruct (decide (path = q)) as [->|Hne].
  - rewrite lookup_insert_eq. destruct (f !! q); [auto | discriminate].
  - rewrite lookup_insert_ne by exact Hne. auto.
Qed.

(** A successful output step: what it appends and what it leaves alone. *)
Lemma output_results_ok formatted out st st' :
  output_results formatted out st = (Ok tt, st') ->
  (forall q, path_exists (fs st) q = true -> path_exists (fs st') q = true)
  /\ (forall path, out = Some path -> given out = true ->
        exists data,
          Json.utf8_encode (Json.dumps formatted) = Some data
          /\ trace st' = trace st ++ [EvOpen path; EvWrite path data]
          /\ fs st' !! path = Some (File data))
  /\ (given out = false -> trace st' = trace st ++ [EvPrint (Json.dumps formatted)]).
Proof.
  unfold output_results. intros H.
  assert (forall text st1, print text st = (Ok tt, st1) ->
            fs st1 = fs st /\ trace st1 = trace st ++ [EvPrint text]) as Hprint.
  { intros text st1 Hp. apply print_ok in Hp as [_ ->]. split; reflexivity. }
  destruct out as [path|]; [destruct (given (Some path)) eqn:Hg|].
  - apply write_text_ok in H as (data & Hd & Ht & Hf). repeat split.
    + intros q Hq. rewrite Hf. do 2 apply path_exists_insert. exact Hq.
    + intros path' [= <-] _. exists data. rewrite Hf, lookup_insert_eq. auto.
    + discriminate.
  - apply Hprint in H as [Hf Ht]. repeat split.
    + intros q. rewrite Hf. auto.
    + intros path' [= <-] Hg'. discriminate.
    + intros _. exact Ht.
  - apply Hprint in H as [Hf Ht]. repeat split.
    + intros q. rewrite Hf. auto.
    + discriminate.
    + intros _. exact Ht.
Qed.

Lemma transcribe_audio_state p st : snd (transcribe_audio E p st) = st.
Proof.
  unfold transcribe_audio, try_catch, whisper_call.
  destruct (whisper_installed E); [|reflexivity].
  destruct (whisper_transcribe _ _ _ _); reflexivity.
Qed.

(** A result of [transcribe_local_audio] that is not empty means the audio
    file was there, and nothing was changed. *)
Lemma transcribe_local_audio_truthy ap st v st' :
  transcribe_local_audio E ap st = (Ok v, st') ->
  truthy v = true ->
  path_exists (fs st) ap = true /\ st' = st.
Proof.
  unfold transcribe_local_audio. rewrite run_get.
  destruct (path_exists (fs st) ap); simpl.
  - intros H _. split; [reflexivity|].
    pose proof (transcribe_audio_state ap st) as Hs. rewrite H in Hs. exact Hs.
  - intros [= <- <-]. discriminate.
Qed.

Lemma join_nonempty (a b : pystr) : a <> [] \/ b <> [] -> OsPath.join a b <> [].
Proof.
  intros H. unfold OsPath.join.
  destruct (startswith [sep] b) eqn:Hs.
  - destruct b; [discriminate | discriminate].
  - destruct (_ || _); destruct a, b; try discriminate; destruct H; congruence.
Qed.

Lemma given_json_target out : given (json_target E out) = given out.
Proof.
  unfold json_target. destruct out as [name|]; [|reflexivity].
  destruct (given (Some name)) eqn:Hg; [|exact Hg].
  simpl. unfold eqb_str. rewrite bool_decide_eq_false_2; [reflexivity|].
  apply join_nonempty. left. apply join_nonempty. right. discriminate.
Qed.

(** The run of a successful saved-audio workflow: the audio file is at its
    target, and the formatted JSON went to the output. *)
Lemma saved_success url p out fmt st st' :
  process_video_with_audio_save E url p out fmt st = (Ok true, st') ->
  path_exists (fs st') (audio_target E p) = true
  /\ exists formatted st3,
       formatted_json (Json.dumps formatted)
       /\ output_results formatted (json_target E out) st3 = (Ok tt, st')
       /\ adds is_run st st3.
Proof.
  intros H. unfold process_video_with_audio_save in H.
  apply try_catch_true_inv in H.
  apply bind_ok_inv in H as ([ap jp] & st1 & Hp & H). simpl in H.
  destruct (audio_save_paths_result _ _ _ _ _ _ _ Hp) as [-> ->].
  unfold audio_save_steps in H.
  apply bind_ok_inv in H as (ok & st2 & Hex & H).
  destruct ok; simpl in H; [|discriminate].
  apply bind_ok_inv in H as (tr & st3 & Htr & H).
  destruct (truthy tr) eqn:Htruthy; simpl in H; [|discriminate].
  destruct (transcribe_local_audio_truthy _ _ _ _ Htr Htruthy) as [Hexists ->].
  apply bind_ok_inv in H as (formatted & st3' & Hf & H).
  unfold format_output, lift in Hf.
  injection Hf as Hf <-.
  apply bind_ok_inv in H as ([] & st4 & Hout & H).
  injection H as <-.
  destruct (output_results_ok _ _ _ _ Hout) as (Hkeep & _ & _).
  split; [apply Hkeep; exact Hexists|].
  exists formatted, st2. split; [|split; [exact Hout|]].
  - exists tr, formatted. auto.
  - pose proof (FailureFacts.adds_audio_save_paths E is_run p out st) as H1.
    rewrite Hp in H1. etransitivity; [exact H1|].
    pose proof (FailureFacts.adds_extract_audio_to_file E is_run url
                  (audio_target E p) fmt I st1) as H2.
    rewrite Hex in H2. exact H2.
Qed.

(** C5: after a successful saved-audio workflow the audio file exists under
    [audio/] in the working directory, under the name given ([x.wav] for the
    argument [x.wav]); with a JSON output name the JSON text is written under
    [result/] with that name, as the last thing the run does; without one
    the JSON text is printed and no file is opened or written. *)
Theorem saved_workflow_outputs url p out fmt st st' :
  process_video_with_audio_save E url p out fmt st = (Ok true, st') ->
  path_exists (fs st') (OsPath.join (OsPath.join (cwd E) (py "audio")) (OsPath.basename p))
    = true
  /\ OsPath.basename (py "x.wav") = py "x.wav"
  /\ (forall name, out = Some name -> given out = true ->
        let target := OsPath.join (OsPath.join (cwd E) (py "result")) (OsPath.basename name) in
        exists events text data,
          trace st' = trace st ++ events ++ [EvOpen target; EvWrite target data]
          /\ Forall is_run events
          /\ formatted_json text
          /\ Json.utf8_encode text = Some data
          /\ fs st' !! target = Some (File data))
  /\ (forall name, sep ∉ name -> OsPath.basename name = name)
  /\ (given out = false ->
        exists events text,
          trace st' = trace st ++ events ++ [EvPrint text]
          /\ Forall is_run events
          /\ formatted_json text).
Proof.
  intros H.
  destruct (saved_success _ _ _ _ _ _ H) as (Haudio & formatted & st3 & Hjson & Hout & Hruns).
  destruct Hruns as (events & Htrace & Hevents).
  destruct (output_results_ok _ _ _ _ Hout) as (_ & Hwrite & Hprint).
  split; [exact Haudio|]. split; [reflexivity|]. split; [|split].
  - intros name -> Hg target.
    destruct (Hwrite target) as (data & Hd & Ht & Hf).
    { unfold json_target. rewrite Hg. reflexivity. }
    { rewrite given_json_target. exact Hg. }
    exists events, (Json.dumps formatted), data.
    rewrite Ht, Htrace, <- app_assoc. auto.
  - apply basename_plain.
  - intros Hg. exists events, (Json.dumps formatted).
    rewrite Hprint by (rewrite given_json_target; exact Hg).
    rewrite Htrace, <- app_assoc. auto.
Qed.
End Saved.

End SavedWorkflow.

(** ** The persisted JSON and the output paths *)

Module OutputFacts.
Import Vocabulary StmtLogic Transcriber TraceFacts SavedWorkflow FormatterFacts JsonFacts.





End OutputFacts.

(** ** Exit codes *)

Module ExitFacts.
Import Vocabulary StmtLogic Transcriber Cli.

Lemma ordinary_not_exit e : ordinary e -> not_exit e.
Proof. destruct e; simpl; auto. discriminate. Qed.

Section Raises.
Context (P : exn -> Prop).

Lemma raises_ret {A} (a : A) : raises P (ret a).
Proof. intros st e st'. discriminate. Qed.

Lemma raises_get : raises P get.
Proof. intros st e st'. discriminate. Qed.

Lemma raises_modify f : raises P (modify f).
Proof. intros st e st'. discriminate. Qed.

Lemma raises_print text : P UnicodeEncodeError -> raises P (print text).
Proof.
  intros HP st e st'. unfold print. destruct (stdout_accepts text); [discriminate|].
  intros [= <- _]. exact HP.
Qed.

Lemma raises_bind {A B} (m : M A) (k : A -> M B) :
  raises P m -> (forall a, raises P (k a)) -> raises P (mbind k m).
Proof.
  intros Hm Hk st e st'. M_simpl.
  destruct (m st) as [[a|e0] st1] eqn:Hr.
  - apply Hk.
  - intros [= <- <-]. eapply Hm. exact Hr.
Qed.

Lemma raises_try_catch {A} (m : M A) (handler : exn -> option (M A)) :
  (forall st e st', m st = (Raise e, st') -> handler e = None -> P e) ->
  (forall e h, handler e = Some h -> raises P h) ->
  raises P (try_catch m handler).
Proof.
  intros Hm Hh st e st'. unfold try_catch.
  destruct (m st) as [[a|e0] st1] eqn:Hr; [discriminate|].
  destruct (handler e0) as [h|] eqn:He.
  - eapply Hh. exact He.
  - intros [= <- <-]. eapply Hm; eauto.
Qed.

(** A block guarded by [except Exception: return ...] lets through what the
    block raises beyond [Exception]. *)
Lemma raises_except_Exception {A} (m : M A) (a : A) :
  raises P m -> raises P (try_catch m (except_Exception (fun _ => ret a))).
Proof.
  intros Hm. apply raises_try_catch.
  - intros st e st' Hr _. eapply Hm. exact Hr.
  - intros e h. unfold except_Exception. destruct (is_Exception e); [|discriminate].
    intros [= <-]. apply raises_ret.
Qed.

Lemma raises_try_finally {A} (m : M A) (fin : M unit) :
  raises P m -> raises P fin -> raises P (try_finally m fin).
Proof.
  intros Hm Hf st e st'. unfold try_finally.
  destruct (m st) as [r st1] eqn:Hr.
  destruct (fin st1) as [[[]|e1] st2] eqn:Hfin.
  - intros [= -> <-]. eapply Hm. exact Hr.
  - intros [= <- <-]. eapply Hf. exact Hfin.
Qed.

Lemma raises_weaken (P' : exn -> Prop) {A} (m : M A) :
  (forall e, P' e -> P e) -> raises P' m -> raises P m.
Proof. intros HP Hm st e st' Hr. apply HP. eapply Hm. exact Hr. Qed.
End Raises.

Section Workflows.
Context (E : env).

Ltac by_cases :=
  intros st e st';
  repeat (match goal with
          | |- context [if ?c then _ else _] => destruct c
          | |- context [match ?o with Some _ => _ | None => _ end] => destruct o
          | |- context [match ?n with File _ => _ | Dir => _ end] => destruct n
          | |- context [match ?r with Ok _ => _ | Raise _ => _ end] => destruct r
          | |- context [match ?s with Exited _ => _ | _ => _ end] => destruct s
          | |- context [match ?t with Transcribed _ => _ | _ => _ end] => destruct t
          end);
  intros [= <- _]; try exact I; try reflexivity.

Lemma raises_subprocess_run cmd : raises not_exit (subprocess_run E cmd).
Proof. unfold subprocess_run. by_cases. Qed.

Lemma raises_whisper_call p : raises not_exit (whisper_call E p).
Proof. unfold whisper_call. by_cases. Qed.

Lemma raises_write_text path text : raises ordinary (write_text path text).
Proof. unfold write_text. by_cases. Qed.

Lemma raises_makedirs p : raises ordinary (makedirs p).
Proof.
  intros st e st'. unfold makedirs. destruct (eqb_str p []).
  - intros [= <- _]. reflexivity.
  - destruct (mkdir_chain _ _) as [f|e0] eqn:Hc; [discriminate|].
    intros [= <- _]. revert Hc. generalize (fs st).
    induction (ancestors_from [] p) as [|a l IH]; intros f; simpl; [discriminate|].
    destruct (f !! a) as [[]|]; [|apply IH|apply IH].
    intros [= <-]. destruct l; reflexivity.
Qed.

Lemma raises_rename a b : raises ordinary (rename a b).
Proof. unfold rename. by_cases. Qed.

Lemma raises_rmtree d : raises ordinary (rmtree d).
Proof. unfold rmtree. by_cases. Qed.

Lemma raises_mkdtemp : raises ordinary (mkdtemp E).
Proof. unfold mkdtemp. by_cases. Qed.

Lemma raises_cleanup : raises ordinary cleanup.
Proof.
  unfold cleanup. apply raises_bind; [apply raises_get|].
  intros st. destruct (temp_dir (self st)); [|apply raises_ret].
  destruct (_ && _); [apply raises_rmtree | apply raises_ret].
Qed.

Lemma raises_unless_exists P p m : raises P m -> raises P (unless_exists p m).
Proof.
  intros Hm. unfold unless_exists. apply raises_bind; [apply raises_get|].
  intros st. destruct (path_exists _ _); [apply raises_ret | exact Hm].
Qed.

Ltac ord := eapply raises_weaken; [apply ordinary_not_exit|].

Lemma raises_download_audio url p : raises not_exit (download_audio E url p).
Proof.
  unfold download_audio. apply raises_except_Exception.
  apply raises_bind; [apply raises_subprocess_run | intros _; apply raises_ret].
Qed.

Lemma raises_extract_audio_to_file url ap fmt :
  raises not_exit (extract_audio_to_file E url ap fmt).
Proof.
  unfold extract_audio_to_file. apply raises_except_Exception.
  apply raises_bind.
  { destruct (negb _); [|apply raises_ret].
    apply raises_unless_exists. ord. apply raises_makedirs. }
  intros _. apply raises_bind; [apply raises_subprocess_run|].
  intros _. apply raises_bind; [apply raises_get|].
  intros st. destruct (path_exists _ _); [|apply raises_ret].
  apply raises_bind; [|intros _; apply raises_ret].
  destruct (negb _); [ord; apply raises_rename | apply raises_ret].
Qed.

Lemma raises_transcribe_audio p : raises not_exit (transcribe_audio E p).
Proof. unfold transcribe_audio. apply raises_except_Exception, raises_whisper_call. Qed.

Lemma raises_transcribe_local_audio p : raises not_exit (transcribe_local_audio E p).
Proof.
  unfold transcribe_local_audio. apply raises_bind; [apply raises_get|].
  intros st. destruct (negb _); [apply raises_ret | apply raises_transcribe_audio].
Qed.

Lemma rbind_raise_inv {A B} (m : res A) (k : A -> res B) e :
  mbind k m = Raise e -> m = Raise e \/ exists a, m = Ok a /\ k a = Raise e.
Proof. destruct m as [a|e0]; simpl; [eauto | intros [= <-]; auto]. Qed.

Lemma py_getitem_ordinary v key e : py_getitem v key = Raise e -> ordinary e.
Proof.
  destruct v; simpl; try (intros [= <-]; reflexivity).
  destruct (dict_get key d); [discriminate | intros [= <-]; reflexivity].
Qed.

Lemma py_round_ordinary v n e : py_round v n = Raise e -> ordinary e.
Proof. destruct v; simpl; try discriminate; intros [= <-]; reflexivity. Qed.

Lemma py_strip_ordinary v e : py_strip v = Raise e -> ordinary e.
Proof. destruct v; simpl; try discriminate; intros [= <-]; reflexivity. Qed.

Lemma py_contains_ordinary key v e : py_contains key v = Raise e -> ordinary e.
Proof. destruct v; simpl; try discriminate; intros [= <-]; reflexivity. Qed.

Lemma py_iter_ordinary v e : py_iter v = Raise e -> ordinary e.
Proof. destruct v; simpl; try discriminate; intros [= <-]; reflexivity. Qed.

Ltac raise_inv H :=
  apply rbind_raise_inv in H as [H | (? & _ & H)].

Lemma format_segment_ordinary seg e :
  Formatter.format_segment seg = Raise e -> ordinary e.
Proof.
  unfold Formatter.format_segment. intros H.
  raise_inv H; [eapply py_getitem_ordinary; exact H|].
  raise_inv H; [eapply py_round_ordinary; exact H|].
  raise_inv H; [eapply py_getitem_ordinary; exact H|].
  raise_inv H; [eapply py_round_ordinary; exact H|].
  raise_inv H; [eapply py_getitem_ordinary; exact H|].
  raise_inv H; [eapply py_strip_ordinary; exact H|].
  discriminate.
Qed.

Lemma format_loop_ordinary segs : forall acc e,
  Formatter.format_loop segs acc = Raise e -> ordinary e.
Proof.
  induction segs as [|seg segs IH]; intros acc e; simpl; [discriminate|].
  intros H. raise_inv H; [eapply format_segment_ordinary; exact H|].
  eapply IH. exact H.
Qed.

(** The formatter raises ordinary exceptions only. *)
Lemma format_output_ordinary v e :
  Formatter.format_output v = Raise e -> ordinary e.
Proof.
  unfold Formatter.format_output. intros H.
  apply rbind_raise_inv in H as [H | (stop & _ & H)].
  - destruct (negb (truthy v)); [discriminate|].
    unfold Formatter.py_not_in in H.
    raise_inv H; [eapply py_contains_ordinary; exact H | discriminate].
  - destruct stop; [discriminate|].
    raise_inv H; [eapply py_getitem_ordinary; exact H|].
    raise_inv H; [eapply py_iter_ordinary; exact H|].
    raise_inv H; [eapply format_loop_ordinary; exact H | discriminate].
Qed.

Lemma raises_format_output v : raises not_exit (format_output v).
Proof.
  intros st e st'. unfold format_output, lift. intros [= H _].
  apply ordinary_not_exit. eapply format_output_ordinary. exact H.
Qed.

Lemma raises_output_results v out : raises not_exit (output_results v out).
Proof.
  unfold output_results. destruct out as [path|]; [destruct (given _)|];
    try (apply raises_print; exact I). ord. apply raises_write_text.
Qed.

Lemma raises_workflow_tail tr out :
  raises not_exit (formatted_output ← format_output tr;
                   _ ← output_results formatted_output out;
                   ret true).
Proof.
  apply raises_bind; [apply raises_format_output|].
  intros v. apply raises_bind; [apply raises_output_results | intros _; apply raises_ret].
Qed.

Lemma raises_process_video url out : raises not_exit (process_video E url out).
Proof.
  unfold process_video. apply raises_bind; [ord; apply raises_mkdtemp|].
  intros d. apply raises_bind; [apply raises_modify|].
  intros _. apply raises_try_finally; [|ord; apply raises_cleanup].
  apply raises_except_Exception. unfold process_video_body.
  apply raises_bind; [apply raises_download_audio|].
  intros ok. destruct (negb ok); [apply raises_ret|].
  apply raises_bind; [apply raises_get|].
  intros st. destruct (glob_audio _ _); [apply raises_ret|].
  apply raises_bind; [apply raises_transcribe_audio|].
  intros tr. destruct (negb _); [apply raises_ret | apply raises_workflow_tail].
Qed.

Lemma raises_process_video_with_audio_save url p out fmt :
  raises not_exit (process_video_with_audio_save E url p out fmt).
Proof.
  unfold process_video_with_audio_save. apply raises_except_Exception.
  apply raises_bind.
  { unfold audio_save_paths.
    apply raises_bind; [apply raises_unless_exists; ord; apply raises_makedirs|].
    intros _. destruct out as [name|]; [|apply raises_ret].
    destruct (given _); [|apply raises_ret].
    apply raises_bind; [apply raises_unless_exists; ord; apply raises_makedirs|].
    intros _. apply raises_ret. }
  intros paths. unfold audio_save_steps.
  apply raises_bind; [apply raises_extract_audio_to_file|].
  intros ok. destruct (negb ok); [apply raises_ret|].
  apply raises_bind; [apply raises_transcribe_local_audio|].
  intros tr. destruct (negb _); [apply raises_ret | apply raises_workflow_tail].
Qed.

Lemma raises_selected_workflow args : raises not_exit (selected_workflow E args).
Proof.
  unfold selected_workflow. destruct (given _).
  - apply raises_process_video_with_audio_save.
  - apply raises_process_video.
Qed.
End Workflows.

End ExitFacts.

Module CliFacts.
Import Vocabulary StmtLogic Transcriber Cli ExitFacts.

Lemma ordinary_exit_status e : ordinary e -> exit_status (Raise e) = 1.
Proof. destruct e; simpl; try reflexivity; discriminate. Qed.

Lemma consume_exit P : forall n ts ns seen extras code,
  (length ts <= n)%nat ->
  consume P ts ns seen extras = ParserExit code -> code = 0 \/ code = usage_error.
Proof.
  induction n as [|n IH]; intros ts ns seen extras code Hlen.
  - destruct ts; [|simpl in Hlen; lia]. simpl.
    repeat (destruct (_ : bool); [intros [= <-]; auto|]). discriminate.
  - destruct ts as [|[a|o] r]; simpl.
    + repeat (destruct (_ : bool); [intros [= <-]; auto|]). discriminate.
    + simpl in Hlen. destruct (existsb _ seen); apply IH; lia.
    + simpl in Hlen. destruct (kind o) as [choices| |].
      * destruct r as [|[a|o'] r']; try (intros [= <-]; auto).
        simpl in Hlen.
        destruct (match choices with Some l => _ | None => _ end);
          [apply IH; lia | intros [= <-]; auto].
      * apply IH. lia.
      * intros [= <-]. auto.
Qed.

(** The parser leaves with status 0 (help) or 2 (usage error). *)
Lemma parse_args_exit P argv code :
  parse_args P argv = Some (ParserExit code) -> code = 0 \/ code = 2.
Proof.
  unfold parse_args. destruct (classify_all P argv) as [ts|]; [|discriminate].
  intros [= H]. eapply consume_exit; [|exact H]. reflexivity.
Qed.

Section Exit.
Context (E : env) (describe : exn -> pystr).

(** The guarded call of [transcriber.main]: status 0 exactly when the call
    returns [True], status 1 otherwise. *)
Lemma guarded_exit (wf : M bool) (k : bool -> M unit) (h : M unit) st :
  raises not_exit wf ->
  (forall st', fst (k true st') = Ok tt) ->
  (forall st', fst (k false st') = Raise (SystemExit 1)) ->
  (forall st', exit_status (fst (h st')) = 1) ->
  let r := fst (try_catch (mbind k wf) (interrupted_or_failed h) st) in
  (fst (wf st) = Ok true /\ exit_status r = 0)
  \/ (fst (wf st) <> Ok true /\ exit_status r = 1).
Proof.
  intros Hwf Ht Hf Hh r. subst r. unfold try_catch. M_simpl.
  destruct (wf st) as [[[]|e] st1] eqn:Hr; simpl.
  - left. split; [reflexivity|]. specialize (Ht st1).
    destruct (k true st1) as [r1 st2]. simpl in Ht. subst r1. reflexivity.
  - right. split; [discriminate|]. specialize (Hf st1).
    destruct (k false st1) as [r1 st2]. simpl in Hf. subst r1. reflexivity.
  - right. split; [discriminate|].
    pose proof (Hwf _ _ _ Hr) as Hne.
    destruct e; simpl in *; try contradiction; apply Hh.
Qed.

Lemma cleanup_then_exit st : exit_status (fst ((_ ← cleanup; sys_exit 1) st)) = 1.
Proof.
  M_simpl. fold cleanup.
  destruct (cleanup st) as [[[]|e] st1] eqn:Hc; simpl; [reflexivity|].
  apply ordinary_exit_status. eapply raises_cleanup. exact Hc.
Qed.

(** The probe either passes or ends the script with status 1, unless the
    user interrupts it. *)
Lemma check_ytdlp_outcome st :
  probe_status E st <> Interrupted ->
  (exists st1, check_ytdlp E st = (Ok tt, st1) /\ probe_status E st = Exited 0)
  \/ (exists e st1, check_ytdlp E st = (Raise e, st1) /\ exit_status (Raise e) = 1).
Proof.
  unfold probe_status, check_ytdlp, try_catch, subprocess_run. intros Hni.
  destruct (status _) as [c| | |] eqn:Hs; [|right..|contradiction]; simpl; eauto.
  destruct (Z.eqb_spec c 0) as [->|Hc]; simpl; [left | right]; eauto.
Qed.

Lemma transcriber_exit args st :
  probe_status E st <> Interrupted ->
  let code := exit_status (fst (transcriber_run E args st)) in
  (code = 0 \/ code = 1)
  /\ (code = 0 <->
      exists st1, transcriber_setup E args st = (Ok tt, st1)
                  /\ fst (selected_workflow E args st1) = Ok true).
Proof.
  intros Hni code. subst code. unfold transcriber_run.
  destruct (transcriber_setup E args st) as [[[]|e] st1] eqn:Hsetup.
  - rewrite (run_bind _ _ _ _ _ Hsetup).
    destruct (guarded_exit (selected_workflow E args)
                (fun success : bool => if negb success then sys_exit 1 else ret tt)
                (_ ← cleanup; sys_exit 1) st1
                (raises_selected_workflow E args)
                ltac:(intros; reflexivity) ltac:(intros; reflexivity)
                cleanup_then_exit)
      as [[Hok Hc] | [Hno Hc]]; rewrite Hc.
    + split; [auto|]. split; [eauto | reflexivity].
    + split; [auto|]. split; [discriminate|].
      intros (st1' & [= <-] & Hok). contradiction.
  - rewrite (run_bind_raise _ _ _ _ _ Hsetup). cbn [fst].
    assert (exit_status (Raise e) = 1) as ->.
    { revert Hsetup. unfold transcriber_setup, check_whisper.
      destruct (whisper_installed E); [|intros [= <- _]; reflexivity].
      rewrite run_bind with (a := tt) (st' := st) by reflexivity.
      destruct (check_ytdlp_outcome st Hni) as [(st2 & Hc & _) | (e' & st2 & Hc & He)].
      - rewrite (run_bind _ _ _ _ _ Hc). discriminate.
      - rewrite (run_bind_raise _ _ _ _ _ Hc). intros [= <- _]. exact He. }
    split; [auto|]. split; [discriminate|]. intros (st1' & [=] & _).
Qed.

Lemma print_then_exit_status line st :
  exit_status (fst ((_ ← print line; @sys_exit unit 1) st)) = 1.
Proof. destruct (print_then_exit line st) as [[_ ->] | [_ ->]]; reflexivity. Qed.

(** Whatever reaches the handlers of [audio_extractor.main], the script ends
    with status 1. *)
Lemma handled_exit e st :
  e = SystemExit 1 \/ not_exit e ->
  exit_status (fst (match Extractor.handler describe e with
                    | Some h => h st
                    | None => (Raise e, st)
                    end)) = 1.
Proof.
  intros [-> | He]; [reflexivity|].
  destruct e; simpl in He; try contradiction; apply print_then_exit_status.
Qed.

(** The probe of [audio_extractor.main] either passes or ends the script
    with status 1, unless the user interrupts it. *)
Lemma extractor_check_outcome st :
  probe_status E st <> Interrupted ->
  (exists st1, Extractor.check_ytdlp E st = (Ok tt, st1) /\ probe_status E st = Exited 0)
  \/ (exists e st1, Extractor.check_ytdlp E st = (Raise e, st1)
                    /\ exit_status (Raise e) = 1).
Proof.
  unfold probe_status, Extractor.check_ytdlp, try_catch, subprocess_run. intros Hni.
  assert (forall st0, exists e st1,
            (_ ← print Extractor.not_found_line; sys_exit 1) st0 = (@Raise unit e, st1)
            /\ exit_status (Raise e) = 1) as Hh.
  { intros st0. destruct (print_then_exit Extractor.not_found_line st0)
      as [[_ ->] | [_ ->]]; eexists _, _; split; reflexivity. }
  destruct (status _) as [c| | |] eqn:Hs; [| |right|contradiction]; simpl.
  - destruct (Z.eqb_spec c 0) as [->|Hc]; simpl; [left; eauto | right]. apply Hh.
  - right. apply Hh.
  - eauto.
Qed.

Lemma extractor_exit args st :
  probe_status E st <> Interrupted ->
  let code := exit_status (fst (Extractor.main E describe args st)) in
  (code = 0 \/ code = 1)
  /\ (code = 0 <->
      exists st1, Extractor.setup E st = (Ok tt, st1)
                  /\ fst (Extractor.call E args st1) = Ok true
                  /\ stdout_accepts (Extractor.success_line (attr_str args (py "output")))
                     = true).
Proof.
  intros Hni code. subst code. unfold Extractor.main.
  destruct (Extractor.setup E st) as [[[]|e] st1] eqn:Hsetup.
  - rewrite (run_bind _ _ _ _ _ Hsetup). unfold try_catch.
    destruct (Extractor.call E args st1) as [[[]|e] st2] eqn:Hcall.
    + rewrite (run_bind _ _ _ _ _ Hcall).
      destruct (stdout_accepts (Extractor.success_line (attr_str args (py "output"))))
        eqn:Ha.
      * rewrite (print_accepted _ _ Ha). cbn [fst exit_status].
        split; [auto|]. split; [|reflexivity].
        intros _. exists st1. rewrite Hcall. auto.
      * rewrite (print_refused _ _ Ha).
        rewrite (handled_exit UnicodeEncodeError st2) by (right; exact I).
        split; [auto|]. split; [discriminate|].
        intros (st1' & _ & _ & Hacc). discriminate.
    + rewrite (run_bind _ _ _ _ _ Hcall).
      assert (exit_status
                (fst (let '(r, st') := (_ ← print Extractor.failure_line; sys_exit 1) st2 in
                      match r with
                      | Ok a => (Ok a, st')
                      | Raise e0 =>
                          match Extractor.handler describe e0 with
                          | Some h => h st'
                          | None => (Raise e0, st')
                          end
                      end)) = 1) as ->.
      { destruct (print_then_exit Extractor.failure_line st2) as [[_ ->] | [_ ->]].
        - reflexivity.
        - apply handled_exit. right. exact I. }
      split; [auto|]. split; [discriminate|].
      intros (st1' & [= <-] & Hok & _). rewrite Hcall in Hok. discriminate.
    + rewrite (run_bind_raise _ _ _ _ _ Hcall).
      rewrite handled_exit
        by (right; eapply (raises_extract_audio_to_file E); exact Hcall).
      split; [auto|]. split; [discriminate|].
      intros (st1' & [= <-] & Hok & _). rewrite Hcall in Hok. discriminate.
  - rewrite (run_bind_raise _ _ _ _ _ Hsetup). cbn [fst].
    assert (exit_status (Raise e) = 1) as ->.
    { revert Hsetup. unfold Extractor.setup.
      destruct (extractor_check_outcome st Hni) as [(st2 & Hc & _) | (e' & st2 & Hc & He)].
      - rewrite (run_bind _ _ _ _ _ Hc). discriminate.
      - rewrite (run_bind_raise _ _ _ _ _ Hc). intros [= <- _]. exact He. }
    split; [auto|]. split; [discriminate|]. intros (st1' & [=] & _).
Qed.

(** C8 (as amended): when the argument parser accepts the command line and
    the dependency probe is not interrupted, each tool exits with status 0
    if its call returns [True] after the dependency checks passed (and, for
    the audio extractor, the line that reports the path can be printed), and
    with status 1 in every other case (a missing dependency, a failed call,
    an exception, a user interrupt during the call, a path that standard
    output cannot show); when the parser ends the run itself, the status is
    2 for a usage error and 0 for [--help]. *)
Theorem exit_codes (argv : list pystr) (st : state) :
  (forall args,
      parse_args transcriber_parser argv = Some (Parsed args) ->
      probe_status E st <> Interrupted ->
      exists code,
        transcriber_main E argv st = Some code
        /\ (code = 0 \/ code = 1)
        /\ (code = 0 <->
            exists st1, transcriber_setup E args st = (Ok tt, st1)
                        /\ fst (selected_workflow E args st1) = Ok true))
  /\ (forall args,
      parse_args extractor_parser argv = Some (Parsed args) ->
      probe_status E st <> Interrupted ->
      exists code,
        Extractor.extractor_main E describe argv st = Some code
        /\ (code = 0 \/ code = 1)
        /\ (code = 0 <->
            exists st1, Extractor.setup E st = (Ok tt, st1)
                        /\ fst (Extractor.call E args st1) = Ok true
                        /\ stdout_accepts
                             (Extractor.success_line (attr_str args (py "output")))
                           = true))
  /\ (forall code,
      parse_args transcriber_parser argv = Some (ParserExit code) ->
      transcriber_main E argv st = Some code /\ (code = 0 \/ code = 2))
  /\ (forall code,
      parse_args extractor_parser argv = Some (ParserExit code) ->
      Extractor.extractor_main E describe argv st = Some code /\ (code = 0 \/ code = 2)).
Proof.
  split; [|split; [|split]].
  - intros args Hp Hni. eexists. split.
    + unfold transcriber_main, script. rewrite Hp. reflexivity.
    + apply transcriber_exit. exact Hni.
  - intros args Hp Hni. eexists. split.
    + unfold Extractor.extractor_main, script. rewrite Hp. reflexivity.
    + apply extractor_exit. exact Hni.
  - intros code Hp. split.
    + unfold transcriber_main, script. rewrite Hp. reflexivity.
    + eapply parse_args_exit. exact Hp.
  - intros code Hp. split.
    + unfold Extractor.extractor_main, script. rewrite Hp. reflexivity.
    + eapply parse_args_exit. exact Hp.
Qed.
End Exit.

(** C8 (as stated) fails: a command line without the URL, and one for the
    extractor without the required [-o], are failures that end with status 2. *)
Lemma usage_error_exits_2 :
  transcriber_main demo_env [] demo_state = Some 2
  /\ Extractor.extractor_main demo_env (fun _ => []) [demo_url] demo_state = Some 2
  /\ transcriber_main demo_env [demo_url; py "-f"; py "ogg"] demo_state = Some 2.
Proof. vm_compute. auto. Qed.

End CliFacts.

(** ** The formatter leaves its input alone *)

Module HeapFacts.
Import Vocabulary Heap.

Ltac H_simpl := unfold mbind, mret, HM_bind, HM_ret, hbind, hret, hraise in *; simpl in *.

Lemma stable_refl n σ : stable n σ σ.
Proof. split; auto. Qed.

Lemma stable_trans n σ1 σ2 σ3 : stable n σ1 σ2 -> stable n σ2 σ3 -> stable n σ1 σ3.
Proof.
  intros [L1 F1] [L2 F2]. split; [lia|].
  intros l Hl. rewrite F2, F1 by exact Hl. reflexivity.
Qed.

Section Keeps.
Context (n : nat).

Lemma hkeeps_ret {A} (a : A) : hkeeps n (hret a).
Proof. intros σ _. apply stable_refl. Qed.

Lemma hkeeps_raise {A} e : hkeeps n (@hraise A e).
Proof. intros σ _. apply stable_refl. Qed.

Lemma hkeeps_bind {A B} (m : HM A) (k : A -> HM B) :
  hkeeps n m -> (forall a, hkeeps n (k a)) -> hkeeps n (mbind k m).
Proof.
  intros Hm Hk σ Hn. specialize (Hm σ Hn). H_simpl.
  destruct (m σ) as [[a|e|] σ1]; simpl in *; try exact Hm.
  eapply stable_trans; [exact Hm|]. apply Hk. destruct Hm. lia.
Qed.

(** Allocation appends: nothing that was there moves or changes. *)
Lemma hkeeps_alloc o : hkeeps n (alloc o).
Proof.
  intros σ Hn. unfold alloc. simpl. split.
  - rewrite length_app. lia.
  - intros l Hl. apply lookup_app_l. lia.
Qed.

Lemma hkeeps_deref l : hkeeps n (deref l).
Proof. intros σ _. unfold deref. destruct (σ !! l); apply stable_refl. Qed.

Lemma hkeeps_py_contains key x : hkeeps n (py_contains key x).
Proof.
  intros σ _. unfold py_contains.
  destruct (σ !! x) as [[]|]; apply stable_refl.
Qed.

Lemma hkeeps_py_getitem x key : hkeeps n (py_getitem x key).
Proof.
  unfold py_getitem. apply hkeeps_bind; [apply hkeeps_deref|].
  intros []; try apply hkeeps_raise.
  destruct (entries_get key entries); [apply hkeeps_ret | apply hkeeps_raise].
Qed.

Lemma hkeeps_py_round x nd : hkeeps n (py_round x nd).
Proof.
  unfold py_round. apply hkeeps_bind; [apply hkeeps_deref|].
  intros []; first [apply hkeeps_raise | apply hkeeps_alloc | apply hkeeps_ret].
Qed.

Lemma hkeeps_py_strip x : hkeeps n (py_strip x).
Proof.
  unfold py_strip. apply hkeeps_bind; [apply hkeeps_deref|].
  intros []; try apply hkeeps_raise.
  destruct (eqb_str _ _); [apply hkeeps_ret | apply hkeeps_alloc].
Qed.

(** [append] changes the list it is called on and nothing else. *)
Lemma hkeeps_list_append (lst x : loc) : (n <= lst)%nat -> hkeeps n (list_append lst x).
Proof.
  intros Hlst σ _. unfold list_append.
  destruct (σ !! lst) as [[]|]; try apply stable_refl.
  cbn [snd]. split.
  - rewrite length_insert. lia.
  - intros l Hl. apply list_lookup_insert_ne. lia.
Qed.

Lemma hkeeps_iter_next it i : hkeeps n (iter_next it i).
Proof.
  unfold iter_next. apply hkeeps_bind; [apply hkeeps_deref|].
  intros []; try apply hkeeps_raise.
  - destruct (s !! i); [|apply hkeeps_ret].
    apply hkeeps_bind; [apply hkeeps_alloc | intros; apply hkeeps_ret].
  - apply hkeeps_ret.
  - destruct (entries !! i); [|apply hkeeps_ret].
    apply hkeeps_bind; [apply hkeeps_alloc | intros; apply hkeeps_ret].
Qed.

Lemma hkeeps_format_segment seg : hkeeps n (format_segment seg).
Proof.
  unfold format_segment.
  repeat (apply hkeeps_bind;
          [first [apply hkeeps_py_getitem | apply hkeeps_py_round
                 | apply hkeeps_py_strip | apply hkeeps_alloc] | intros ?]).
  apply hkeeps_alloc.
Qed.

Lemma hkeeps_format_loop fuel : forall segs i out,
  (n <= out)%nat -> hkeeps n (format_loop fuel segs i out).
Proof.
  induction fuel as [|fuel IH]; intros segs i out Hout; simpl.
  - intros σ _. apply stable_refl.
  - apply hkeeps_bind; [apply hkeeps_iter_next|].
    intros [seg|]; [|apply hkeeps_ret].
    apply hkeeps_bind; [apply hkeeps_format_segment|].
    intros r. apply hkeeps_bind; [apply hkeeps_list_append; exact Hout|].
    intros _. apply IH. exact Hout.
Qed.

(** What follows the allocation of the output list. *)
Lemma hkeeps_format_rest tr out :
  (n <= out)%nat ->
  hkeeps n
    (o ← deref tr;
     stop ← (if negb (truthy o) then hret true
             else present ← py_contains (py "segments") tr;
                  hret (negb present));
     if (stop : bool) then hret out
     else
       segments ← py_getitem tr (py "segments");
       _ ← (fun σ => format_loop (S (size_at σ segments)) segments 0 out σ);
       hret out).
Proof.
  intros Hout. apply hkeeps_bind; [apply hkeeps_deref|].
  intros o. apply hkeeps_bind.
  { destruct (negb _); [apply hkeeps_ret|].
    apply hkeeps_bind; [apply hkeeps_py_contains | intros; apply hkeeps_ret]. }
  intros []; [apply hkeeps_ret|].
  apply hkeeps_bind; [apply hkeeps_py_getitem|].
  intros segs. apply hkeeps_bind; [|intros; apply hkeeps_ret].
  intros σ Hn. apply hkeeps_format_loop; assumption.
Qed.
End Keeps.

Lemma run_alloc {B} o (k : loc -> HM B) σ :
  mbind k (alloc o) σ = k (length σ) (σ ++ [o]).
Proof. reflexivity. Qed.

(** Every object of the store is, after [format_output], what it was. *)
Lemma format_output_stable tr σ :
  stable (length σ) σ (snd (format_output tr σ)).
Proof.
  unfold format_output. rewrite run_alloc.
  apply stable_trans with (σ ++ [OList []]).
  - apply (hkeeps_alloc (length σ) (OList []) σ). lia.
  - apply hkeeps_format_rest; [lia|]. rewrite length_app. lia.
Qed.

Lemma total_bind {A B} (m : HM A) (k : A -> HM B) : total m -> (forall a, total (k a)) -> total (mbind k m).
Proof.
  intros Hm Hk σ. specialize (Hm σ). H_simpl.
  destruct (m σ) as [[a|e|] σ1]; simpl in *; [apply Hk | discriminate | contradiction].
Qed.

Lemma total_ret {A} (a : A) : total (hret a).
Proof. intros σ. discriminate. Qed.

Lemma total_raise {A} e : total (@hraise A e).
Proof. intros σ. discriminate. Qed.

Lemma total_alloc o : total (alloc o).
Proof. intros σ. discriminate. Qed.

Lemma total_deref l : total (deref l).
Proof. intros σ. unfold deref. destruct (σ !! l); discriminate. Qed.

Lemma total_py_getitem x key : total (py_getitem x key).
Proof.
  unfold py_getitem. apply total_bind; [apply total_deref|].
  intros []; try apply total_raise.
  destruct (entries_get key entries); [apply total_ret | apply total_raise].
Qed.

Lemma total_py_round x nd : total (py_round x nd).
Proof.
  unfold py_round. apply total_bind; [apply total_deref|].
  intros []; first [apply total_raise | apply total_alloc | apply total_ret].
Qed.

Lemma total_py_strip x : total (py_strip x).
Proof.
  unfold py_strip. apply total_bind; [apply total_deref|].
  intros []; try apply total_raise.
  destruct (eqb_str _ _); [apply total_ret | apply total_alloc].
Qed.

Lemma total_format_segment seg : total (format_segment seg).
Proof.
  unfold format_segment.
  repeat (apply total_bind;
          [first [apply total_py_getitem | apply total_py_round
                 | apply total_py_strip | apply total_alloc] | intros ?]).
  apply total_alloc.
Qed.

Lemma total_list_append (lst x : loc) : total (list_append lst x).
Proof. intros σ. unfold list_append. destruct (σ !! lst) as [[]|]; discriminate. Qed.

(** One step of the iteration over an object that holds [size] items: it
    yields an item only below [size], and leaves the old objects alone. *)
Lemma iter_next_step n (it : loc) (i : nat) σ o :
  (n <= length σ)%nat -> σ !! it = Some o ->
  exists r σ1, iter_next it i σ = (r, σ1) /\ r <> OutOfFuel
    /\ stable n σ σ1
    /\ (forall seg, r = HOk (Some seg) -> (i < size_at σ it)%nat).
Proof.
  intros Hn Ho.
  pose proof (hkeeps_iter_next n it i σ Hn) as Hst.
  destruct (iter_next it i σ) as [r σ1] eqn:Hr. exists r, σ1.
  split; [reflexivity|]. split; [|split; [exact Hst|]].
  - revert Hr. unfold iter_next, deref. H_simpl. rewrite Ho.
    destruct o; try (intros [= <- _]; discriminate).
    + destruct (s !! i); intros [= <- _]; discriminate.
    + destruct (entries !! i); intros [= <- _]; discriminate.
  - intros seg ->. revert Hr. unfold iter_next, deref, size_at. H_simpl. rewrite Ho.
    destruct o; try discriminate.
    + destruct (s !! i) eqn:Hi; [|discriminate]. intros _.
      eapply lookup_lt_Some. exact Hi.
    + intros [= Hi _]. eapply lookup_lt_Some. exact Hi.
    + destruct (entries !! i) eqn:Hi; [|discriminate]. intros _.
      eapply lookup_lt_Some. exact Hi.
Qed.

(** With one unit of fuel per item and one to spare, the loop over an
    object that was there before the output list runs to its end. *)
Lemma format_loop_total n (segs out : loc) o : forall fuel i σ,
  (segs < n)%nat -> (n <= out)%nat -> (n <= length σ)%nat ->
  σ !! segs = Some o ->
  (size_at σ segs < fuel + i)%nat -> (i <= size_at σ segs)%nat ->
  fst (format_loop fuel segs i out σ) <> OutOfFuel.
Proof.
  induction fuel as [|fuel IH]; intros i σ Hsegs Hout Hn Ho Hfuel Hi; [lia|].
  simpl.
  destruct (iter_next_step n segs i σ o Hn Ho) as (r & σ1 & Hr & Hne & Hst1 & Hlt).
  H_simpl. rewrite Hr.
  destruct r as [[seg|]|e|]; simpl; [|discriminate|discriminate|contradiction].
  specialize (Hlt seg eq_refl).
  assert (n <= length σ1)%nat as Hn1 by (destruct Hst1; lia).
  pose proof (hkeeps_format_segment n seg σ1 Hn1) as Hst2.
  pose proof (total_format_segment seg σ1) as Ht2.
  destruct (format_segment seg σ1) as [[rec|e|] σ2]; simpl in *;
    [|discriminate|contradiction].
  assert (n <= length σ2)%nat as Hn2 by (destruct Hst2; lia).
  pose proof (hkeeps_list_append n out rec Hout σ2 Hn2) as Hst3.
  pose proof (total_list_append out rec σ2) as Ht3.
  destruct (list_append out rec σ2) as [[[]|e|] σ3]; simpl in *;
    [|discriminate|contradiction].
  assert (σ3 !! segs = σ !! segs) as Hsame.
  { destruct Hst1 as [_ F1], Hst2 as [_ F2], Hst3 as [_ F3].
    rewrite F3, F2, F1 by exact Hsegs. reflexivity. }
  assert (size_at σ3 segs = size_at σ segs) as Hsize.
  { unfold size_at. rewrite Hsame. reflexivity. }
  apply IH; try assumption.
  - destruct Hst3; lia.
  - rewrite Hsame. exact Ho.
  - rewrite Hsize. lia.
  - rewrite Hsize. lia.
Qed.

Lemma entries_get_ref key (d : list (pystr * loc)) l :
  entries_get key d = Some l -> l ∈ map snd d.
Proof.
  induction d as [|[k v] d IH]; simpl; [discriminate|].
  destruct (eqb_str k key).
  - intros [= ->]. left.
  - intros H. right. apply IH. exact H.
Qed.

Lemma total_bind_at {A B} (m : HM A) (k : A -> HM B) σ :
  fst (m σ) <> OutOfFuel ->
  (forall a σ', m σ = (HOk a, σ') -> fst (k a σ') <> OutOfFuel) ->
  fst (mbind k m σ) <> OutOfFuel.
Proof.
  intros Hm Hk. unfold mbind, HM_bind, hbind.
  destruct (m σ) as [[a|e|] σ1]; simpl in *; [apply Hk; reflexivity | discriminate | contradiction].
Qed.

Lemma total_py_contains key x : total (py_contains key x).
Proof. intros σ. unfold py_contains. destruct (σ !! x) as [[]|]; discriminate. Qed.

Lemma deref_inv (l : loc) σ o σ' :
  deref l σ = (HOk o, σ') -> σ' = σ /\ σ !! l = Some o.
Proof. unfold deref. destruct (σ !! l); [intros [= <- <-]; auto | discriminate]. Qed.

Lemma py_contains_state key x σ : snd (py_contains key x σ) = σ.
Proof. unfold py_contains. destruct (σ !! x) as [[]|]; reflexivity. Qed.

Lemma py_getitem_inv (x : loc) key σ l σ' :
  py_getitem x key σ = (HOk l, σ') ->
  σ' = σ /\ exists d, σ !! x = Some (ODict d) /\ entries_get key d = Some l.
Proof.
  unfold py_getitem, deref, mbind, HM_bind, hbind.
  destruct (σ !! x) as [o|]; [|discriminate].
  destruct o; try discriminate.
  destruct (entries_get key entries) eqn:Hg; [|discriminate].
  intros [= <- <-]. eauto.
Qed.

(** In a store without dangling references [format_output] runs to its end:
    the list it iterates over is never the list it appends to. *)
Lemma format_output_total tr σ :
  closed σ -> fst (format_output tr σ) <> OutOfFuel.
Proof.
  intros Hclosed. unfold format_output. rewrite run_alloc.
  set (σ1 := σ ++ [OList []]).
  apply total_bind_at; [apply total_deref|].
  intros o σ' Hd. apply deref_inv in Hd as [-> Htr].
  apply total_bind_at.
  { destruct (negb (truthy o)); [apply total_ret|].
    apply total_bind; [apply total_py_contains | intros; apply total_ret]. }
  intros stop σ' Hstop.
  assert (σ' = σ1) as ->.
  { destruct (negb (truthy o)); [injection Hstop as _ <-; reflexivity|].
    revert Hstop. unfold mbind, HM_bind, hbind.
    pose proof (py_contains_state (py "segments") tr σ1) as Hs.
    destruct (py_contains _ tr σ1) as [[b|e|] σ2]; simpl in Hs; subst σ2;
      [intros [= _ <-]; reflexivity | discriminate | discriminate]. }
  destruct stop; [apply total_ret|].
  apply total_bind_at; [apply total_py_getitem|].
  intros segs σ' Hg. apply py_getitem_inv in Hg as (-> & d & Hd & Hget).
  apply total_bind_at; [|intros; apply total_ret].
  assert (tr < length σ)%nat as Htr_old.
  { destruct (decide (tr < length σ)%nat) as [|Hge]; [assumption|].
    apply lookup_lt_Some in Htr as Hlt. subst σ1. rewrite length_app in Hlt. simpl in Hlt.
    assert (tr = length σ) as Heq by lia. rewrite Heq in Hd.
    rewrite list_lookup_middle in Hd by reflexivity. discriminate. }
  assert (segs < length σ)%nat as Hsegs.
  { subst σ1. rewrite lookup_app_l in Hd by exact Htr_old.
    pose proof (Hclosed _ _ Hd) as Hrefs. simpl in Hrefs.
    rewrite Forall_forall in Hrefs. apply Hrefs.
    eapply entries_get_ref. exact Hget. }
  destruct (σ1 !! segs) as [osegs|] eqn:Hos.
  - apply (format_loop_total (length σ) segs (length σ) osegs); try lia; try assumption.
    subst σ1. rewrite length_app. lia.
  - apply lookup_ge_None in Hos. subst σ1. rewrite length_app in Hos. lia.
Qed.

(** *** The store statement and the function on trees agree *)

Lemma reify_avoid_S out d σ (l : loc) :
  reify_avoid out (S d) σ l =
  if bool_decide (l = out) then None else
  match σ !! l with
  | None => None
  | Some ONone => Some VNone
  | Some (OBool b) => Some (VBool b)
  | Some (OInt z) => Some (VInt z)
  | Some (OFloat f) => Some (VFloat f)
  | Some (OStr s) => Some (VStr s)
  | Some (OList items) => VList <$> mapM (reify_avoid out d σ) items
  | Some (ODict es) =>
      VDict <$> mapM (fun kv => v ← reify_avoid out d σ (snd kv); Some (fst kv, v)) es
  end.
Proof. reflexivity. Qed.

Lemma reify_S d σ (l : loc) :
  reify (S d) σ l =
  match σ !! l with
  | None => None
  | Some ONone => Some VNone
  | Some (OBool b) => Some (VBool b)
  | Some (OInt z) => Some (VInt z)
  | Some (OFloat f) => Some (VFloat f)
  | Some (OStr s) => Some (VStr s)
  | Some (OList items) => VList <$> mapM (reify d σ) items
  | Some (ODict es) =>
      VDict <$> mapM (fun kv => v ← reify d σ (snd kv); Some (fst kv, v)) es
  end.
Proof. reflexivity. Qed.

Lemma entry_inv {A} (f : loc -> option value) (k k' : A) (x : loc) (y : value) :
  (v ← f x; Some (k, v)) = Some (k', y) -> k = k' /\ f x = Some y.
Proof. destruct (f x); [intros [= <- <-]; auto | discriminate]. Qed.

Lemma entry_intro {A} (f : loc -> option value) (k : A) (x : loc) (y : value) :
  f x = Some y -> (v ← f x; Some (k, v)) = Some (k, y).
Proof. intros ->. reflexivity. Qed.

Lemma rep_inv out σ l v :
  rep out σ l v -> l <> out /\ exists o, σ !! l = Some o /\ rel_obj out σ o v.
Proof.
  intros [d H]. destruct d as [|d]; [discriminate|].
  rewrite reify_avoid_S in H. case_bool_decide; [discriminate|]. split; [assumption|].
  destruct (σ !! l) as [o|]; [|discriminate].
  exists o. split; [reflexivity|].
  destruct o; try (injection H as <-; reflexivity).
  - apply fmap_Some in H as (vs & Hm & ->). simpl.
    apply mapM_Some_1 in Hm. eapply Forall2_impl; [exact Hm|].
    intros x y Hx. exists d. exact Hx.
  - apply fmap_Some in H as (dv & Hm & ->). simpl.
    apply mapM_Some_1 in Hm. eapply Forall2_impl; [exact Hm|].
    intros [k x] [k' y] Hx. apply entry_inv in Hx as [-> Hx].
    split; [reflexivity|]. exists d. exact Hx.
Qed.

(** One induction serves the lemmas that carry a reading of a tree from one
    store and depth to another. *)
Lemma reify_avoid_transfer out out' σ σ' :
  (forall (l : loc) o, l <> out -> σ !! l = Some o -> l <> out' /\ σ' !! l = Some o) ->
  forall d d' l v, (d <= d')%nat ->
    reify_avoid out d σ l = Some v -> reify_avoid out' d' σ' l = Some v.
Proof.
  intros Hsame. induction d as [|d IH]; intros d' l v Hle; [discriminate|].
  destruct d' as [|d']; [lia|].
  rewrite !reify_avoid_S. case_bool_decide as Hout; [discriminate|].
  destruct (σ !! l) as [o|] eqn:Hl; [|discriminate].
  destruct (Hsame l o Hout Hl) as [Hout' Hl'].
  rewrite bool_decide_eq_false_2 by exact Hout'. rewrite Hl'.
  destruct o; try done.
  - intros (vs & Hm & ->)%fmap_Some. apply fmap_Some. exists vs. split; [|done].
    apply mapM_Some. apply mapM_Some_1 in Hm. eapply Forall2_impl; [exact Hm|].
    intros x y. apply IH. lia.
  - intros (vs & Hm & ->)%fmap_Some. apply fmap_Some. exists vs. split; [|done].
    apply mapM_Some. apply mapM_Some_1 in Hm. eapply Forall2_impl; [exact Hm|].
    intros [k x] [k' y] Hxy. apply entry_inv in Hxy as [-> Hxy].
    apply entry_intro. eapply IH; [|exact Hxy]. lia.
Qed.

Lemma reify_avoid_le out d d' σ l v :
  (d <= d')%nat -> reify_avoid out d σ l = Some v -> reify_avoid out d' σ l = Some v.
Proof. apply reify_avoid_transfer. auto. Qed.

Lemma rep_uniform out σ (items : list loc) (vs : list value) :
  Forall2 (rep out σ) items vs ->
  exists d, Forall2 (fun x y => reify_avoid out d σ x = Some y) items vs.
Proof.
  induction 1 as [|x y items vs [d Hx] _ [d' IH]].
  - exists 0%nat. constructor.
  - exists (max d d'). constructor.
    + eapply reify_avoid_le; [|exact Hx]. lia.
    + eapply Forall2_impl; [exact IH|]. intros a b. apply reify_avoid_le. lia.
Qed.

Lemma rep_intro out σ (l : loc) o v :
  l <> out -> σ !! l = Some o -> rel_obj out σ o v -> rep out σ l v.
Proof.
  intros Hout Hl Hrel.
  assert (forall d w,
    match σ !! l with
    | None => None
    | Some ONone => Some VNone
    | Some (OBool b) => Some (VBool b)
    | Some (OInt z) => Some (VInt z)
    | Some (OFloat f) => Some (VFloat f)
    | Some (OStr s) => Some (VStr s)
    | Some (OList items) => VList <$> mapM (reify_avoid out d σ) items
    | Some (ODict es) =>
        VDict <$> mapM (fun kv => v ← reify_avoid out d σ (snd kv); Some (fst kv, v)) es
    end = Some w -> rep out σ l w) as Hstep.
  { intros d w Hw. exists (S d). rewrite reify_avoid_S.
    rewrite bool_decide_eq_false_2 by exact Hout. exact Hw. }
  destruct o, v; simpl in Hrel; try contradiction; subst;
    try (apply (Hstep 0%nat); rewrite Hl; reflexivity).
  - destruct (rep_uniform _ _ _ _ Hrel) as [d Hd].
    apply (Hstep d). rewrite Hl. apply fmap_Some. eexists. split; [|done].
    apply mapM_Some_2. exact Hd.
  - assert (Forall2 (rep out σ) (map snd entries) (map snd d)) as Hvals.
    { apply Forall2_fmap. eapply Forall2_impl; [exact Hrel|]. intros ?? [_ ?]. done. }
    destruct (rep_uniform _ _ _ _ Hvals) as [n Hn].
    apply (Hstep n). rewrite Hl. apply fmap_Some. eexists. split; [|done].
    apply mapM_Some_2. apply Forall2_fmap in Hn.
    revert Hn. clear -Hrel. induction Hrel as [|[k x] [k' y] es dv [Hk _] _ IH];
      intros Hn; [constructor|].
    apply Forall2_cons_1 in Hn as [Hx Hn]. simpl in *. subst k'.
    constructor; [|apply IH; exact Hn]. apply entry_intro. exact Hx.
Qed.

(** Trees read from a store stay what they are when the store grows. *)
Lemma rep_stable out σ σ' l v :
  stable (length σ) σ σ' -> rep out σ l v -> rep out σ' l v.
Proof.
  intros [_ Hsame] [d H]. exists d.
  eapply reify_avoid_transfer; [|reflexivity|exact H].
  intros l' o Hout Hl'. split; [exact Hout|].
  etransitivity; [apply Hsame; eapply lookup_lt_Some; exact Hl' | exact Hl'].
Qed.

(** ... and when the object at the avoided address is replaced. *)
Lemma rep_insert out σ o' l v :
  rep out σ l v -> rep out (<[out := o']> σ) l v.
Proof.
  intros [d H]. exists d.
  eapply reify_avoid_transfer; [|reflexivity|exact H].
  intros l' o Hout Hl'. split; [exact Hout|].
  rewrite list_lookup_insert_ne by auto. exact Hl'.
Qed.

(** A tree read without restriction from a store avoids the addresses
    beyond the store. *)
Lemma reify_rep out d σ l v :
  (length σ <= out)%nat -> reify d σ l = Some v -> rep out σ l v.
Proof.
  intros Hout. revert l v. induction d as [|d IH]; intros l v; [discriminate|].
  rewrite reify_S.
  destruct (σ !! l) as [o|] eqn:Hl; [|discriminate].
  assert (l <> out) as Hne.
  { apply lookup_lt_Some in Hl. lia. }
  intros H. apply (rep_intro out σ l o v Hne Hl).
  destruct o; try (injection H as <-; reflexivity).
  - apply fmap_Some in H as (vs & Hm & ->). simpl.
    apply mapM_Some_1 in Hm. eapply Forall2_impl; [exact Hm|]. intros x y. apply IH.
  - apply fmap_Some in H as (dv & Hm & ->). simpl.
    apply mapM_Some_1 in Hm. eapply Forall2_impl; [exact Hm|].
    intros [k x] [k' y] Hxy. apply entry_inv in Hxy as [-> Hxy].
    split; [reflexivity|]. apply IH. exact Hxy.
Qed.

(** Reading with an address avoided is reading. *)
Lemma rep_reify out σ l v : rep out σ l v -> exists d, reify d σ l = Some v.
Proof.
  intros [d H]. exists d. revert l v H.
  induction d as [|d IH]; intros l v; [discriminate|].
  rewrite reify_avoid_S. case_bool_decide; [discriminate|].
  rewrite reify_S.
  destruct (σ !! l) as [[]|]; try done.
  - intros (vs & Hm & ->)%fmap_Some. apply fmap_Some. exists vs. split; [|done].
    apply mapM_Some. apply mapM_Some_1 in Hm. eapply Forall2_impl; [exact Hm|].
    intros x y. apply IH.
  - intros (vs & Hm & ->)%fmap_Some. apply fmap_Some. exists vs. split; [|done].
    apply mapM_Some. apply mapM_Some_1 in Hm. eapply Forall2_impl; [exact Hm|].
    intros [k x] [k' y] Hxy. apply entry_inv in Hxy as [-> Hxy].
    apply entry_intro. apply IH. exact Hxy.
Qed.

Lemma hrun_bind {A B} (m : HM A) (k : A -> HM B) σ a σ1 :
  m σ = (HOk a, σ1) -> mbind k m σ = k a σ1.
Proof. intros H. unfold mbind, HM_bind, hbind. rewrite H. reflexivity. Qed.

Lemma hrun_bind_raise {A B} (m : HM A) (k : A -> HM B) σ e σ1 :
  m σ = (HRaise e, σ1) -> mbind k m σ = (HRaise e, σ1).
Proof. intros H. unfold mbind, HM_bind, hbind. rewrite H. reflexivity. Qed.

Lemma stable_chain σ1 σ2 σ3 :
  stable (length σ1) σ1 σ2 -> stable (length σ2) σ2 σ3 -> stable (length σ1) σ1 σ3.
Proof.
  intros [L1 F1] [L2 F2]. split; [lia|].
  intros l Hl. rewrite F2, F1 by lia. reflexivity.
Qed.

Lemma stable_alloc σ o : stable (length σ) σ (σ ++ [o]).
Proof. apply (hkeeps_alloc (length σ) o σ). lia. Qed.

Lemma agrees_bind out σ (m : HM loc) (r : res value) (k : loc -> HM loc)
    (kv : value -> res value) :
  agrees out σ m r ->
  (forall l σ' w, rep out σ' l w -> stable (length σ) σ σ' -> agrees out σ' (k l) (kv w)) ->
  agrees out σ (mbind k m) (mbind kv r).
Proof.
  intros Hm Hk. destruct r as [w|e]; unfold agrees in Hm.
  - destruct Hm as (l & σ1 & Hrun & Hrep & Hst).
    specialize (Hk l σ1 w Hrep Hst).
    change (mbind kv (Ok w)) with (kv w).
    unfold agrees in *. rewrite (hrun_bind _ _ _ _ _ Hrun).
    destruct (kv w) as [w'|e'].
    + destruct Hk as (l' & σ2 & Hrun' & Hrep' & Hst'). exists l', σ2.
      split; [exact Hrun'|]. split; [exact Hrep'|]. eapply stable_chain; eauto.
    + destruct Hk as (σ2 & Hrun' & Hst'). exists σ2.
      split; [exact Hrun'|]. eapply stable_chain; eauto.
  - destruct Hm as (σ1 & Hrun & Hst). exists σ1.
    split; [apply hrun_bind_raise; exact Hrun | exact Hst].
Qed.

Lemma agrees_after_alloc out σ o (k : loc -> HM loc) (r : res value) :
  agrees out (σ ++ [o]) (k (length σ)) r -> agrees out σ (mbind k (alloc o)) r.
Proof.
  intros H. unfold agrees in *. rewrite run_alloc.
  destruct r as [w|e].
  - destruct H as (l & σ' & Hrun & Hrep & Hst). exists l, σ'.
    split; [exact Hrun|]. split; [exact Hrep|].
    eapply stable_chain; [apply stable_alloc | exact Hst].
  - destruct H as (σ' & Hrun & Hst). exists σ'. split; [exact Hrun|].
    eapply stable_chain; [apply stable_alloc | exact Hst].
Qed.

Lemma entries_get_agrees out σ key (es : list (pystr * loc)) (dv : list (pystr * value)) :
  Forall2 (fun e kv => fst e = fst kv /\ rep out σ (snd e) (snd kv)) es dv ->
  match entries_get key es, dict_get key dv with
  | Some l, Some w => rep out σ l w
  | None, None => True
  | _, _ => False
  end.
Proof.
  induction 1 as [|[k x] [k' y] es dv [Hk Hr] _ IH]; simpl; [exact I|].
  simpl in Hk. subst k'. destruct (eqb_str k key); [exact Hr | exact IH].
Qed.

Lemma getitem_agrees out σ (x : loc) v key :
  rep out σ x v -> agrees out σ (Heap.py_getitem x key) (PyVal.py_getitem v key).
Proof.
  intros Hrep. apply rep_inv in Hrep as (_ & o & Hx & Hrel).
  unfold Heap.py_getitem, agrees.
  rewrite (hrun_bind (deref x) _ σ o σ) by (unfold deref; rewrite Hx; reflexivity).
  destruct o, v; simpl in Hrel; try contradiction; simpl;
    try (exists σ; split; [reflexivity | apply stable_refl]).
  pose proof (entries_get_agrees out σ key _ _ Hrel) as Hget.
  destruct (entries_get key entries) as [l|], (dict_get key d) as [w|];
    try contradiction.
  - exists l, σ. split; [reflexivity|]. split; [exact Hget | apply stable_refl].
  - exists σ. split; [reflexivity | apply stable_refl].
Qed.

Lemma rep_new out σ o v :
  (out < length σ)%nat -> rel_obj out (σ ++ [o]) o v -> rep out (σ ++ [o]) (length σ) v.
Proof.
  intros Hout Hrel. eapply rep_intro; [lia | | exact Hrel].
  apply list_lookup_middle. reflexivity.
Qed.

Lemma round_agrees out σ (x : loc) v n :
  (out < length σ)%nat -> rep out σ x v ->
  agrees out σ (Heap.py_round x n) (PyVal.py_round v n).
Proof.
  intros Hout Hrep. pose proof Hrep as Hrep0.
  apply rep_inv in Hrep as (_ & o & Hx & Hrel).
  unfold Heap.py_round, agrees.
  rewrite (hrun_bind (deref x) _ σ o σ) by (unfold deref; rewrite Hx; reflexivity).
  destruct o, v; simpl in Hrel; try contradiction; subst; simpl;
    try (exists σ; split; [reflexivity | apply stable_refl]).
  - eexists _, _. split; [reflexivity|]. split; [|apply stable_alloc].
    apply rep_new; [exact Hout | reflexivity].
  - exists x, σ. split; [reflexivity|]. split; [exact Hrep0 | apply stable_refl].
  - eexists _, _. split; [reflexivity|]. split; [|apply stable_alloc].
    apply rep_new; [exact Hout | reflexivity].
Qed.

Lemma strip_agrees out σ (x : loc) v :
  (out < length σ)%nat -> rep out σ x v ->
  agrees out σ (Heap.py_strip x) (PyVal.py_strip v).
Proof.
  intros Hout Hrep. pose proof Hrep as Hrep0.
  apply rep_inv in Hrep as (Hne & o & Hx & Hrel).
  unfold Heap.py_strip, agrees.
  rewrite (hrun_bind (deref x) _ σ o σ) by (unfold deref; rewrite Hx; reflexivity).
  destruct o, v; simpl in Hrel; try contradiction; subst; simpl;
    try (exists σ; split; [reflexivity | apply stable_refl]).
  destruct (eqb_str (strip s0) s0) eqn:Heq.
  - exists x, σ. split; [reflexivity|]. split; [|apply stable_refl].
    unfold eqb_str in Heq. apply bool_decide_eq_true_1 in Heq. rewrite Heq.
    exact Hrep0.
  - eexists _, _. split; [reflexivity|]. split; [|apply stable_alloc].
    apply rep_new; [exact Hout | reflexivity].
Qed.

Lemma stable_length n σ σ' : stable n σ σ' -> (length σ <= length σ')%nat.
Proof. intros [H _]. exact H. Qed.

(** One record: the heap statement and the function on trees agree. *)
Lemma format_segment_agrees out σ (seg : loc) v :
  (out < length σ)%nat -> rep out σ seg v ->
  agrees out σ (Heap.format_segment seg) (Formatter.format_segment v).
Proof.
  intros Hout Hseg. unfold Heap.format_segment, Formatter.format_segment.
  apply agrees_bind; [apply getitem_agrees; exact Hseg|].
  intros l0 σ0 start Hstart Hst0.
  assert (out < length σ0)%nat as Hout0 by (apply stable_length in Hst0; lia).
  apply agrees_bind; [apply round_agrees; assumption|].
  intros l1 σ1 start' Hstart' Hst1.
  assert (rep out σ1 seg v) as Hseg1.
  { eapply rep_stable; [exact Hst1|]. eapply rep_stable; [exact Hst0 | exact Hseg]. }
  apply agrees_bind; [apply getitem_agrees; exact Hseg1|].
  intros l2' σ2' end_ Hend Hst2'.
  assert (out < length σ1)%nat as Hout1 by (apply stable_length in Hst1; lia).
  assert (out < length σ2')%nat as Hout2' by (apply stable_length in Hst2'; lia).
  apply agrees_bind; [apply round_agrees; assumption|].
  intros l2 σ2 end' Hend' Hst2.
  assert (out < length σ2)%nat as Hout2 by (apply stable_length in Hst2; lia).
  apply agrees_after_alloc.
  set (ts := ODict [(py "start", l1); (py "end", l2)]).
  assert (stable (length σ1) σ1 (σ2 ++ [ts])) as Hst13.
  { eapply stable_chain; [exact Hst2'|]. eapply stable_chain; [exact Hst2|].
    apply stable_alloc. }
  assert (rep out (σ2 ++ [ts]) (length σ2)
            (VDict [(py "start", start'); (py "end", end')])) as Hts.
  { apply rep_new; [exact Hout2|]. simpl. repeat constructor; simpl.
    - eapply rep_stable; [exact Hst13 | exact Hstart'].
    - eapply rep_stable; [apply stable_alloc | exact Hend']. }
  assert (rep out (σ2 ++ [ts]) seg v) as Hseg3.
  { eapply rep_stable; [exact Hst13 | exact Hseg1]. }
  apply agrees_bind; [apply getitem_agrees; exact Hseg3|].
  intros l3 σ3 text Htext Hst3.
  assert (out < length σ3)%nat as Hout3.
  { apply stable_length in Hst3. rewrite length_app in Hst3. lia. }
  apply agrees_bind; [apply strip_agrees; assumption|].
  intros l4 σ4 sentence Hsent Hst4.
  assert (out < length σ4)%nat as Hout4 by (apply stable_length in Hst4; lia).
  unfold agrees.
  eexists _, _. split; [reflexivity|]. split; [|apply stable_alloc].
  apply rep_new; [exact Hout4|]. simpl. repeat constructor; simpl.
  - eapply rep_stable; [apply stable_alloc|].
    eapply rep_stable; [exact Hst4|]. eapply rep_stable; [exact Hst3 | exact Hts].
  - eapply rep_stable; [apply stable_alloc | exact Hsent].
Qed.

Lemma drop_cons_inv {A} (l : list A) i x xs :
  drop i l = x :: xs -> l !! i = Some x /\ drop (S i) l = xs.
Proof.
  revert l. induction i as [|i IH]; intros [|a l] H; try discriminate.
  - injection H as -> ->. split; [reflexivity | apply drop_0].
  - apply IH. exact H.
Qed.

Lemma drop_nil_inv {A} (l : list A) i : drop i l = [] -> l !! i = None.
Proof.
  revert l. induction i as [|i IH]; intros [|a l] H; try discriminate; try reflexivity.
  apply IH. exact H.
Qed.

Lemma iter_next_at (segs : loc) i σ o :
  σ !! segs = Some o ->
  iter_next segs i σ =
  match o with
  | OList items => (HOk (items !! i), σ)
  | ODict d => match d !! i with
               | Some kv => (HOk (Some (length σ)), σ ++ [OStr (fst kv)])
               | None => (HOk None, σ)
               end
  | OStr s => match s !! i with
              | Some c => (HOk (Some (length σ)), σ ++ [OStr [c]])
              | None => (HOk None, σ)
              end
  | _ => (HRaise TypeError, σ)
  end.
Proof.
  intros H. unfold iter_next.
  rewrite (hrun_bind (deref segs) _ σ o σ) by (unfold deref; rewrite H; reflexivity).
  destruct o as [| | | |s|items|d]; try reflexivity.
  - destruct (s !! i); reflexivity.
  - destruct (d !! i); reflexivity.
Qed.

Lemma iter_next_list (segs : loc) i σ items :
  σ !! segs = Some (OList items) -> iter_next segs i σ = (HOk (items !! i), σ).
Proof. apply iter_next_at. Qed.

(** The loop over a list of segments agrees with the loop on trees. *)
Lemma loop_list_agrees out (segs : loc) items : forall vs i fuel σ acc_locs acc_vals,
  segs <> out -> (out < length σ)%nat ->
  σ !! segs = Some (OList items) ->
  Forall2 (rep out σ) (drop i items) vs ->
  σ !! out = Some (OList acc_locs) ->
  Forall2 (rep out σ) acc_locs acc_vals ->
  (length vs < fuel)%nat ->
  match Formatter.format_loop vs acc_vals with
  | Ok final =>
      exists σ' final_locs,
        Heap.format_loop fuel segs i out σ = (HOk tt, σ')
        /\ σ' !! out = Some (OList final_locs)
        /\ Forall2 (rep out σ') final_locs final
  | Raise e => exists σ', Heap.format_loop fuel segs i out σ = (HRaise e, σ')
  end.
Proof.
  induction vs as [|v vs IH]; intros i fuel σ acc_locs acc_vals Hne Hout Hsegs Hitems
    Hacc Hrep Hfuel; (destruct fuel as [|fuel]; [simpl in Hfuel; lia|]);
    cbn [Heap.format_loop Formatter.format_loop].
  - apply Forall2_nil_inv_r in Hitems. apply drop_nil_inv in Hitems.
    rewrite (hrun_bind _ _ _ _ _ (iter_next_list segs i σ items Hsegs)), Hitems.
    exists σ, acc_locs. split; [reflexivity|]. split; assumption.
  - apply Forall2_cons_inv_r in Hitems as (x & xs & Hx & Hxs & Hdrop).
    apply drop_cons_inv in Hdrop as [Hi Hdrop].
    rewrite (hrun_bind _ _ _ _ _ (iter_next_list segs i σ items Hsegs)), Hi.
    pose proof (format_segment_agrees out σ x v Hout Hx) as Hseg.
    unfold agrees in Hseg.
    destruct (Formatter.format_segment v) as [w|e].
    + destruct Hseg as (rec & σ1 & Hrun & Hrec & Hst).
      rewrite (hrun_bind _ _ _ _ _ Hrun).
      change (mbind (fun formatted_segment => Formatter.format_loop vs
                       (acc_vals ++ [formatted_segment])) (Ok w))
        with (Formatter.format_loop vs (acc_vals ++ [w])).
      assert (out < length σ1)%nat as Hout1 by (apply stable_length in Hst; lia).
      assert (σ1 !! out = Some (OList acc_locs)) as Hacc1.
      { destruct Hst as [_ F]. etransitivity; [apply F; exact Hout | exact Hacc]. }
      set (σ2 := <[out := OList (acc_locs ++ [rec])]> σ1).
      assert (list_append out rec σ1 = (HOk tt, σ2)) as Happ.
      { unfold list_append. rewrite Hacc1. reflexivity. }
      rewrite (hrun_bind _ _ _ _ _ Happ).
      apply (IH (S i) fuel σ2 (acc_locs ++ [rec]) (acc_vals ++ [w])).
      * exact Hne.
      * subst σ2. rewrite length_insert. exact Hout1.
      * subst σ2. rewrite list_lookup_insert_ne by auto.
        destruct Hst as [_ F]. etransitivity; [apply F | exact Hsegs].
        eapply lookup_lt_Some. exact Hsegs.
      * rewrite Hdrop. eapply Forall2_impl; [exact Hxs|].
        intros a b Hab. apply rep_insert. eapply rep_stable; eauto.
      * subst σ2. apply list_lookup_insert_eq. exact Hout1.
      * apply Forall2_app.
        -- eapply Forall2_impl; [exact Hrep|].
           intros a b Hab. apply rep_insert. eapply rep_stable; eauto.
        -- constructor; [|constructor]. apply rep_insert. exact Hrec.
      * simpl in Hfuel. lia.
    + destruct Hseg as (σ1 & Hrun & _). rewrite (hrun_bind_raise _ _ _ _ _ Hrun).
      exists σ1. reflexivity.
Qed.

Lemma truthy_agrees out σ o v : rel_obj out σ o v -> Heap.truthy o = PyVal.truthy v.
Proof.
  destruct o, v; simpl; try contradiction; try congruence.
  - intros H. destruct H; reflexivity.
  - intros H. destruct H; reflexivity.
Qed.

Lemma is_str_agrees out σ key (l : loc) v :
  rep out σ l v -> is_str_at σ key l = is_str key v.
Proof.
  intros (_ & o & Hl & Hrel)%rep_inv. unfold is_str_at. rewrite Hl.
  destruct o, v; simpl in *; try contradiction; subst; reflexivity.
Qed.

Lemma contains_agrees out σ key (x : loc) o v :
  σ !! x = Some o -> rel_obj out σ o v ->
  Heap.py_contains key x σ = (to_hres (PyVal.py_contains key v), σ).
Proof.
  intros Hx Hrel. unfold Heap.py_contains. rewrite Hx.
  destruct o, v; simpl in Hrel; try contradiction; subst; try reflexivity.
  - simpl. do 2 f_equal. clear Hx.
    induction Hrel as [|a b items vs Hab _ IH]; [reflexivity|].
    simpl. rewrite (is_str_agrees _ _ _ _ _ Hab), IH. reflexivity.
  - simpl. pose proof (entries_get_agrees out σ key _ _ Hrel) as Hget.
    destruct (entries_get key entries), (dict_get key d); try contradiction; reflexivity.
Qed.

(** Reading the output list, whose items avoid its own address. *)
Lemma reify_output out σ locs vs :
  (out < length σ)%nat -> σ !! out = Some (OList locs) ->
  Forall2 (rep out σ) locs vs ->
  exists d, reify d σ out = Some (VList vs).
Proof.
  intros Hout Hl Hrep. apply (rep_reify (length σ)).
  eapply rep_intro; [lia | exact Hl |]. simpl.
  eapply Forall2_impl; [exact Hrep|].
  intros a b [d Hd]. exists d.
  eapply reify_avoid_transfer; [|reflexivity|exact Hd].
  intros l o _ Hlo. split; [|exact Hlo].
  apply lookup_lt_Some in Hlo. lia.
Qed.

Lemma res_bind_raise {A B} (k : A -> res B) e : mbind k (Raise e) = Raise e.
Proof. reflexivity. Qed.

Lemma res_bind_ok {A B} (k : A -> res B) a : mbind k (Ok a) = k a.
Proof. reflexivity. Qed.

Lemma format_loop_str (s : pystr) rest acc :
  Formatter.format_loop (VStr s :: rest) acc = Raise TypeError.
Proof. reflexivity. Qed.

(** The store statement [Heap.format_output] computes, on the tree read at
    its argument, what [Formatter.format_output] computes: the same
    exception, or a new list that reads as the same value. *)
Lemma format_output_agrees σ (tr : loc) v d :
  reify d σ tr = Some v ->
  match Formatter.format_output v with
  | Ok w =>
      exists σ' d', Heap.format_output tr σ = (HOk (length σ), σ')
                    /\ reify d' σ' (length σ) = Some w
  | Raise e => exists σ', Heap.format_output tr σ = (HRaise e, σ')
  end.
Proof.
  intros Hreify. set (out := length σ). set (σ1 := σ ++ [OList []]).
  assert (out < length σ1)%nat as Hout by (subst out σ1; rewrite length_app; simpl; lia).
  assert (σ1 !! out = Some (OList [])) as Hempty.
  { subst out σ1. apply list_lookup_middle. reflexivity. }
  assert (exists d', reify d' σ1 out = Some (VList [])) as Hnil.
  { apply (reify_output out σ1 [] [] Hout Hempty). constructor. }
  assert (rep out σ1 tr v) as Hrep.
  { eapply rep_stable; [apply stable_alloc|]. eapply reify_rep; [|exact Hreify].
    subst out. lia. }
  destruct (rep_inv _ _ _ _ Hrep) as (_ & o & Htr & Hrel).
  unfold Heap.format_output, Formatter.format_output. rewrite run_alloc. fold σ1 out.
  rewrite (hrun_bind (deref tr) _ σ1 o σ1) by (unfold deref; rewrite Htr; reflexivity).
  rewrite (truthy_agrees _ _ _ _ Hrel).
  destruct (PyVal.truthy v); cbn [negb]; cycle 1.
  { rewrite (hrun_bind (hret true) _ σ1 true σ1) by reflexivity.
    destruct Hnil as (d' & Hd'). exists σ1, d'. split; [reflexivity | exact Hd']. }
  unfold Formatter.py_not_in.
  pose proof (contains_agrees out σ1 (py "segments") tr o v Htr Hrel) as Hc.
  destruct (PyVal.py_contains (py "segments") v) as [present|e]; cbn [to_hres] in Hc;
    cycle 1.
  { exists σ1. apply hrun_bind_raise. apply hrun_bind_raise. exact Hc. }
  rewrite (hrun_bind _ _ σ1 (negb present) σ1)
    by (rewrite (hrun_bind _ _ _ _ _ Hc); reflexivity).
  change (mbind ?k (mbind (fun present0 : bool => Ok (negb present0)) (Ok present)))
    with (k (negb present)).
  destruct (negb present).
  { destruct Hnil as (d' & Hd'). exists σ1, d'. split; [reflexivity | exact Hd']. }
  pose proof (getitem_agrees out σ1 tr v (py "segments") Hrep) as Hg.
  unfold agrees in Hg.
  destruct (PyVal.py_getitem v (py "segments")) as [vsegs|e]; cycle 1.
  { destruct Hg as (σ' & Hrun & _). exists σ'. apply hrun_bind_raise. exact Hrun. }
  destruct Hg as (segs & σ' & Hrun & Hsegs & Hst).
  assert (σ' = σ1) as ->.
  { pose proof (py_getitem_inv _ _ _ _ _ Hrun) as [-> _]. reflexivity. }
  rewrite (hrun_bind _ _ _ _ _ Hrun).
  change (mbind ?k (Ok vsegs)) with (k vsegs).
  destruct (rep_inv _ _ _ _ Hsegs) as (Hne & osegs & Hos & Hrelsegs).
  assert (forall r σ2,
            Heap.format_loop (S (size_at σ1 segs)) segs 0 out σ1 = (HRaise r, σ2) ->
            exists σ3,
              mbind (fun _ : unit => hret out)
                (fun σ0 => Heap.format_loop (S (size_at σ0 segs)) segs 0 out σ0) σ1
              = (HRaise r, σ3)) as Hraise.
  { intros r σ2 Hl. exists σ2. apply hrun_bind_raise. exact Hl. }
  assert (forall σ2 locs vs,
            Heap.format_loop (S (size_at σ1 segs)) segs 0 out σ1 = (HOk tt, σ2) ->
            σ2 !! out = Some (OList locs) -> (out < length σ2)%nat ->
            Forall2 (rep out σ2) locs vs ->
            exists σ3 d',
              mbind (fun _ : unit => hret out)
                (fun σ0 => Heap.format_loop (S (size_at σ0 segs)) segs 0 out σ0) σ1
              = (HOk out, σ3)
              /\ reify d' σ3 out = Some (VList vs)) as Hok.
  { intros σ2 locs vs Hl Hlocs Hlen Hreps.
    destruct (reify_output out σ2 locs vs Hlen Hlocs Hreps) as (d' & Hd').
    exists σ2, d'. split; [|exact Hd'].
    rewrite (hrun_bind
               (fun σ0 => Heap.format_loop (S (size_at σ0 segs)) segs 0 out σ0)
               _ σ1 tt σ2 Hl).
    reflexivity. }
  destruct osegs as [|ob|oz|ofl|ostr|items|es], vsegs as [|vb|vz|vf|vs|l|dv];
    simpl in Hrelsegs; try contradiction; try subst vb; try subst vz; try subst vf;
    try subst vs; cbn [PyVal.py_iter];
    try (rewrite res_bind_raise; apply (Hraise TypeError σ1);
         cbn [Heap.format_loop]; apply hrun_bind_raise;
         rewrite (iter_next_at _ _ _ _ Hos); reflexivity).
  - (* a string: its characters are strings, not segments *)
    rewrite res_bind_ok.
    destruct ostr as [|c ostr]; cbn [map]; [|rewrite format_loop_str, res_bind_raise].
    + cbn [Formatter.format_loop]. rewrite res_bind_ok.
      apply (Hok σ1 [] []); [|exact Hempty|exact Hout|constructor].
      cbn [Heap.format_loop].
      rewrite (hrun_bind _ _ σ1 None σ1)
        by (rewrite (iter_next_at _ _ _ _ Hos); reflexivity).
      reflexivity.
    + apply (Hraise TypeError (σ1 ++ [OStr [c]])).
      cbn [Heap.format_loop].
      rewrite (hrun_bind _ _ σ1 (Some (length σ1)) (σ1 ++ [OStr [c]]))
        by (rewrite (iter_next_at _ _ _ _ Hos); reflexivity).
      apply hrun_bind_raise. unfold Heap.format_segment.
      apply hrun_bind_raise. unfold Heap.py_getitem.
      rewrite (hrun_bind (deref (length σ1)) _ (σ1 ++ [OStr [c]]) (OStr [c])
                 (σ1 ++ [OStr [c]])); [reflexivity|].
      unfold deref. rewrite list_lookup_middle by reflexivity. reflexivity.
  - (* a list of segments *)
    rewrite res_bind_ok.
    pose proof (loop_list_agrees out segs items l 0 (S (size_at σ1 segs)) σ1 [] []
                  Hne Hout Hos Hrelsegs Hempty ltac:(constructor)) as Hloop.
    assert (length l < S (size_at σ1 segs))%nat as Hfuel.
    { unfold size_at. rewrite Hos. apply Forall2_length in Hrelsegs. lia. }
    specialize (Hloop Hfuel).
    destruct (Formatter.format_loop l []) as [final|e].
    + destruct Hloop as (σ2 & locs & Hl & Hlocs & Hreps).
      rewrite res_bind_ok.
      apply (Hok σ2 locs final Hl Hlocs); [|exact Hreps].
      eapply lookup_lt_Some. exact Hlocs.
    + destruct Hloop as (σ2 & Hl). rewrite res_bind_raise. apply (Hraise e σ2 Hl).
  - (* a mapping: its keys are strings, not segments *)
    rewrite res_bind_ok.
    destruct Hrelsegs as [|[k x] [k' y] es dv _ _]; cbn [map fst];
      [|rewrite format_loop_str, res_bind_raise].
    + cbn [Formatter.format_loop]. rewrite res_bind_ok.
      apply (Hok σ1 [] []); [|exact Hempty|exact Hout|constructor].
      cbn [Heap.format_loop].
      rewrite (hrun_bind _ _ σ1 None σ1)
        by (rewrite (iter_next_at _ _ _ _ Hos); reflexivity).
      reflexivity.
    + apply (Hraise TypeError (σ1 ++ [OStr k])).
      cbn [Heap.format_loop].
      rewrite (hrun_bind _ _ σ1 (Some (length σ1)) (σ1 ++ [OStr k]))
        by (rewrite (iter_next_at _ _ _ _ Hos); reflexivity).
      apply hrun_bind_raise. unfold Heap.format_segment.
      apply hrun_bind_raise. unfold Heap.py_getitem.
      rewrite (hrun_bind (deref (length σ1)) _ (σ1 ++ [OStr k]) (OStr k)
                 (σ1 ++ [OStr k])); [reflexivity|].
      unfold deref. rewrite list_lookup_middle by reflexivity. reflexivity.
Qed.

(** A tree read from the store is read again, at the same depth, from a
    store that has the same objects. *)
Lemma reify_stable σ σ' d :
  stable (length σ) σ σ' -> forall l v, reify d σ l = Some v -> reify d σ' l = Some v.
Proof.
  intros [_ Hsame]. induction d as [|d IH]; intros l v; [discriminate|].
  rewrite !reify_S. destruct (σ !! l) as [o|] eqn:Hl; [|discriminate].
  assert (σ' !! l = Some o) as ->.
  { etransitivity; [apply Hsame; eapply lookup_lt_Some; exact Hl | exact Hl]. }
  destruct o; try done.
  - intros (vs & Hm & ->)%fmap_Some. apply fmap_Some. exists vs. split; [|done].
    apply mapM_Some. apply mapM_Some_1 in Hm. eapply Forall2_impl; [exact Hm|].
    intros x y. apply IH.
  - intros (vs & Hm & ->)%fmap_Some. apply fmap_Some. exists vs. split; [|done].
    apply mapM_Some. apply mapM_Some_1 in Hm. eapply Forall2_impl; [exact Hm|].
    intros [k x] [k' y] Hxy. apply entry_inv in Hxy as [-> Hxy].
    apply entry_intro. apply IH. exact Hxy.
Qed.

(** C9: [format_output] does not change its input.  Every object that was
    in the store before the call (the result mapping, its list of segments,
    each segment, each [start], [end] and [text]) is the same object with the
    same content afterwards; the list the call returns is a new object; in a
    store without dangling references the call runs to its end; and when the
    argument reads as the tree [v], it reads as [v] after the call too, while
    the rounded times and the trimmed text of [Formatter.format_output v] are
    found in the new list (or the call raises what [Formatter.format_output]
    raises). *)
Theorem format_output_frame (tr : loc) (σ : store) :
  (forall l o, σ !! l = Some o -> snd (format_output tr σ) !! l = Some o)
  /\ (forall out, fst (format_output tr σ) = HOk out -> out = length σ /\ σ !! out = None)
  /\ (closed σ -> fst (format_output tr σ) <> OutOfFuel)
  /\ (forall d v, reify d σ tr = Some v ->
        reify d (snd (format_output tr σ)) tr = Some v
        /\ match Formatter.format_output v with
           | Ok w => fst (format_output tr σ) = HOk (length σ)
                     /\ exists d', reify d' (snd (format_output tr σ)) (length σ) = Some w
           | Raise e => fst (format_output tr σ) = HRaise e
           end).
Proof.
  split; [|split; [|split]].
  - intros l o Hl. destruct (format_output_stable tr σ) as [_ Hsame].
    rewrite Hsame; [exact Hl|]. eapply lookup_lt_Some. exact Hl.
  - intros out. unfold format_output. rewrite run_alloc. H_simpl.
    repeat match goal with
           | |- context [match ?x with (a, b) => _ end] => destruct x
           | |- context [match ?x with HOk _ => _ | HRaise _ => _ | OutOfFuel => _ end] =>
               destruct x
           | |- context [if ?c then _ else _] => destruct c
           end; simpl; try discriminate;
      intros [= <-]; (split; [reflexivity | apply lookup_ge_None; lia]).
  - apply format_output_total.
  - intros d v Hv. split.
    + apply (reify_stable σ); [apply format_output_stable | exact Hv].
    + pose proof (format_output_agrees σ tr v d Hv) as Hagree.
      destruct (Formatter.format_output v) as [w|e].
      * destruct Hagree as (σ' & d' & Hrun & Hw). rewrite Hrun.
        split; [reflexivity|]. exists d'. exact Hw.
      * destruct Hagree as (σ' & Hrun). rewrite Hrun. reflexivity.
Qed.

End HeapFacts.

(** ** The statements at work on a concrete machine *)

Module Scenarios.
Import Vocabulary Transcriber Cli.

(** The user interrupts the download: the call is left by
    [KeyboardInterrupt] and the temporary directory is gone. *)
Lemma temp_dir_removed_witness :
  fst (process_video interrupting_env demo_url None demo_state) = Raise KeyboardInterrupt
  /\ path_exists (fs (snd (process_video interrupting_env demo_url None demo_state)))
       (py "/tmp/tmpabc") = false
  /\ temp_dir (self (snd (process_video interrupting_env demo_url None demo_state)))
     = Some (py "/tmp/tmpabc").
Proof.
  split; [vm_compute; reflexivity|].
  apply (TempWorkflow.temp_dir_removed interrupting_env demo_url None demo_state
           (py "/tmp/tmpabc") (snd (mkdtemp interrupting_env demo_state))).
  vm_compute. reflexivity.
Defined.

(** The downloader exits with status 1: both workflows return [False] and
    write nothing. *)
Lemma adapter_failure_witness :
  fst (process_video failing_env demo_url (Some (py "out.json")) demo_state) = Ok false
  /\ fst (process_video_with_audio_save failing_env demo_url (py "x.wav")
            (Some (py "out.json")) (py "wav") demo_state) = Ok false.
Proof.
  destruct (FailureFacts.adapter_failure_reports_failure failing_env demo_url)
    as (_ & _ & HA & HB & _).
  split.
  - apply (HA (Some (py "out.json")) demo_state (py "/tmp/tmpabc")
              (snd (mkdtemp failing_env demo_state)) 1).
    + vm_compute. reflexivity.
    + vm_compute. reflexivity.
    + discriminate.
  - apply (HB (py "x.wav") (Some (py "out.json")) (py "wav") demo_state
              (py "/work/audio/x.wav") (Some (py "/work/result/out.json"))
              (snd (audio_save_paths failing_env (py "x.wav") (Some (py "out.json"))
                      demo_state))).
    + vm_compute. reflexivity.
    + left. exists 1. split; [vm_compute; reflexivity | discriminate].
Defined.

(** A successful run with [-a x.wav -o out.json]. *)
Lemma saved_workflow_outputs_witness :
  path_exists
    (fs (snd (process_video_with_audio_save demo_env demo_url (py "x.wav")
                (Some (py "out.json")) (py "wav") demo_state)))
    (py "/work/audio/x.wav") = true.
Proof.
  refine (proj1 (SavedWorkflow.saved_workflow_outputs demo_env demo_url (py "x.wav")
                   (Some (py "out.json")) (py "wav") demo_state
                   (snd (process_video_with_audio_save demo_env demo_url (py "x.wav")
                           (Some (py "out.json")) (py "wav") demo_state)) _)).
  vm_compute. reflexivity.
Defined.

(** [python transcriber.py URL -o out.json] and
    [python audio_extractor.py URL -o /work/audio/x.wav] on the working
    machine end with status 0; with [-o] a name that standard output cannot
    show, the extractor ends with status 1 although the audio was
    extracted. *)
Lemma exit_codes_witness :
  transcriber_main demo_env [demo_url; py "-o"; py "out.json"] demo_state = Some 0
  /\ Extractor.extractor_main demo_env (fun _ => [])
       [demo_url; py "-o"; py "/work/audio/x.wav"] demo_state = Some 0
  /\ Extractor.extractor_main odd_env (fun _ => [])
       [demo_url; py "-o"; odd_name] demo_state = Some 1
  /\ transcriber_main failing_env [demo_url; py "-o"; py "out.json"] demo_state = Some 1
  /\ transcriber_main interrupting_env [demo_url] demo_state = Some 1.
Proof.
  split; [|split; [|split; [|split; vm_compute; reflexivity]]].
  - pose proof (CliFacts.exit_codes demo_env (fun _ => [])
                  [demo_url; py "-o"; py "out.json"] demo_state) as (H & _).
    destruct (H (match parse_args transcriber_parser [demo_url; py "-o"; py "out.json"] with
                 | Some (Parsed args) => args
                 | _ => []
                 end)) as (code & Hmain & _ & Hzero).
    + vm_compute. reflexivity.
    + vm_compute. discriminate.
    + rewrite Hmain. f_equal. apply Hzero. eexists. split; vm_compute; reflexivity.
  - pose proof (CliFacts.exit_codes demo_env (fun _ => [])
                  [demo_url; py "-o"; py "/work/audio/x.wav"] demo_state) as (_ & H & _).
    destruct (H (match parse_args extractor_parser
                         [demo_url; py "-o"; py "/work/audio/x.wav"] with
                 | Some (Parsed args) => args
                 | _ => []
                 end)) as (code & Hmain & _ & Hzero).
    + vm_compute. reflexivity.
    + vm_compute. discriminate.
    + rewrite Hmain. f_equal. apply Hzero. eexists.
      split; [|split]; vm_compute; reflexivity.
  - pose proof (CliFacts.exit_codes odd_env (fun _ => [])
                  [demo_url; py "-o"; odd_name] demo_state) as (_ & H & _).
    destruct (H (match parse_args extractor_parser [demo_url; py "-o"; odd_name] with
                 | Some (Parsed args) => args
                 | _ => []
                 end)) as (code & Hmain & [Hcode | Hcode] & Hzero).
    + vm_compute. reflexivity.
    + vm_compute. discriminate.
    + exfalso. apply Hzero in Hcode as (st1 & _ & _ & Hacc).
      vm_compute in Hacc. discriminate.
    + rewrite Hmain, Hcode. reflexivity.
Defined.

(** [format_output] on the store [hello_store]: the result is a new list at
    address 14 that holds the two records, and the result mapping at address
    13 and its segments are as they were. *)
Lemma format_output_frame_witness :
  fst (Heap.format_output 13%nat hello_store) = Heap.HOk 14%nat
  /\ Heap.reify 4 (snd (Heap.format_output 13%nat hello_store)) 13%nat
     = Some (VDict (hello_segments ++ [(py "language", VStr (py "en"))]))
  /\ (exists d, Heap.reify d (snd (Heap.format_output 13%nat hello_store)) 14%nat
                = Some (VList [Formatter.record 0 1.24 (py "hello world");
                               Formatter.record 1.24 2.5 (py "bye")]))
  /\ fst (Heap.format_output 13%nat hello_store) <> Heap.OutOfFuel.
Proof.
  destruct (HeapFacts.format_output_frame 13%nat hello_store)
    as (_ & _ & Htotal & Hreads).
  destruct (Hreads 4%nat (VDict (hello_segments ++ [(py "language", VStr (py "en"))])))
    as [Hinput Houtput];
    [vm_compute; reflexivity|].
  split; [vm_compute; reflexivity|]. split; [exact Hinput|].
  split; [exact (proj2 Houtput)|].
  apply Htotal.
  intros l o Hl.
  do 14 (destruct l as [|l]; [injection Hl as <-; simpl; repeat constructor; simpl; lia|]).
  discriminate.
Defined.

End Scenarios.

(** ** Paths *)

Module PathFacts.
Import Vocabulary OsPath.

(** Where the last occurrence of a character is. *)
Lemma rfind_cases (c : N) (s : pystr) :
  ((c ∉ s) /\ rfind c s = -1)
  \/ (exists a b, s = a ++ c :: b /\ (c ∉ b) /\ rfind c s = Z.of_nat (length a)).
Proof.
  destruct (decide (c ∈ s)) as [Hin|Hout].
  - right. apply list_elem_of_split_r in Hin as (a & b & -> & Hb).
    exists a, b. split; [reflexivity|]. split; [exact Hb|].
    unfold rfind. rewrite rfind_from_last by exact Hb. lia.
  - left. split; [exact Hout|]. unfold rfind. apply rfind_from_absent. exact Hout.
Qed.

Lemma splitext_cases (p : pystr) :
  splitext p = (p, [])
  \/ exists a b, p = a ++ extsep :: b /\ (extsep ∉ b) /\ (sep ∉ b)
                 /\ splitext p = (a, extsep :: b).
Proof.
  unfold splitext.
  destruct (rfind_cases extsep p) as [[_ Hdot]|(a & b & Hp & Hb & Hdot)].
  - rewrite Hdot.
    destruct (rfind sep p <? -1) eqn:Hlt; [|left; reflexivity].
    exfalso. apply Z.ltb_lt in Hlt.
    destruct (rfind_cases sep p) as [[_ H]|(? & ? & _ & _ & H)]; lia.
  - rewrite Hdot.
    destruct ((rfind sep p <? Z.of_nat (length a))
              && has_stem p (rfind sep p + 1) (Z.of_nat (length a))) eqn:Hc;
      [|left; reflexivity].
    right. exists a, b. apply andb_true_iff in Hc as [Hlt _]. apply Z.ltb_lt in Hlt.
    split; [exact Hp|]. split; [exact Hb|]. split.
    + intros Hsep. apply list_elem_of_split_r in Hsep as (b1 & b2 & Hb12 & Hb2).
      assert (rfind sep p = Z.of_nat (length (a ++ extsep :: b1))) as Hr.
      { unfold rfind. rewrite Hp, Hb12.
        replace (a ++ extsep :: b1 ++ sep :: b2) with ((a ++ extsep :: b1) ++ sep :: b2)
          by (rewrite <- app_assoc; reflexivity).
        rewrite rfind_from_last by exact Hb2. lia. }
      rewrite length_app in Hr. simpl in Hr. lia.
    + unfold slice_to, slice_from. rewrite Nat2Z.id.
      rewrite Hp at 1 2. rewrite take_app_length, drop_app_length. reflexivity.
Qed.

(** X1: the two parts [os.path.splitext] cuts the output path into, as
    [extract_audio_to_file] uses them, put together give the path back; the
    extension is empty, or a dot followed by characters that are neither a
    dot nor a slash; and the file the downloader is expected to leave,
    [base_path + "." + audio_format], is the requested path exactly when the
    extension of the requested path is [audio_format]. *)
Theorem splitext_parts (p : pystr) :
  fst (splitext p) ++ snd (splitext p) = p
  /\ (snd (splitext p) = []
      \/ exists e, snd (splitext p) = extsep :: e /\ (extsep ∉ e) /\ (sep ∉ e))
  /\ (forall fmt, fst (splitext p) ++ py "." ++ fmt = p <-> snd (splitext p) = py "." ++ fmt).
Proof.
  assert (fst (splitext p) ++ snd (splitext p) = p) as Hparts.
  { destruct (splitext_cases p) as [->|(a & b & Hp & _ & _ & ->)]; simpl.
    - apply app_nil_r.
    - symmetry. exact Hp. }
  split; [exact Hparts|]. split.
  - destruct (splitext_cases p) as [->|(a & b & Hp & Hdot & Hsep & ->)]; simpl.
    + left. reflexivity.
    + right. exists b. auto.
  - intros fmt. split.
    + intros H. rewrite <- Hparts in H at 2. apply app_inv_head in H. symmetry. exact H.
    + intros H. rewrite <- H. exact Hparts.
Qed.

Lemma basename_join (d name : pystr) : sep ∉ name -> basename (join d name) = name.
Proof.
  intros Hname. unfold join.
  destruct (startswith [sep] name) eqn:Hs.
  - apply basename_plain. exact Hname.
  - destruct (eqb_str d [] || endswith [sep] d) eqn:Hd.
    + apply orb_true_iff in Hd as [Hd|Hd].
      { unfold eqb_str in Hd. apply bool_decide_eq_true_1 in Hd. subst d.
        apply basename_plain. exact Hname. }
      unfold endswith in Hd.
      destruct (rev d) as [|c r] eqn:Hr; [discriminate|].
      cbn -[N.eqb] in Hd. apply andb_true_iff in Hd as [Hc _]. apply N.eqb_eq in Hc. subst c.
      apply (f_equal (@rev N)) in Hr. rewrite rev_involutive in Hr. simpl in Hr.
      rewrite Hr, <- app_assoc. simpl. apply basename_app. exact Hname.
    + simpl. apply basename_app. exact Hname.
Qed.

End PathFacts.

(** ** The records of the formatter *)

Module RecordFacts.
Import Vocabulary Formatter FormatterFacts.

Lemma lstrip_fixed (s : pystr) :
  (forall c t, s = c :: t -> is_space c = false) -> lstrip s = s.
Proof.
  destruct s as [|c t]; [reflexivity|].
  intros H. simpl. rewrite (H c t eq_refl). reflexivity.
Qed.

Lemma rstrip_fixed (s : pystr) :
  (forall t c, s = t ++ [c] -> is_space c = false) -> rstrip s = s.
Proof.
  intros H. unfold rstrip. rewrite lstrip_fixed; [apply rev_involutive|].
  intros c t Hr. apply (H (rev t) c).
  rewrite <- (rev_involutive s), Hr. reflexivity.
Qed.

(** Stripping a second time changes nothing. *)
Lemma strip_idempotent (s : pystr) : strip (strip s) = strip s.
Proof.
  destruct (strip_ends s) as [Hhead Hlast].
  unfold strip at 1. rewrite (lstrip_fixed (strip s) Hhead).
  apply rstrip_fixed. exact Hlast.
Qed.

Lemma format_segment_inv seg r :
  format_segment seg = Ok r ->
  exists start end_ text start' end',
    py_getitem seg (py "start") = Ok start /\ py_round start 2 = Ok start'
    /\ py_getitem seg (py "end") = Ok end_ /\ py_round end_ 2 = Ok end'
    /\ py_getitem seg (py "text") = Ok (VStr text)
    /\ r = VDict [(py "timestamp", VDict [(py "start", start'); (py "end", end')]);
                  (py "sentence", VStr (strip text))].
Proof.
  unfold format_segment. res_simpl.
  destruct (py_getitem seg _) as [start|]; [simpl|discriminate].
  destruct (py_round start 2) as [start'|] eqn:Hs; [simpl|discriminate].
  destruct (py_getitem seg _) as [end_|]; [simpl|discriminate].
  destruct (py_round end_ 2) as [end'|] eqn:He; [simpl|discriminate].
  destruct (py_getitem seg _) as [text|]; [simpl|discriminate].
  destruct text; try discriminate. simpl.
  intros [= <-]. exists start, end_, s, start', end'. auto 10.
Qed.

(** The loop, item by item. *)
Lemma format_loop_items segs : forall acc,
  (forall out, format_loop segs acc = Ok out <->
     exists rs, out = acc ++ rs /\ Forall2 (fun seg r => format_segment seg = Ok r) segs rs)
  /\ (forall e, format_loop segs acc = Raise e <->
        exists i seg, segs !! i = Some seg /\ format_segment seg = Raise e
          /\ forall j s, (j < i)%nat -> segs !! j = Some s ->
                         exists r, format_segment s = Ok r).
Proof.
  induction segs as [|seg segs IH]; intros acc.
  - split.
    + intros out. simpl. split.
      * intros [= <-]. exists []. split; [symmetry; apply app_nil_r | constructor].
      * intros (rs & -> & Hrs). inversion Hrs. rewrite app_nil_r. reflexivity.
    + intros e. simpl. split; [discriminate|]. intros (i & s & Hi & _). discriminate.
  - cbn [format_loop]. destruct (format_segment seg) as [r|e0] eqn:Hseg.
    + change (mbind ?k (Ok r)) with (k r). cbv beta.
      destruct (IH (acc ++ [r])) as [IHok IHraise]. split.
      * intros out. rewrite IHok. split.
        -- intros (rs & -> & Hrs). exists (r :: rs). split.
           ++ rewrite <- app_assoc. reflexivity.
           ++ constructor; assumption.
        -- intros (rs & -> & Hrs). inversion Hrs as [|? r' ? rs' Hr' Hrs']; subst.
           assert (r' = r) as -> by congruence.
           exists rs'. split; [rewrite <- app_assoc; reflexivity | exact Hrs'].
      * intros e. rewrite IHraise. split.
        -- intros (i & s & Hi & Hs & Hbefore). exists (S i), s.
           split; [exact Hi|]. split; [exact Hs|].
           intros [|j] s' Hj Hl.
           ++ injection Hl as <-. eauto.
           ++ apply (Hbefore j s'); [lia | exact Hl].
        -- intros ([|i] & s & Hi & Hs & Hbefore).
           ++ injection Hi as <-. congruence.
           ++ exists i, s. split; [exact Hi|]. split; [exact Hs|].
              intros j s' Hj Hl. apply (Hbefore (S j) s'); [lia | exact Hl].
    + change (mbind ?k (@Raise value e0)) with (@Raise (list value) e0). split.
      * intros out. split; [discriminate|].
        intros (rs & _ & Hrs). inversion Hrs; subst. congruence.
      * intros e. split.
        -- intros [= <-]. exists 0%nat, seg. split; [reflexivity|].
           split; [exact Hseg|]. intros j s Hj. lia.
        -- intros ([|i] & s & Hi & Hs & Hbefore).
           ++ injection Hi as <-. congruence.
           ++ destruct (Hbefore 0%nat seg) as (r & Hr); [lia | reflexivity | congruence].
Qed.

Lemma format_output_of_list d segs :
  dict_get (py "segments") d = Some (VList segs) ->
  format_output (VDict d) = (out ← format_loop segs []; Ok (VList out)).
Proof.
  intros Hd. unfold format_output.
  rewrite (dict_get_nonempty _ _ _ Hd). cbn [negb].
  unfold py_not_in, py_contains, py_getitem. rewrite Hd. reflexivity.
Qed.

(** X3: [format_output] on a mapping whose [segments] entry is a list
    returns a list exactly when every segment can be formatted, and then one
    record per segment, in order; it raises [e] exactly when [e] is what the
    first segment that cannot be formatted raises.  One bad segment loses
    the whole result: there is no partial list. *)
Theorem format_output_all_or_nothing (d : list (pystr * value)) (segs : list value) :
  dict_get (py "segments") d = Some (VList segs) ->
  (forall records,
      format_output (VDict d) = Ok (VList records)
      <-> Forall2 (fun seg r => format_segment seg = Ok r) segs records)
  /\ (forall e,
        format_output (VDict d) = Raise e
        <-> exists i seg, segs !! i = Some seg /\ format_segment seg = Raise e
              /\ forall j s, (j < i)%nat -> segs !! j = Some s ->
                             exists r, format_segment s = Ok r)
  /\ (forall records,
        format_output (VDict d) = Ok (VList records) -> length records = length segs).
Proof.
  intros Hd. rewrite (format_output_of_list d segs Hd).
  destruct (format_loop_items segs []) as [Hok Hraise].
  assert (forall records,
            (out ← format_loop segs []; Ok (VList out)) = Ok (VList records)
            <-> Forall2 (fun seg r => format_segment seg = Ok r) segs records) as H1.
  { intros records. split.
    - intros Heq.
      assert (format_loop segs [] = Ok records) as Hl.
      { destruct (format_loop segs []) as [out|e]; [|discriminate].
        injection Heq as ->. reflexivity. }
      apply Hok in Hl as (rs & -> & Hrs). exact Hrs.
    - intros Hrs.
      assert (format_loop segs [] = Ok records) as -> by (apply Hok; exists records; auto).
      reflexivity. }
  split; [exact H1|]. split.
  - intros e. rewrite <- Hraise.
    destruct (format_loop segs []) as [out|e0]; [split; discriminate|].
    split; intros [= <-]; reflexivity.
  - intros records Hr. apply H1 in Hr. symmetry. eapply Forall2_length. exact Hr.
Qed.

(** X4: whatever the input, every record [format_output] returns holds under
    [sentence] a string that neither starts nor ends with whitespace, which
    stripping again leaves as it is. *)
Theorem sentences_are_stripped (v out : value) :
  format_output v = Ok out ->
  exists records,
    out = VList records
    /\ Forall (fun r => exists s, sentence_of r s /\ stripped s) records.
Proof.
  assert (forall segs acc out',
            Forall (fun r => exists s, sentence_of r s /\ stripped s) acc ->
            format_loop segs acc = Ok out' ->
            Forall (fun r => exists s, sentence_of r s /\ stripped s) out') as Hloop.
  { induction segs as [|seg segs IH]; intros acc out' Hacc; simpl.
    - intros [= <-]. exact Hacc.
    - res_simpl. destruct (format_segment seg) as [r|] eqn:Hr; [|discriminate].
      apply IH. apply Forall_app. split; [exact Hacc|].
      constructor; [|constructor].
      apply format_segment_inv in Hr as (? & ? & text & ? & ? & _ & _ & _ & _ & _ & ->).
      exists (strip text). split; [reflexivity|]. split; [apply strip_idempotent|].
      apply strip_ends. }
  unfold format_output. res_simpl.
  destruct (if negb (truthy v) then _ else _) as [[]|]; simpl; [| |discriminate].
  - intros [= <-]. exists []. split; [reflexivity | constructor].
  - destruct (py_getitem v _) as [segments|]; [simpl|discriminate].
    destruct (py_iter segments) as [items|]; [simpl|discriminate].
    destruct (format_loop items []) as [out'|] eqn:Hl; [simpl|discriminate].
    intros [= <-]. exists out'. split; [reflexivity|].
    eapply Hloop; [|exact Hl]. constructor.
Qed.

(** X24: a start time that is a NaN or an infinity is not touched by the
    rounding: the record holds it as it came, and [json.dumps] writes it as
    [NaN], [Infinity] or [-Infinity], which are not JSON numbers. *)
Theorem non_finite_times_pass_through (seg : value) (s : segment_data) (level : nat) :
  is_segment seg s ->
  non_finite (seg_start s) ->
  format_segment seg
  = Ok (record (seg_start s) (PyFloat.float_round (seg_end s) 2) (strip (seg_text s)))
  /\ (Json.encode level (VFloat (seg_start s)) = py "NaN"
      \/ Json.encode level (VFloat (seg_start s)) = py "Infinity"
      \/ Json.encode level (VFloat (seg_start s)) = py "-Infinity").
Proof.
  intros Hseg Hx. rewrite (format_segment_record _ _ Hseg). unfold record_of.
  unfold non_finite in Hx. split.
  - do 2 f_equal. unfold PyFloat.float_round.
    destruct (Prim2SF (seg_start s)); try contradiction; reflexivity.
  - destruct level; cbn [Json.encode]; unfold Json.floatstr;
      (destruct (Prim2SF (seg_start s)) as [| [] | |]; try contradiction; auto).
Qed.

End RecordFacts.

(** ** The result of the formatter in the store *)

Module SharingFacts.
Import Vocabulary Heap HeapFacts.

Lemma reify_lookup d σ (l : loc) v : reify d σ l = Some v -> (l < length σ)%nat.
Proof.
  destruct d as [|d]; [discriminate|]. rewrite reify_S.
  destruct (σ !! l) eqn:Hl; [|discriminate]. intros _.
  eapply lookup_lt_Some. exact Hl.
Qed.

(** X5: [format_output] can be called again on the same result: both calls
    return, each a list of its own, the second one allocated after the
    first; and after the second call both lists read as the value the
    formatter gives for the input. *)
Theorem format_output_repeatable (σ : store) (tr : loc) (v w : value) (d : nat) :
  reify d σ tr = Some v ->
  Formatter.format_output v = Ok w ->
  let σ1 := snd (Heap.format_output tr σ) in
  let σ2 := snd (Heap.format_output tr σ1) in
  fst (Heap.format_output tr σ) = HOk (length σ)
  /\ fst (Heap.format_output tr σ1) = HOk (length σ1)
  /\ (length σ < length σ1)%nat
  /\ exists d1 d2, reify d1 σ2 (length σ) = Some w /\ reify d2 σ2 (length σ1) = Some w.
Proof.
  intros Hv Hw σ1 σ2.
  pose proof (format_output_agrees σ tr v d Hv) as H1. rewrite Hw in H1.
  destruct H1 as (σ' & d1 & Hrun1 & Hread1).
  assert (σ1 = σ') as Hσ1 by (unfold σ1; rewrite Hrun1; reflexivity).
  assert (reify d σ1 tr = Some v) as Hv1.
  { apply (reify_stable σ); [apply format_output_stable | exact Hv]. }
  pose proof (format_output_agrees σ1 tr v d Hv1) as H2. rewrite Hw in H2.
  destruct H2 as (σ'' & d2 & Hrun2 & Hread2).
  assert (σ2 = σ'') as Hσ2 by (unfold σ2; rewrite Hrun2; reflexivity).
  split; [rewrite Hrun1; reflexivity|]. split; [rewrite Hrun2; reflexivity|].
  split.
  - rewrite Hσ1. eapply reify_lookup. exact Hread1.
  - exists d1, d2. split.
    + apply (reify_stable σ1); [apply format_output_stable|]. rewrite Hσ1. exact Hread1.
    + rewrite Hσ2. exact Hread2.
Qed.

Lemma hbind_ok_inv {A B} (m : HM A) (k : A -> HM B) σ b σ' :
  mbind k m σ = (HOk b, σ') ->
  exists a σ1, m σ = (HOk a, σ1) /\ k a σ1 = (HOk b, σ').
Proof.
  unfold mbind, HM_bind, hbind. destruct (m σ) as [[a|e|] σ1]; try discriminate. eauto.
Qed.

Section Alias.
Context (σ : store).

Lemma separate_alloc σ1 o :
  separate σ σ1 -> Forall (shareable σ) (refs o) ->
  separate σ (σ1 ++ [o]) /\ shareable σ (length σ1).
Proof.
  intros [Hst Hnew] Ho. split; [split|].
  - eapply stable_trans; [exact Hst|]. apply hkeeps_alloc. destruct Hst. lia.
  - intros l o' Hl Hlook.
    destruct (decide (l < length σ1)%nat) as [Hlt|Hge].
    + rewrite lookup_app_l in Hlook by exact Hlt. eapply Hnew; eassumption.
    + assert (l = length σ1) as ->.
      { apply lookup_lt_Some in Hlook. rewrite length_app in Hlook. simpl in Hlook. lia. }
      rewrite list_lookup_middle in Hlook by reflexivity. injection Hlook as <-. exact Ho.
  - left. destruct Hst. lia.
Qed.

Lemma shareable_at σ1 (x : loc) o :
  separate σ σ1 -> σ1 !! x = Some o -> ~ mutable o -> shareable σ x.
Proof.
  intros [[_ Hsame] _] Hx Ho.
  destruct (decide (x < length σ)%nat) as [Hlt|Hge]; [|left; lia].
  right. exists o. split; [|exact Ho]. rewrite <- Hsame by exact Hlt. exact Hx.
Qed.

Lemma separate_py_round (x : loc) nd σ1 l σ2 :
  py_round x nd σ1 = (HOk l, σ2) -> separate σ σ1 ->
  separate σ σ2 /\ shareable σ l.
Proof.
  intros H Hsep. unfold py_round in H.
  apply hbind_ok_inv in H as (o & σ1' & Hd & H). apply deref_inv in Hd as [-> Hx].
  destruct o; try discriminate.
  - injection H as <- <-. apply separate_alloc; [exact Hsep | constructor].
  - injection H as <- <-. split; [exact Hsep|].
    eapply shareable_at; [exact Hsep | exact Hx | auto].
  - injection H as <- <-. apply separate_alloc; [exact Hsep | constructor].
Qed.

Lemma separate_py_strip (x : loc) σ1 l σ2 :
  py_strip x σ1 = (HOk l, σ2) -> separate σ σ1 ->
  separate σ σ2 /\ shareable σ l.
Proof.
  intros H Hsep. unfold py_strip in H.
  apply hbind_ok_inv in H as (o & σ1' & Hd & H). apply deref_inv in Hd as [-> Hx].
  destruct o; try discriminate.
  destruct (eqb_str (strip s) s).
  - injection H as <- <-. split; [exact Hsep|].
    eapply shareable_at; [exact Hsep | exact Hx | auto].
  - injection H as <- <-. apply separate_alloc; [exact Hsep | constructor].
Qed.

Lemma separate_format_segment (seg : loc) σ1 l σ2 :
  format_segment seg σ1 = (HOk l, σ2) -> separate σ σ1 ->
  separate σ σ2 /\ (length σ <= l)%nat.
Proof.
  intros H Hsep. unfold format_segment in H.
  apply hbind_ok_inv in H as (start & σa & Hg & H).
  apply py_getitem_inv in Hg as [-> _].
  apply hbind_ok_inv in H as (start' & σb & Hr & H).
  destruct (separate_py_round _ _ _ _ _ Hr Hsep) as [Hsepb Hstart].
  apply hbind_ok_inv in H as (end_ & σc & Hg & H).
  apply py_getitem_inv in Hg as [-> _].
  apply hbind_ok_inv in H as (end' & σd & Hr' & H).
  destruct (separate_py_round _ _ _ _ _ Hr' Hsepb) as [Hsepd Hend].
  rewrite run_alloc in H.
  destruct (separate_alloc σd (ODict [(py "start", start'); (py "end", end')]) Hsepd)
    as [Hsepe Hts]; [simpl; auto|].
  apply hbind_ok_inv in H as (text & σf & Hg & H).
  apply py_getitem_inv in Hg as [-> _].
  apply hbind_ok_inv in H as (sentence & σg & Hs & H).
  destruct (separate_py_strip _ _ _ _ Hs Hsepe) as [Hsepg Hsent].
  injection H as <- <-.
  destruct (separate_alloc σg (ODict [(py "timestamp", length σd); (py "sentence", sentence)])
              Hsepg) as [Hseph _]; [simpl; auto|].
  split; [exact Hseph|]. destruct Hsepg as [[Hlen _] _]. lia.
Qed.

Lemma separate_iter_next (it : loc) i σ1 r σ2 :
  iter_next it i σ1 = (HOk r, σ2) -> separate σ σ1 -> separate σ σ2.
Proof.
  intros H Hsep. unfold iter_next in H.
  apply hbind_ok_inv in H as (o & σ1' & Hd & H). apply deref_inv in Hd as [-> Hx].
  destruct o; try discriminate.
  - destruct (s !! i); [|injection H as _ <-; exact Hsep].
    rewrite run_alloc in H. injection H as _ <-.
    apply separate_alloc; [exact Hsep | constructor].
  - injection H as _ <-. exact Hsep.
  - destruct (entries !! i); [|injection H as _ <-; exact Hsep].
    rewrite run_alloc in H. injection H as _ <-.
    apply separate_alloc; [exact Hsep | constructor].
Qed.

Lemma separate_list_append (lst x : loc) σ1 σ2 :
  list_append lst x σ1 = (HOk tt, σ2) -> separate σ σ1 ->
  (length σ <= lst)%nat -> (length σ <= x)%nat -> separate σ σ2.
Proof.
  intros H [Hst Hnew] Hlst Hx. unfold list_append in H.
  destruct (σ1 !! lst) as [[]|] eqn:Hl; try discriminate. injection H as <-.
  split.
  - eapply stable_trans; [exact Hst|]. split.
    + rewrite length_insert. lia.
    + intros l Hlt. apply list_lookup_insert_ne. lia.
  - intros l o Hge Hlook.
    destruct (decide (l = lst)) as [->|Hne].
    + rewrite list_lookup_insert_eq in Hlook by (eapply lookup_lt_Some; exact Hl).
      injection Hlook as <-. simpl. apply Forall_app. split.
      * apply (Hnew lst _ Hlst Hl).
      * constructor; [left; exact Hx | constructor].
    + rewrite list_lookup_insert_ne in Hlook by auto. eapply Hnew; eassumption.
Qed.

Lemma separate_format_loop fuel : forall (segs : loc) i (out : loc) σ1 σ2,
  format_loop fuel segs i out σ1 = (HOk tt, σ2) -> separate σ σ1 ->
  (length σ <= out)%nat -> separate σ σ2.
Proof.
  induction fuel as [|fuel IH]; intros segs i out σ1 σ2 H Hsep Hout; [discriminate|].
  cbn [format_loop] in H.
  apply hbind_ok_inv in H as (next & σa & Hn & H).
  pose proof (separate_iter_next _ _ _ _ _ Hn Hsep) as Hsepa.
  destruct next as [seg|]; [|injection H as <-; exact Hsepa].
  apply hbind_ok_inv in H as (rec & σb & Hf & H).
  destruct (separate_format_segment _ _ _ _ Hf Hsepa) as [Hsepb Hrec].
  apply hbind_ok_inv in H as ([] & σc & Ha & H).
  pose proof (separate_list_append _ _ _ _ Ha Hsepb Hout Hrec) as Hsepc.
  eapply IH; eassumption.
Qed.

Lemma separate_format_output (tr out : loc) σ' :
  Heap.format_output tr σ = (HOk out, σ') -> out = length σ /\ separate σ σ'.
Proof.
  intros H. unfold Heap.format_output in H. rewrite run_alloc in H.
  assert (separate σ (σ ++ [OList []])) as Hsep0.
  { apply separate_alloc; [|constructor]. split; [apply stable_refl|].
    intros l o Hl Hlook. apply lookup_lt_Some in Hlook. lia. }
  apply hbind_ok_inv in H as (o & σa & Hd & H). apply deref_inv in Hd as [-> _].
  apply hbind_ok_inv in H as (stop & σb & Hstop & H).
  assert (σb = σ ++ [OList []]) as ->.
  { destruct (negb (truthy o)); [injection Hstop as _ <-; reflexivity|].
    apply hbind_ok_inv in Hstop as (b & σc & Hc & Hstop). injection Hstop as _ <-.
    pose proof (py_contains_state (py "segments") tr (σ ++ [OList []])) as Hs.
    rewrite Hc in Hs. exact Hs. }
  destruct stop.
  - injection H as <- <-. auto.
  - apply hbind_ok_inv in H as (segs & σc & Hg & H).
    apply py_getitem_inv in Hg as [-> _].
    apply hbind_ok_inv in H as ([] & σd & Hl & H). injection H as <- <-.
    split; [reflexivity|].
    eapply separate_format_loop; [exact Hl | exact Hsep0 | lia].
Qed.

Lemma shareable_reaches σ' (l l' : loc) :
  separate σ σ' -> reaches σ' l l' -> shareable σ l -> shareable σ l'.
Proof.
  intros [[_ Hsame] Hnew] Hreach. induction Hreach as [l|l o l' l'' Hl Hin _ IH]; [auto|].
  intros Hs. apply IH. destruct Hs as [Hge | (o' & Ho' & Himm)].
  - pose proof (Hnew l o Hge Hl) as Hall. rewrite Forall_forall in Hall. apply Hall. exact Hin.
  - assert (Some o = Some o') as [= ->].
    { rewrite <- Hl, <- Ho'. apply Hsame. eapply lookup_lt_Some. exact Ho'. }
    destruct o'; simpl in *; try (apply elem_of_nil in Hin; contradiction);
      exfalso; apply Himm; exact I.
Qed.

End Alias.

(** X6: the list [format_output] returns shares no list and no mapping with
    the store it was called on: every object that can be changed in place
    and is reached from the result was made by the call.  (The strings and
    numbers it may share with the input cannot be changed.) *)
Theorem format_output_result_is_new (tr out : loc) (σ σ' : store) :
  Heap.format_output tr σ = (HOk out, σ') ->
  forall l o, reaches σ' out l -> σ' !! l = Some o -> mutable o -> (length σ <= l)%nat.
Proof.
  intros H l o Hreach Hl Hmut.
  destruct (separate_format_output σ tr out σ' H) as [-> Hsep].
  destruct (shareable_reaches σ σ' _ _ Hsep Hreach) as [Hge | (o' & Ho' & Himm)].
  - left. lia.
  - exact Hge.
  - exfalso. apply Himm. destruct Hsep as [[_ Hsame] _].
    assert (Some o = Some o') as [= <-]; [|exact Hmut].
    rewrite <- Hl, <- Ho'. apply Hsame. eapply lookup_lt_Some. exact Ho'.
Qed.

End SharingFacts.

(** ** Exceptions of the adapters and workflows *)

Module AdapterFacts.
Import Vocabulary OsPath Transcriber StmtLogic ExitFacts TempWorkflow.

Section Adapters.
Context (E : env).

Lemma not_exit_interrupt e : not_exit e -> is_Exception e = false -> interrupt e.
Proof. destruct e; simpl; try discriminate; [reflexivity | contradiction]. Qed.

(** What [except Exception] lets through is no [Exception]. *)
Lemma except_Exception_passes {A} (m : M A) (a : A) st e st' :
  try_catch m (except_Exception (fun _ => ret a)) st = (Raise e, st') ->
  is_Exception e = false.
Proof.
  unfold try_catch, except_Exception.
  destruct (m st) as [[x|e0] st1]; [discriminate|].
  destruct (is_Exception e0) eqn:He; [discriminate|].
  intros [= <- _]. exact He.
Qed.

Lemma raises_interrupt_guarded {A} (m : M A) (a : A) :
  raises not_exit (try_catch m (except_Exception (fun _ => ret a))) ->
  raises interrupt (try_catch m (except_Exception (fun _ => ret a))).
Proof.
  intros Hm st e st' H. apply not_exit_interrupt.
  - eapply Hm. exact H.
  - eapply except_Exception_passes. exact H.
Qed.

(** X7: the adapters and the saved-audio workflow return a value on every
    failure; the only exception that leaves [download_audio],
    [extract_audio_to_file], [transcribe_audio], [transcribe_local_audio] and
    [process_video_with_audio_save] is the user's [KeyboardInterrupt]. *)
Theorem adapters_return_unless_interrupted :
  (forall url p, raises interrupt (download_audio E url p))
  /\ (forall url p fmt, raises interrupt (extract_audio_to_file E url p fmt))
  /\ (forall p, raises interrupt (transcribe_audio E p))
  /\ (forall p, raises interrupt (transcribe_local_audio E p))
  /\ (forall url p out fmt, raises interrupt (process_video_with_audio_save E url p out fmt)).
Proof.
  split; [|split; [|split; [|split]]].
  - intros url p. apply raises_interrupt_guarded, raises_download_audio.
  - intros url p fmt. apply raises_interrupt_guarded, raises_extract_audio_to_file.
  - intros p. apply raises_interrupt_guarded, raises_transcribe_audio.
  - intros p. unfold transcribe_local_audio. apply raises_bind; [apply raises_get|].
    intros st. destruct (negb _); [apply raises_ret|].
    apply raises_interrupt_guarded, raises_transcribe_audio.
  - intros url p out fmt.
    apply raises_interrupt_guarded, raises_process_video_with_audio_save.
Qed.

(** X8: [process_video] is left by an exception in two cases only: when
    [tempfile.mkdtemp()], which is called before the [try] block, raises
    (that exception leaves the call, and nothing has been changed), and when
    the user interrupts the run after the directory was made. *)
Theorem process_video_exceptions url out st e st' :
  process_video E url out st = (Raise e, st') ->
  (exists st0, mkdtemp E st = (Raise e, st0) /\ st' = st)
  \/ (exists d st0, mkdtemp E st = (Ok d, st0) /\ e = KeyboardInterrupt).
Proof.
  intros H. destruct (mkdtemp E st) as [[d|e0] st0] eqn:Hmk.
  - right. exists d, st0. split; [reflexivity|].
    destruct (process_video_run E url out st d st0 Hmk) as (r & st2 & Hbody & _ & Hrun).
    rewrite Hrun in H. injection H as -> _.
    apply not_exit_interrupt.
    + eapply (raises_process_video E url out). exact Hrun.
    + eapply except_Exception_passes. exact Hbody.
  - left. exists st0. unfold process_video in H.
    rewrite (run_bind_raise _ _ _ _ _ Hmk) in H. injection H as <- <-.
    split; [reflexivity|].
    unfold mkdtemp in Hmk. destruct (eqb_str _ _); [injection Hmk as _ <-; reflexivity|].
    destruct (fs st !! _); [injection Hmk as _ <-; reflexivity | discriminate].
Qed.

End Adapters.

End AdapterFacts.

(** ** [extract_audio_to_file] *)

Module ExtractFacts.
Import Vocabulary OsPath Transcriber StmtLogic ExitFacts TempWorkflow.

#[export] Instance silent_preorder : PreOrder silent.
Proof.
  split.
  - intros st. split; reflexivity.
  - intros a b c [H1 H2] [H3 H4]. split; congruence.
Qed.

Lemma silent_makedirs p : respects silent (makedirs p).
Proof.
  intros st. unfold makedirs. destruct (eqb_str p []); [reflexivity|].
  destruct (mkdir_chain _ _); [split|]; reflexivity.
Qed.

Lemma silent_rename a b : respects silent (rename a b).
Proof.
  intros st. unfold rename.
  repeat match goal with
         | |- context [if ?c then _ else _] => destruct c
         | |- context [match ?o with Some _ => _ | None => _ end] => destruct o
         | |- context [match ?n with File _ => _ | Dir => _ end] => destruct n
         end; split; reflexivity.
Qed.

Lemma silent_unless_exists p m : respects silent m -> respects silent (unless_exists p m).
Proof.
  intros Hm st. unfold unless_exists. rewrite run_get.
  destruct (path_exists _ _); [reflexivity | apply Hm].
Qed.

Section Extract.
Context (E : env).

Lemma subprocess_run_ok cmd st st' :
  subprocess_run E cmd st = (Ok tt, st') ->
  status (run_process E cmd (fs st)) = Exited 0 /\ st' = after_run E cmd st.
Proof.
  unfold subprocess_run, after_run.
  destruct (status _) as [c| | |]; try discriminate.
  destruct (Z.eqb_spec c 0) as [->|]; [|discriminate].
  intros [= <-]. split; reflexivity.
Qed.

(** After [os.rename(src, dst)] there is something at [dst]. *)
Lemma rename_dst_exists src dst st st' :
  rename src dst st = (Ok tt, st') -> path_exists (fs st') dst = true.
Proof.
  unfold rename.
  destruct (eqb_str dst []) eqn:Hdst; [discriminate|]. simpl.
  destruct (eqb_str src []) eqn:Hsrc; [discriminate|].
  assert (forall (f : filesystem) n, f !! dst = Some n -> path_exists f dst = true) as Hex.
  { intros f n Hn. unfold path_exists. rewrite Hn, Hdst. reflexivity. }
  destruct (fs st !! src) as [[c|]|] eqn:Hs; [| |discriminate].
  - destruct (fs st !! dst) as [[c'|]|] eqn:Hd; try discriminate;
      (destruct (trailing_sep src || trailing_sep dst); [discriminate|]);
      (destruct (eqb_str src dst) eqn:Heq;
       [intros [= <-]; unfold eqb_str in Heq; apply bool_decide_eq_true_1 in Heq;
        subst dst; eapply Hex; exact Hs
       |destruct (parent_ok _ _); [|discriminate];
        intros [= <-]; eapply Hex; simpl; apply lookup_insert_eq]).
  - assert (forall o : option node,
      (if eqb_str src dst then (Ok tt, st)
       else if inside src dst then (Raise OSError, st)
       else if match o with Some _ => has_children (fs st) dst | None => false end
       then (Raise OSError, st)
       else if trailing_sep dst && negb (OsPath.all_sep dst)
               && path_exists (fs st) (untrail dst)
       then (Raise OSError, st)
       else if parent_ok (fs st) dst
       then (Ok tt, set_fs (fun f =>
                list_to_map (map (fun kv => (rename_key src dst (fst kv), snd kv))
                                 (map_to_list (delete dst f)))) st)
       else (Raise FileNotFoundError, st)) = (Ok tt, st') ->
      path_exists (fs st') dst = true) as Hdir.
    { intros o. destruct (eqb_str src dst) eqn:Heq.
      - intros [= <-]. unfold eqb_str in Heq. apply bool_decide_eq_true_1 in Heq.
        subst dst. eapply Hex. exact Hs.
      - destruct (inside src dst); [discriminate|].
        destruct (match o with Some _ => _ | None => _ end); [discriminate|].
        destruct (_ && path_exists _ _); [discriminate|].
        destruct (parent_ok _ _); [|discriminate].
        intros [= <-]. simpl. unfold path_exists. rewrite Hdst.
        match goal with |- match ?x with _ => _ end = _ => destruct x eqn:Hl end;
          [reflexivity|].
        exfalso. apply not_elem_of_list_to_map in Hl. apply Hl.
        apply list_elem_of_fmap. exists (dst, Dir). split; [reflexivity|].
        apply list_elem_of_fmap. exists (src, Dir). split.
        + simpl. unfold rename_key, inside. unfold eqb_str at 1.
          rewrite bool_decide_eq_true_2 by reflexivity. simpl.
          rewrite drop_all, app_nil_r. reflexivity.
        + apply elem_of_map_to_list. rewrite lookup_delete_ne; [exact Hs|].
          intros ->. unfold eqb_str in Heq.
          rewrite bool_decide_eq_true_2 in Heq by reflexivity. discriminate. }
    destruct (fs st !! dst) as [[c'|]|]; [discriminate | apply (Hdir (Some Dir)) | apply (Hdir None)].
Qed.

(** The body of [extract_audio_to_file] up to the launch of the downloader. *)
Lemma extract_success_inv url p fmt st st' :
  extract_audio_to_file E url p fmt st = (Ok true, st') ->
  let base_path := fst (splitext p) in
  let cmd := extract_cmd url base_path fmt in
  let expected_file := base_path ++ py "." ++ fmt in
  exists st1,
    silent st st1
    /\ (forall q, path_exists (fs st) q = true -> path_exists (fs st1) q = true)
    /\ (dirname p = [] \/ path_exists (fs st1) (dirname p) = true)
    /\ status (run_process E cmd (fs st1)) = Exited 0
    /\ path_exists (fs (after_run E cmd st1)) expected_file = true
    /\ (if eqb_str expected_file p then st' = after_run E cmd st1
        else rename expected_file p (after_run E cmd st1) = (Ok tt, st')).
Proof.
  intros H base_path cmd expected_file. unfold extract_audio_to_file in H.
  apply try_catch_true_inv in H.
  apply bind_ok_inv in H as ([] & st1 & Hdir & H).
  apply bind_ok_inv in H as ([] & st2 & Hrun & H).
  apply subprocess_run_ok in Hrun as [Hstatus ->].
  rewrite run_get in H. fold base_path cmd expected_file in H.
  fold base_path cmd in Hstatus.
  destruct (path_exists (fs (after_run E cmd st1)) expected_file) eqn:Hexp;
    [|discriminate].
  exists st1. split; [|split; [|split; [|split; [exact Hstatus|split; [exact Hexp|]]]]].
  - destruct (negb (eqb_str (dirname p) [])).
    + pose proof (silent_unless_exists (dirname p) _ (silent_makedirs (dirname p)) st) as Hs.
      rewrite Hdir in Hs. exact Hs.
    + injection Hdir as <-. reflexivity.
  - destruct (negb (eqb_str (dirname p) [])).
    + destruct (DirFacts.unless_exists_makedirs_ok _ _ _ Hdir) as [_ Hkept]. exact Hkept.
    + injection Hdir as <-. auto.
  - destruct (eqb_str (dirname p) []) eqn:Hd; simpl in Hdir.
    + left. unfold eqb_str in Hd. apply bool_decide_eq_true_1 in Hd. exact Hd.
    + right. destruct (DirFacts.unless_exists_makedirs_ok _ _ _ Hdir) as [Hthere _].
      exact Hthere.
  - destruct (eqb_str expected_file p); simpl in H.
    + injection H as <-. reflexivity.
    + apply bind_ok_inv in H as ([] & st3 & Hren & H). injection H as <-. exact Hren.
Qed.

(** A successful extraction: what is there afterwards and what was done. *)
Lemma extract_success_facts url p fmt st st' :
  extract_audio_to_file E url p fmt st = (Ok true, st') ->
  path_exists (fs st') p = true
  /\ trace st' = trace st ++ [EvRun (extract_cmd url (fst (splitext p)) fmt)]
  /\ self st' = self st.
Proof.
  intros H.
  destruct (extract_success_inv url p fmt st st' H)
    as (st1 & [Htr Hself] & _ & _ & _ & Hexp & Hlast).
  assert (path_exists (fs st') p = true
          /\ silent (after_run E (extract_cmd url (fst (splitext p)) fmt) st1) st')
    as [Hp [Htr' Hself']].
  { destruct (eqb_str _ p) eqn:Heq.
    - subst st'. unfold eqb_str in Heq. apply bool_decide_eq_true_1 in Heq.
      rewrite <- Heq at 2. split; [exact Hexp | reflexivity].
    - split; [eapply rename_dst_exists; exact Hlast|].
      pose proof (silent_rename (fst (splitext p) ++ py "." ++ fmt) p
                    (after_run E (extract_cmd url (fst (splitext p)) fmt) st1)) as Hs.
      rewrite Hlast in Hs. exact Hs. }
  split; [exact Hp|]. split.
  - rewrite Htr'. simpl. rewrite Htr. reflexivity.
  - rewrite Hself'. simpl. exact Hself.
Qed.

(** X10: when [extract_audio_to_file] returns [True], there is something at
    the requested path; the call launched one process, the extraction
    command with the output template [base_path + ".%(ext)s"], and opened,
    wrote and printed nothing; the transcriber object is as it was; and a
    following [transcribe_local_audio] of the same path finds the file and
    goes on to the recogniser. *)
Theorem extract_audio_to_file_success url p fmt st st' :
  extract_audio_to_file E url p fmt st = (Ok true, st') ->
  path_exists (fs st') p = true
  /\ trace st' = trace st ++ [EvRun (extract_cmd url (fst (splitext p)) fmt)]
  /\ self st' = self st
  /\ transcribe_local_audio E p st' = transcribe_audio E p st'.
Proof.
  intros H.
  destruct (extract_success_facts url p fmt st st' H) as (Hp & Htr & Hself).
  split; [exact Hp|]. split; [exact Htr|]. split; [exact Hself|].
  unfold transcribe_local_audio. rewrite run_get, Hp. reflexivity.
Qed.

End Extract.

End ExtractFacts.

(** ** The workflows and [cleanup] *)

Module WorkflowFacts.
Import Vocabulary OsPath Transcriber StmtLogic ExitFacts TempWorkflow PathFacts ExtractFacts.

Section Workflows.
Context (E : env).

Lemma eqb_str_false (a b : pystr) : a <> b -> eqb_str a b = false.
Proof. intros H. unfold eqb_str. apply bool_decide_eq_false_2. exact H. Qed.

Lemma eqb_str_true (a b : pystr) : eqb_str a b = true -> a = b.
Proof. unfold eqb_str. apply bool_decide_eq_true_1. Qed.

Lemma trailing_sep_ext (base fmt : pystr) :
  sep ∉ fmt -> trailing_sep (base ++ py "." ++ fmt) = false.
Proof.
  intros Hfmt. unfold trailing_sep. rewrite last_app.
  destruct (last (py "." ++ fmt)) as [x|] eqn:Hl;
    [|apply last_None in Hl; discriminate].
  apply last_Some in Hl as [l' Hl].
  assert (x ∈ 46%N :: fmt) as Hx.
  { change (46%N :: fmt) with (py "." ++ fmt). rewrite Hl.
    apply elem_of_app. right. apply elem_of_cons. left. reflexivity. }
  apply elem_of_cons in Hx as [-> | Hx]; [reflexivity|].
  apply N.eqb_neq. intros ->. contradiction.
Qed.

Lemma normal_plain (p : pystr) : normal p = true -> p <> [] /\ trailing_sep p = false.
Proof.
  unfold normal. intros H. repeat (apply andb_true_iff in H as [H ?]).
  split; [intros ->; discriminate|]. apply negb_true_iff. assumption.
Qed.

(** X11: for a requested path in normal form whose directory exists and
    that is no directory itself, and an audio format without a separator:
    when the path has another extension than the format, and the downloader
    exits with status 0 and leaves a file [base_path + "." + audio_format],
    [extract_audio_to_file] returns [True] with that file moved to the
    requested path: the requested path holds its content and nothing is left
    under the downloader's name. *)
Theorem extract_renames_to_requested_path url p fmt st c :
  let base_path := fst (splitext p) in
  let cmd := extract_cmd url base_path fmt in
  let expected_file := base_path ++ py "." ++ fmt in
  normal p = true -> sep ∉ fmt ->
  is_dir (fs st) (dirname p) = true ->
  status (run_process E cmd (fs st)) = Exited 0 ->
  fs (after_run E cmd st) !! expected_file = Some (File c) ->
  expected_file <> p ->
  is_dir (fs (after_run E cmd st)) p = false ->
  exists st',
    extract_audio_to_file E url p fmt st = (Ok true, st')
    /\ fs st' = <[p := File c]> (delete expected_file (fs (after_run E cmd st)))
    /\ fs st' !! p = Some (File c)
    /\ fs st' !! expected_file = None.
Proof.
  intros base_path cmd expected_file Hnormal Hfmt Hd Hstatus Hfile Hne Hnodir.
  destruct (normal_plain p Hnormal) as [Hp Htrail].
  set (st2 := after_run E cmd st) in *.
  exists (set_fs (fun f => <[p := File c]> (delete expected_file f)) st2).
  split; [|split; [reflexivity|split]].
  - unfold extract_audio_to_file, try_catch.
    erewrite run_bind; cycle 1.
    { instantiate (1 := st). instantiate (1 := tt).
      destruct (negb _) eqn:Hn; [|reflexivity].
      unfold unless_exists. rewrite run_get.
      unfold is_dir in Hd. unfold path_exists.
      destruct (fs st !! dirname p) as [[]|]; try discriminate.
      apply negb_true_iff in Hn. rewrite Hn. reflexivity. }
    fold base_path cmd.
    erewrite run_bind; cycle 1.
    { instantiate (1 := st2). instantiate (1 := tt).
      unfold subprocess_run. rewrite Hstatus. reflexivity. }
    rewrite run_get. fold expected_file.
    assert (eqb_str expected_file [] = false) as Hexp_ne.
    { apply eqb_str_false. unfold expected_file. intros Habs.
      apply (f_equal (@length N)) in Habs. rewrite !length_app in Habs. simpl in Habs. lia. }
    assert (path_exists (fs st2) expected_file = true) as ->.
    { unfold path_exists. rewrite Hfile, Hexp_ne. reflexivity. }
    rewrite (eqb_str_false _ _ Hne). cbn [negb].
    erewrite run_bind; [reflexivity|].
    unfold rename. rewrite (eqb_str_false _ _ Hp), Hexp_ne. cbn [orb].
    rewrite Hfile. rewrite (eqb_str_false _ _ Hne).
    assert (trailing_sep expected_file = false) as ->
      by (apply trailing_sep_ext; exact Hfmt).
    rewrite Htrail. cbn [orb].
    assert (parent_ok (fs st2) p = true) as ->.
    { unfold parent_ok.
      apply orb_true_iff. right. unfold is_dir in *.
      destruct (fs st !! dirname p) as [[]|] eqn:Hl; try discriminate.
      subst st2. unfold after_run. simpl.
      rewrite (ext_apply_dir _ _ _ Hl). reflexivity. }
    unfold is_dir in Hnodir.
    destruct (fs st2 !! p) as [[]|]; [reflexivity | discriminate | reflexivity].
  - simpl. apply lookup_insert_eq.
  - simpl. rewrite lookup_insert_ne by auto. apply lookup_delete_eq.
Qed.

Lemma transcribe_local_audio_state p st : snd (transcribe_local_audio E p st) = st.
Proof.
  unfold transcribe_local_audio. rewrite run_get.
  destruct (negb _); [reflexivity | apply SavedWorkflow.transcribe_audio_state].
Qed.

(** X12: the saved-audio workflow does not clean up: when the audio was
    extracted and the transcription then gives nothing, the workflow returns
    [False] in the state the extraction left, with the audio file still
    under [audio/] in the working directory. *)
Theorem saved_audio_kept_on_failure url p out fmt st ap jp st1 st2 v st3 :
  audio_save_paths E p out st = (Ok (ap, jp), st1) ->
  extract_audio_to_file E url ap fmt st1 = (Ok true, st2) ->
  transcribe_local_audio E ap st2 = (Ok v, st3) ->
  truthy v = false ->
  process_video_with_audio_save E url p out fmt st = (Ok false, st2)
  /\ path_exists (fs st2) (audio_target E p) = true.
Proof.
  intros Hpaths Hex Htr Hv.
  assert (st3 = st2) as ->.
  { pose proof (transcribe_local_audio_state ap st2) as Hs. rewrite Htr in Hs. exact Hs. }
  destruct (TraceFacts.audio_save_paths_result _ _ _ _ _ _ _ Hpaths) as [Hap _].
  split.
  - unfold process_video_with_audio_save, try_catch.
    rewrite (run_bind _ _ _ _ _ Hpaths). cbn [fst snd].
    unfold audio_save_steps.
    rewrite (run_bind _ _ _ _ _ Hex). cbn [negb].
    rewrite (run_bind _ _ _ _ _ Htr). rewrite Hv. reflexivity.
  - rewrite <- Hap.
    destruct (extract_success_facts E url ap fmt st1 st2 Hex) as [Hthere _].
    exact Hthere.
Qed.

Lemma lookup_outside (d : pystr) (f : filesystem) (p : pystr) :
  filter (fun kv : pystr * node => inside d (fst kv) = false) f !! p = if inside d p then None else f !! p.
Proof.
  destruct (inside d p) eqn:Hin.
  - apply map_lookup_filter_None. right. intros x _. simpl. rewrite Hin. discriminate.
  - destruct (f !! p) as [x|] eqn:Hl.
    + apply map_lookup_filter_Some. split; [exact Hl | exact Hin].
    + apply map_lookup_filter_None. left. exact Hl.
Qed.

Lemma startswith_app (p s : pystr) : startswith p (p ++ s) = true.
Proof.
  induction p as [|c p IH]; [reflexivity|].
  cbn -[N.eqb]. rewrite N.eqb_refl. exact IH.
Qed.

Lemma inside_below (d name : pystr) : inside d (d ++ [sep] ++ name) = true.
Proof.
  unfold inside. apply orb_true_iff. right.
  rewrite app_assoc. apply startswith_app.
Qed.

Lemma inside_self (d : pystr) : inside d d = true.
Proof. unfold inside, eqb_str. rewrite bool_decide_eq_true_2 by reflexivity. reflexivity. Qed.

Lemma cleanup_run st :
  cleanup st = match temp_dir (self st) with
               | Some d => if negb (eqb_str d []) && path_exists (fs st) d
                           then rmtree d st else (Ok tt, st)
               | None => (Ok tt, st)
               end.
Proof.
  unfold cleanup. rewrite run_get.
  destruct (temp_dir (self st)); [destruct (_ && _)|]; reflexivity.
Qed.

(** X13: [cleanup] twice is [cleanup] once; it launches no process, opens,
    writes and prints nothing, and leaves the transcriber object, its
    [temp_dir] included, as it was;
    without a temporary directory it does nothing; and when [temp_dir] names
    a directory, it removes that directory with all that lies below it and
    leaves every other path as it was. *)
Theorem cleanup_removes_the_temporary_tree st :
  (_ ← cleanup; cleanup) st = cleanup st
  /\ silent st (snd (cleanup st))
  /\ (temp_dir (self st) = None -> cleanup st = (Ok tt, st))
  /\ (forall d, temp_dir (self st) = Some d -> d <> [] -> fs st !! d = Some Dir ->
        fst (cleanup st) = Ok tt
        /\ forall p, fs (snd (cleanup st)) !! p = if inside d p then None else fs st !! p).
Proof.
  split; [|split; [|split]].
  - destruct (cleanup st) as [[[]|e] st1] eqn:Hc.
    + rewrite (run_bind _ _ _ _ _ Hc).
      rewrite cleanup_run in Hc. rewrite cleanup_run.
      destruct (temp_dir (self st)) as [d|] eqn:Hd; cycle 1.
      { injection Hc as <-. rewrite Hd. reflexivity. }
      destruct (negb (eqb_str d []) && path_exists (fs st) d) eqn:Hcond; cycle 1.
      { injection Hc as <-. rewrite Hd, Hcond. reflexivity. }
      unfold rmtree in Hc. destruct (fs st !! d) as [[c|]|] eqn:Hl; try discriminate.
      injection Hc as <-. simpl. rewrite Hd.
      destruct (rmtree_gone d st Hl) as [_ Hgone]. simpl in Hgone. rewrite Hgone.
      rewrite andb_false_r. reflexivity.
    + apply run_bind_raise. exact Hc.
  - rewrite cleanup_run.
    destruct (temp_dir (self st)) as [d|]; [|reflexivity].
    destruct (_ && _); [|reflexivity].
    unfold rmtree. destruct (fs st !! d) as [[]|]; split; reflexivity.
  - intros Hd. rewrite cleanup_run, Hd. reflexivity.
  - intros d Hd Hne Hdir. rewrite cleanup_run, Hd.
    rewrite (eqb_str_false _ _ Hne). unfold path_exists.
    rewrite Hdir, (eqb_str_false _ _ Hne). cbn [negb andb].
    destruct (rmtree_gone d st Hdir) as [-> _]. split; [reflexivity|].
    intros p. apply lookup_outside.
Qed.

(** X14: once [process_video] has made its temporary directory [d], nothing
    at or below [d] is left when the call ends, however it ends: the
    downloaded audio is gone, and the search for [audio.*] in [d] that found
    it finds nothing. *)
Theorem temporary_audio_removed url out st d st0 :
  mkdtemp E st = (Ok d, st0) ->
  (forall p, inside d p = true -> fs (snd (process_video E url out st)) !! p = None)
  /\ (forall name, fs (snd (process_video E url out st)) !! (d ++ [sep] ++ name) = None)
  /\ glob_audio (fs (snd (process_video E url out st))) d = [].
Proof.
  intros Hmk.
  destruct (process_video_run E url out st d st0 Hmk) as (r & st2 & _ & _ & ->).
  cbn [snd]. simpl.
  assert (forall p, inside d p = true -> filter (fun kv : pystr * node => inside d (fst kv) = false) (fs st2) !! p = None) as Hgone.
  { intros p Hin. rewrite lookup_outside, Hin. reflexivity. }
  split; [exact Hgone|]. split.
  - intros name. apply Hgone. apply inside_below.
  - unfold glob_audio.
    match goal with |- filter ?P ?l = [] => assert (Forall (fun x => ~ P x) l) as Hall end.
    { apply Forall_forall. intros p Hp [Heq _].
      apply list_elem_of_fmap in Hp as ([p' n] & -> & Hp).
      apply elem_of_map_to_list in Hp. simpl in *.
      apply eqb_str_true in Heq.
      assert (inside d p' = true) as Hin.
      { rewrite Heq. apply inside_below. }
      rewrite (Hgone p' Hin) in Hp. discriminate. }
    induction Hall as [|x l Hx _ IH]; [reflexivity|].
    rewrite filter_cons_False by exact Hx. exact IH.
Qed.

(** The steps of a successful [process_video]: the temporary directory, the
    download, a transcription that is not empty, the output, the clean-up. *)
Lemma process_video_success_steps url out st st' :
  process_video E url out st = (Ok true, st') ->
  let d := tmp_name E (fs st) in
  let cmd := download_cmd url (join d (py "audio.%(ext)s")) in
  exists st0 audio tr formatted st6,
    mkdtemp E st = (Ok d, st0)
    /\ trace st0 = trace st
    /\ self st0 = self st
    /\ head (glob_audio (fs (after_run E cmd (set_temp_dir (Some d) st0))) d) = Some audio
    /\ transcribe_audio E audio (after_run E cmd (set_temp_dir (Some d) st0))
       = (Ok tr, after_run E cmd (set_temp_dir (Some d) st0))
    /\ truthy tr = true
    /\ Formatter.format_output tr = Ok formatted
    /\ output_results formatted out (after_run E cmd (set_temp_dir (Some d) st0))
       = (Ok tt, st6)
    /\ st' = set_fs (filter (fun kv => inside d (fst kv) = false)) st6.
Proof.
  intros H d cmd. subst cmd.
  destruct (mkdtemp E st) as [[d' | e] st0] eqn:Hmk; cycle 1.
  { unfold process_video in H. rewrite (run_bind_raise _ _ _ _ _ Hmk) in H. discriminate. }
  assert (d' = d) as -> by (eapply TraceFacts.mkdtemp_name; exact Hmk).
  assert (trace st0 = trace st /\ self st0 = self st) as [Htr0 Hself0].
  { unfold mkdtemp in Hmk. destruct (eqb_str _ _); [discriminate|].
    destruct (fs st !! _); [discriminate|]. injection Hmk as <-. split; reflexivity. }
  destruct (process_video_run E url out st d st0 Hmk) as (r & st2 & Hbody & _ & Hrun).
  rewrite Hrun in H.
  assert (r = Ok true) as -> by (apply (f_equal fst) in H; exact H).
  apply (f_equal snd) in H. cbn [snd] in H. subst st'.
  apply try_catch_true_inv in Hbody. unfold process_video_body in Hbody.
  apply bind_ok_inv in Hbody as (ok & st3 & Hdl & Hbody).
  destruct ok; simpl in Hbody; [|discriminate].
  unfold download_audio in Hdl. apply try_catch_true_inv in Hdl.
  apply bind_ok_inv in Hdl as ([] & st3' & Hsub & Hdl). injection Hdl as <-.
  apply subprocess_run_ok in Hsub as [_ ->].
  rewrite run_get in Hbody.
  destruct (glob_audio _ d) as [|actual rest] eqn:Hglob; [discriminate|].
  apply bind_ok_inv in Hbody as (tr & st4 & Htrans & Hbody).
  assert (st4 = after_run E (download_cmd url (join d (py "audio.%(ext)s"))) (set_temp_dir (Some d) st0)) as ->.
  { pose proof (SavedWorkflow.transcribe_audio_state E actual
                  (after_run E (download_cmd url (join d (py "audio.%(ext)s")))
                     (set_temp_dir (Some d) st0))) as Hs.
    rewrite Htrans in Hs. exact Hs. }
  destruct (truthy tr) eqn:Htruthy; simpl in Hbody; [|discriminate].
  apply bind_ok_inv in Hbody as (formatted & st5 & Hf & Hbody).
  unfold format_output, lift in Hf. injection Hf as Hf <-.
  apply bind_ok_inv in Hbody as ([] & st6 & Hout & Hbody). injection Hbody as <-.
  exists st0, actual, tr, formatted, st6. rewrite Hglob. auto 12.
Qed.

Lemma process_video_success_inv url out st st' :
  process_video E url out st = (Ok true, st') ->
  let d := tmp_name E (fs st) in
  let cmd := download_cmd url (join d (py "audio.%(ext)s")) in
  exists st0 tr formatted st6,
    mkdtemp E st = (Ok d, st0)
    /\ trace st0 = trace st
    /\ truthy tr = true
    /\ Formatter.format_output tr = Ok formatted
    /\ output_results formatted out (after_run E cmd (set_temp_dir (Some d) st0))
       = (Ok tt, st6)
    /\ st' = set_fs (filter (fun kv => inside d (fst kv) = false)) st6.
Proof.
  intros H d cmd.
  destruct (process_video_success_steps url out st st' H)
    as (st0 & audio & tr & formatted & st6 & Hmk & Htr0 & _ & _ & _ & Ht & Hf & Hout & Hst).
  exists st0, tr, formatted, st6. auto 10.
Qed.

(** X15: when [process_video] returns [True], it launched one process, the
    download command with the output template [audio.%(ext)s] in the
    temporary directory; with an output file it then opened and wrote that
    path, as given, with the UTF-8 bytes of the formatted JSON, and the file
    holds them afterwards (unless it lies in the temporary directory);
    without one it printed the JSON text; and its own code launched, opened,
    wrote and printed nothing else. *)
Theorem process_video_success url out st st' :
  process_video E url out st = (Ok true, st') ->
  let d := tmp_name E (fs st) in
  let cmd := download_cmd url (join d (py "audio.%(ext)s")) in
  exists text,
    formatted_json text
    /\ (forall path, out = Some path -> given out = true ->
          exists data,
            Json.utf8_encode text = Some data
            /\ trace st' = trace st ++ [EvRun cmd; EvOpen path; EvWrite path data]
            /\ (inside d path = false -> fs st' !! path = Some (File data)))
    /\ (given out = false -> trace st' = trace st ++ [EvRun cmd; EvPrint text]).
Proof.
  intros H d cmd. subst d cmd.
  destruct (process_video_success_inv url out st st' H)
    as (st0 & tr & formatted & st6 & _ & Htr0 & Htruthy & Hf & Hout & ->).
  destruct (SavedWorkflow.output_results_ok _ _ _ _ Hout) as (_ & Hfile & Hprint).
  exists (Json.dumps formatted). split; [exists tr, formatted; auto|]. split.
  - intros path Hpath Hgiven.
    destruct (Hfile path Hpath Hgiven) as (data & Henc & Htrace & Hlook).
    exists data. split; [exact Henc|]. split.
    + simpl. rewrite Htrace. simpl. rewrite Htr0, <- app_assoc. reflexivity.
    + intros Hin. simpl. rewrite lookup_outside, Hin. exact Hlook.
  - intros Hgiven. simpl. rewrite (Hprint Hgiven). simpl.
    rewrite Htr0, <- app_assoc. reflexivity.
Qed.

(** X2: the saved-audio workflow keeps the file names it is given: the audio
    goes to the directory [audio] of the working directory under the last
    component of the requested path, the JSON to the directory [result]
    under the last component of the requested name; and giving the workflow
    the path it chose gives that path again. *)
Theorem saved_paths_keep_the_file_name (p name : pystr) :
  basename (audio_target E p) = basename p
  /\ dirname (audio_target E p) = join (cwd E) (py "audio")
  /\ audio_target E (audio_target E p) = audio_target E p
  /\ (name <> [] ->
      exists target,
        json_target E (Some name) = Some target
        /\ basename target = basename name
        /\ dirname target = join (cwd E) (py "result")).
Proof.
  assert (basename (audio_target E p) = basename p) as Hbase.
  { unfold audio_target. apply basename_join. apply basename_no_sep. }
  split; [exact Hbase|]. split; [|split].
  - unfold audio_target.
    destruct (DirFacts.join_ends (cwd E) (py "audio") (py "audi") 0x6F%N eq_refl) as (x & Hx).
    destruct (DirFacts.dirname_join _ (basename p) _ _ Hx ltac:(discriminate)
                (basename_no_sep p)) as [Hj Hd].
    rewrite Hj. exact Hd.
  - unfold audio_target at 1. rewrite Hbase. reflexivity.
  - intros Hname. eexists. split.
    + unfold json_target, given. rewrite (eqb_str_false _ _ Hname). reflexivity.
    + split; [apply basename_join; apply basename_no_sep|].
      destruct (DirFacts.join_ends (cwd E) (py "result") (py "resul") 0x74%N eq_refl)
        as (x & Hx).
      destruct (DirFacts.dirname_join _ (basename name) _ _ Hx ltac:(discriminate)
                  (basename_no_sep name)) as [Hj Hd].
      rewrite Hj. exact Hd.
Qed.

(** X9: [download_audio] goes by the exit status of the downloader alone: it
    returns [True] for status 0 whether or not a file was written, [False]
    for any other status and when the program cannot be started, and is left
    by [KeyboardInterrupt] when the user interrupts the download; in each
    case the download command was launched once. *)
Theorem download_audio_by_exit_status (url p : pystr) (st : state) :
  let cmd := download_cmd url p in
  match status (run_process E cmd (fs st)) with
  | Exited code =>
      download_audio E url p st = (Ok (code =? 0), after_run E cmd st)
  | NoSuchProgram | SpawnFailed =>
      download_audio E url p st = (Ok false, after_run E cmd st)
  | Interrupted =>
      download_audio E url p st = (Raise KeyboardInterrupt, after_run E cmd st)
  end.
Proof.
  intros cmd. unfold download_audio, try_catch, subprocess_run, after_run. M_simpl.
  fold cmd. destruct (status _) as [c| | |]; try reflexivity.
  destruct (c =? 0); reflexivity.
Qed.

(** X25: when the directory the audio is to go to does not exist and cannot
    be made, [extract_audio_to_file] returns [False]; it has launched no
    process and the files are as they were. *)
Theorem extract_needs_its_directory url p fmt st e st0 :
  dirname p <> [] ->
  path_exists (fs st) (dirname p) = false ->
  makedirs (dirname p) st = (Raise e, st0) ->
  extract_audio_to_file E url p fmt st = (Ok false, st).
Proof.
  intros Hd Hex Hmk. unfold extract_audio_to_file, try_catch.
  assert (st0 = st) as ->.
  { unfold makedirs in Hmk. destruct (eqb_str _ _); [injection Hmk as _ <-; reflexivity|].
    destruct (mkdir_chain _ _); [discriminate | injection Hmk as _ <-; reflexivity]. }
  erewrite run_bind_raise; cycle 1.
  { rewrite (eqb_str_false _ _ Hd). cbn [negb]. unfold unless_exists.
    rewrite run_get, Hex. exact Hmk. }
  unfold except_Exception.
  assert (is_Exception e = true) as ->; [|reflexivity].
  eapply (raises_makedirs (dirname p)). exact Hmk.
Qed.

End Workflows.

End WorkflowFacts.

(** ** What is persisted, and where *)

Module PersistFacts.
Import Vocabulary OsPath Transcriber StmtLogic ExitFacts TempWorkflow DirFacts FailureFacts
  TraceFacts SavedWorkflow OutputFacts JsonFacts ExtractFacts WorkflowFacts.

Section Persist.
Context (E : env).


Lemma silent_audio_save_paths p out : respects silent (audio_save_paths E p out).
Proof.
  unfold audio_save_paths.
  apply respects_bind; [apply _ | apply silent_unless_exists, silent_makedirs |].
  intros _. destruct out as [name|]; [|apply respects_ret; apply _].
  destruct (given _); [|apply respects_ret; apply _].
  apply respects_bind; [apply _ | apply silent_unless_exists, silent_makedirs |].
  intros _. apply respects_ret; apply _.
Qed.

(** The steps of a successful saved-audio workflow. *)
Lemma saved_success_steps url p out fmt st st' :
  process_video_with_audio_save E url p out fmt st = (Ok true, st') ->
  exists st1 st2 tr formatted,
    audio_save_paths E p out st = (Ok (audio_target E p, json_target E out), st1)
    /\ silent st st1
    /\ extract_audio_to_file E url (audio_target E p) fmt st1 = (Ok true, st2)
    /\ transcribe_audio E (audio_target E p) st2 = (Ok tr, st2)
    /\ truthy tr = true
    /\ Formatter.format_output tr = Ok formatted
    /\ output_results formatted (json_target E out) st2 = (Ok tt, st').
Proof.
  intros H. unfold process_video_with_audio_save in H.
  apply try_catch_true_inv in H.
  apply bind_ok_inv in H as ([ap jp] & st1 & Hp & H). simpl in H.
  destruct (audio_save_paths_result _ _ _ _ _ _ _ Hp) as [-> ->].
  unfold audio_save_steps in H.
  apply bind_ok_inv in H as (ok & st2 & Hex & H).
  destruct ok; simpl in H; [|discriminate].
  apply bind_ok_inv in H as (tr & st3 & Htr & H).
  destruct (truthy tr) eqn:Htruthy; simpl in H; [|discriminate].
  destruct (transcribe_local_audio_truthy _ _ _ _ _ Htr Htruthy) as [Hexists ->].
  unfold transcribe_local_audio in Htr. rewrite run_get, Hexists in Htr. simpl in Htr.
  apply bind_ok_inv in H as (formatted & st3' & Hf & H).
  unfold format_output, lift in Hf. injection Hf as Hf <-.
  apply bind_ok_inv in H as ([] & st4 & Hout & H). injection H as <-.
  exists st1, st2, tr, formatted.
  split; [exact Hp|]. split; [|auto 10].
  pose proof (silent_audio_save_paths p out st) as Hs. rewrite Hp in Hs. exact Hs.
Qed.

Lemma subprocess_run_state cmd st : snd (subprocess_run E cmd st) = after_run E cmd st.
Proof.
  unfold subprocess_run, after_run.
  destruct (status _) as [c| | |]; [destruct (c =? 0)|..]; reflexivity.
Qed.

(** Whenever [extract_audio_to_file] finds the directory of the audio file
    in place, it launches the extraction command, once, and ends in the state
    of the launch as far as the record of events goes. *)
Lemma extract_launches url ap fmt st :
  dirname ap = [] \/ path_exists (fs st) (dirname ap) = true ->
  silent (after_run E (extract_cmd url (fst (splitext ap)) fmt) st)
         (snd (extract_audio_to_file E url ap fmt st)).
Proof.
  intros Hd. unfold extract_audio_to_file.
  set (cmd := extract_cmd url (fst (splitext ap)) fmt).
  assert (forall (m : M bool) s,
            snd (try_catch m (except_Exception (fun _ => ret false)) s) = snd (m s))
    as Hcatch.
  { intros m s. unfold try_catch, except_Exception.
    destruct (m s) as [[b|e] s1]; [reflexivity|].
    destruct (is_Exception e); reflexivity. }
  rewrite Hcatch.
  rewrite (run_bind _ _ st tt st); cycle 1.
  { destruct Hd as [-> | Hd]; [reflexivity|].
    destruct (negb _); [|reflexivity].
    unfold unless_exists. rewrite run_get, Hd. reflexivity. }
  pose proof (subprocess_run_state cmd st) as Hrun.
  destruct (subprocess_run E cmd st) as [[[]|e] s] eqn:Hsub; simpl in Hrun; subst s.
  - rewrite (run_bind _ _ _ _ _ Hsub). rewrite run_get. clear Hd.
    destruct (path_exists (fs (after_run E cmd st)) _); [|reflexivity].
    destruct (negb _); [|reflexivity].
    match goal with
    | |- context [rename ?a ?b] =>
        pose proof (silent_rename a b (after_run E cmd st)) as Hs;
        destruct (rename a b (after_run E cmd st)) as [[[]|e] s'] eqn:Hren
    end.
    + rewrite (run_bind _ _ _ _ _ Hren). exact Hs.
    + rewrite (run_bind_raise _ _ _ _ _ Hren). exact Hs.
  - rewrite (run_bind_raise _ _ _ _ _ Hsub). reflexivity.
Qed.

(** From the state a first statement ends in, the rest only adds events. *)
Lemma adds_after {A B} Q (m : M A) (k : A -> M B) st :
  (forall a, respects (adds Q) (k a)) -> adds Q (snd (m st)) (snd (mbind k m st)).
Proof.
  intros Hk. destruct (m st) as [[a|e] s] eqn:Hm.
  - rewrite (run_bind _ _ _ _ _ Hm). apply Hk.
  - rewrite (run_bind_raise _ _ _ _ _ Hm). reflexivity.
Qed.


(** C10: the saved-audio workflow uses only the last component of the two
    paths it is given.  A run with other directories in front of the same
    two names is the same run.  Once the directories [audio] and [result]
    under the working directory are in place, the workflow launches the
    extraction command with the template [audio/<basename>.%(ext)s] there,
    as the first thing it does to the outside, and it launches nothing
    else; the only file it opens or writes is [result/<basename>] there.
    When it returns [True], the audio file is [audio/<basename>], and with a
    JSON output name the run ends with that file opened and written and
    holding the bytes written.  The basename holds no separator and is what
    follows the last one, so [/tmp/sub/x.wav] becomes [x.wav]. *)
Theorem basename_only (url p : pystr) (out : option pystr) (fmt : pystr) (st : state) :
  let audio := join (join (cwd E) (py "audio")) (basename p) in
  let json :=
    match out with
    | Some name =>
        if given out
        then Some (join (join (cwd E) (py "result")) (basename name))
        else out
    | None => None
    end in
  let cmd := extract_cmd url (fst (splitext audio)) fmt in
  let run := process_video_with_audio_save E url p out fmt st in
  adds (workflow_event cmd json) st (snd run)
  /\ (forall p', basename p' = basename p ->
        process_video_with_audio_save E url p' out fmt st = run)
  /\ (forall name name',
        out = Some name -> name <> [] -> name' <> [] -> basename name' = basename name ->
        process_video_with_audio_save E url p (Some name') fmt st = run)
  /\ (forall paths st1,
        audio_save_paths E p out st = (Ok paths, st1) ->
        paths = (audio, json)
        /\ exists rest, trace (snd run) = trace st ++ EvRun cmd :: rest)
  /\ (fst run = Ok true ->
      path_exists (fs (snd run)) audio = true
      /\ forall target, json = Some target -> given out = true ->
           exists data,
             fs (snd run) !! target = Some (File data)
             /\ trace (snd run) = trace st ++ [EvRun cmd; EvOpen target; EvWrite target data])
  /\ (sep ∉ basename p)
  /\ (forall name, out = Some name -> sep ∉ basename name)
  /\ (forall dir name, sep ∉ name -> basename (dir ++ sep :: name) = name)
  /\ basename (py "/tmp/sub/x.wav") = py "x.wav".
Proof.
  intros audio json cmd run.
  change audio with (audio_target E p) in *. change json with (json_target E out) in *.
  split; [|split; [|split; [|split; [|split; [|repeat split]]]]].
  - apply saved_workflow_events.
  - intros p' Hp'. subst run.
    unfold process_video_with_audio_save, audio_save_paths. rewrite Hp'. reflexivity.
  - intros name name' -> Hname Hname' Hb. subst run.
    unfold process_video_with_audio_save, audio_save_paths.
    assert (given (Some name) = true) as ->
      by (simpl; apply negb_true_iff, eqb_str_false; exact Hname).
    assert (given (Some name') = true) as ->
      by (simpl; apply negb_true_iff, eqb_str_false; exact Hname').
    rewrite Hb. reflexivity.
  - intros [ap jp] st1 Hp.
    destruct (audio_save_paths_result _ _ _ _ _ _ _ Hp) as [-> ->].
    split; [reflexivity|].
    pose proof (silent_audio_save_paths p out st) as Hs. rewrite Hp in Hs.
    destruct Hs as [Htr1 _]. simpl in Htr1.
    destruct (audio_save_paths_dir _ _ _ _ _ _ _ Hp) as [_ Hdir].
    pose proof (extract_launches url (audio_target E p) fmt st1 (or_intror Hdir))
      as [Htr2 _].
    fold cmd in Htr2.
    assert (adds (workflow_event cmd (json_target E out))
              (snd (extract_audio_to_file E url (audio_target E p) fmt st1)) (snd run))
      as (rest & Hrest & _).
    { subst run. unfold process_video_with_audio_save.
      etransitivity; cycle 1.
      { assert (forall (m : M bool) s,
                  snd (try_catch m (except_Exception (fun _ => ret false)) s) = snd (m s))
          as Hcatch.
        { intros m s. unfold try_catch, except_Exception.
          destruct (m s) as [[b|e] s1]; [reflexivity|].
          destruct (is_Exception e); reflexivity. }
        rewrite Hcatch. rewrite (run_bind _ _ _ _ _ Hp). reflexivity. }
      cbn [fst snd]. unfold audio_save_steps.
      apply adds_after. intros ok. destruct (negb ok); [apply respects_ret; apply _|].
      apply respects_bind; [apply _ | apply adds_transcribe_local_audio |].
      intros tr. destruct (truthy tr) eqn:Htr; simpl; [|apply respects_ret; apply _].
      apply adds_workflow_tail. exact Htr. }
    exists rest. rewrite Hrest, Htr2. simpl. rewrite Htr1, <- app_assoc. reflexivity.
  - intros Hok. subst run.
    destruct (process_video_with_audio_save E url p out fmt st) as [r st'] eqn:Hrun.
    simpl in Hok. subst r. cbn [snd].
    split; [apply (saved_success _ _ _ _ _ _ _ Hrun)|].
    intros target Hjson Hg.
    destruct (saved_success_steps url p out fmt st st' Hrun)
      as (st1 & st2 & tr & formatted & _ & [Htr1 _] & Hex & _ & _ & _ & Hout).
    destruct (extract_success_facts E _ _ _ _ _ Hex) as (_ & Htr2 & _).
    destruct (output_results_ok _ _ _ _ Hout) as (_ & Hfile & _).
    destruct (Hfile target Hjson) as (data & _ & Htrace & Hlook).
    { rewrite given_json_target. exact Hg. }
    exists data. split; [exact Hlook|].
    fold cmd in Htr2. rewrite Htrace, Htr2, Htr1, <- app_assoc. reflexivity.
  - apply basename_no_sep.
  - intros name _. apply basename_no_sep.
  - apply basename_app.
Qed.

End Persist.

End PersistFacts.

(** ** The argument parsers *)

Module ParserFacts.
Import Vocabulary Cli.

Lemma dict_get_ns_set k k' v (ns : list (pystr * value)) :
  dict_get k (ns_set k' v ns) = if eqb_str k' k then Some v else dict_get k ns.
Proof.
  unfold eqb_str.
  induction ns as [|[k0 v0] ns IH]; simpl; unfold eqb_str in *.
  - reflexivity.
  - repeat case_bool_decide; subst; simpl; unfold eqb_str;
      repeat case_bool_decide; try congruence.
Qed.

Lemma classify_all_tokens P argv ts :
  classify_all P argv = Some ts -> Forall (token_of P argv) ts.
Proof.
  revert ts. induction argv as [|t argv IH]; intros ts; simpl.
  - intros [= <-]. constructor.
  - destruct (classify P t) as [x|] eqn:Hx; [|discriminate].
    destruct (classify_all P argv) as [xs|]; [|discriminate].
    intros [= <-]. constructor.
    + unfold classify in Hx. destruct (find_option P t) as [o|] eqn:Hf.
      * injection Hx as <-. simpl. unfold find_option in Hf.
        apply find_some in Hf as [Hin Hs]. split; [apply list_elem_of_In; exact Hin|].
        apply existsb_exists in Hs as (s & Hs & Heq).
        apply bool_decide_eq_true_1 in Heq. subst s.
        exists t. split; [left | apply list_elem_of_In; exact Hs].
      * destruct (_ && _); [discriminate|]. injection Hx as <-. left.
    + eapply Forall_impl; [apply IH; reflexivity|].
      intros [a|o]; simpl.
      * intros Ha. by right.
      * intros (Ho & s & Hs & Hso). split; [exact Ho|]. exists s. split; [by right | exact Hso].
Qed.

(** What holds of the namespace at every step of the parser holds of its
    result, in which the positional argument and the required options are
    filled. *)
Lemma consume_invariant P argv
    (Inv : list (pystr * value) -> list pystr -> Prop) :
  (forall ns seen a, a ∈ argv -> Inv ns seen ->
     Inv (ns_set (positional P) (VStr a) ns) (positional P :: seen)) ->
  (forall o ns seen, token_of P argv (TOpt o) -> kind o = StoreTrue -> Inv ns seen ->
     Inv (ns_set (dest o) (VBool true) ns) (dest o :: seen)) ->
  (forall o choices a ns seen, token_of P argv (TOpt o) -> kind o = Store choices ->
     a ∈ argv ->
     match choices with Some l => a ∈ l | None => True end ->
     Inv ns seen -> Inv (ns_set (dest o) (VStr a) ns) (dest o :: seen)) ->
  forall n ts ns seen extras args,
    (length ts <= n)%nat ->
    Forall (token_of P argv) ts ->
    Inv ns seen ->
    consume P ts ns seen extras = Parsed args ->
    exists seen', Inv args seen'
      /\ positional P ∈ seen'
      /\ forall o, o ∈ options P -> required o = true -> dest o ∈ seen'.
Proof.
  intros Hpos Hflag Hstore.
  assert (forall x (l : list pystr), existsb (eqb_str x) l = true -> x ∈ l) as Hmem.
  { intros x l H. apply existsb_exists in H as (y & Hy & Heq).
    apply bool_decide_eq_true_1 in Heq. subst y. apply list_elem_of_In. exact Hy. }
  induction n as [|n IH]; intros ts ns seen extras args Hlen Hts HI.
  - destruct ts; [|simpl in Hlen; lia]. simpl.
    destruct (negb (existsb (eqb_str (positional P)) seen)) eqn:H1; [discriminate|].
    destruct (existsb _ (options P)) eqn:H2; [discriminate|].
    destruct (negb (extras =? 0)%nat); [discriminate|]. intros Heq.
    injection Heq as <-. exists seen. split; [exact HI|]. split.
    + apply Hmem. apply negb_false_iff in H1. exact H1.
    + intros o Ho Hreq. apply Hmem.
      destruct (existsb (eqb_str (dest o)) seen) eqn:H3; [reflexivity|].
      assert (existsb (fun o => required o && negb (existsb (eqb_str (dest o)) seen))
                      (options P) = true) as Habs; [|congruence].
      apply existsb_exists. exists o. split; [apply list_elem_of_In; exact Ho|].
      rewrite Hreq, H3. reflexivity.
  - destruct ts as [|[a|o] r].
    + apply (IH [] ns seen extras args); [simpl; lia | constructor | exact HI].
    + simpl in Hlen. apply Forall_cons in Hts as [Ha Hts]. simpl in Ha. simpl.
      destruct (existsb _ seen).
      * apply IH; [lia | exact Hts | exact HI].
      * apply IH; [lia | exact Hts |]. apply Hpos; assumption.
    + simpl in Hlen. apply Forall_cons in Hts as [Ho Hts]. simpl.
      destruct (kind o) as [choices| |] eqn:Hk; [| |discriminate].
      * destruct r as [|[a|o'] r']; try discriminate. simpl in Hlen.
        apply Forall_cons in Hts as [Ha Hts]. simpl in Ha.
        destruct (match choices with Some l => _ | None => _ end) eqn:Hc; [|discriminate].
        apply IH; [lia | exact Hts |].
        apply (Hstore o choices); try assumption.
        destruct choices as [l|]; [apply Hmem; exact Hc | exact I].
      * apply IH; [lia | exact Hts |]. apply Hflag; assumption.
Qed.

Lemma attr_ns_set k k' v ns :
  attr (ns_set k' v ns) k
  = if eqb_str k' k then match v with VStr s => Some s | _ => None end else attr ns k.
Proof. unfold attr. rewrite dict_get_ns_set. destruct (eqb_str k' k); reflexivity. Qed.

Ltac options_cases H :=
  repeat (apply elem_of_cons in H as [H|H]; [subst|]); [..|apply elem_of_nil in H; contradiction].

Ltac kept_attr H := destruct H as (?s & ?Hs & ?Hin); exists s; rewrite attr_ns_set; auto.

(** X16: what the two [main] functions can rely on after [parse_args]: the
    URL (and, for the extractor, the required output path) is one of the
    strings of the command line, and the model size and the audio format
    are among the declared choices. *)
Theorem parsed_arguments :
  (forall argv args,
      parse_args transcriber_parser argv = Some (Parsed args) ->
      from_argv argv args (py "url")
      /\ one_of model_sizes args (py "model")
      /\ one_of audio_formats args (py "audio_format"))
  /\ (forall argv args,
        parse_args extractor_parser argv = Some (Parsed args) ->
        from_argv argv args (py "url")
        /\ from_argv argv args (py "output")
        /\ one_of audio_formats args (py "format")).
Proof.
  split; intros argv args; unfold parse_args;
    (destruct (classify_all _ argv) as [ts|] eqn:Hts; [|discriminate]);
    intros [= Hc]; apply classify_all_tokens in Hts.
  - destruct (consume_invariant transcriber_parser argv
                (fun ns seen =>
                   (py "url" ∈ seen -> from_argv argv ns (py "url"))
                   /\ one_of model_sizes ns (py "model")
                   /\ one_of audio_formats ns (py "audio_format")))
      with (n := length ts) (ts := ts) (ns := defaults transcriber_parser)
           (seen := @nil pystr) (extras := 0%nat) (args := args)
      as (seen' & (Hurl & Hm & Hf) & Hpos & _); try assumption; try reflexivity.
    + intros ns seen a Ha (Hurl & Hm & Hf). split; [|split].
      * intros _. exists a. rewrite attr_ns_set. split; [reflexivity | exact Ha].
      * kept_attr Hm.
      * kept_attr Hf.
    + intros o ns seen [Ho _] Hk (Hurl & Hm & Hf). simpl in Ho.
      options_cases Ho; try discriminate.
      split; [|split].
      * intros Hin. apply elem_of_cons in Hin as [Hin|Hin]; [discriminate|].
        specialize (Hurl Hin). kept_attr Hurl.
      * kept_attr Hm.
      * kept_attr Hf.
    + intros o choices a ns seen [Ho _] Hk Ha Hch (Hurl & Hm & Hf). simpl in Ho.
      options_cases Ho; try discriminate; injection Hk as <-;
        (split; [|split]);
        try (intros Hin; apply elem_of_cons in Hin as [Hin|Hin]; [discriminate|];
             specialize (Hurl Hin); kept_attr Hurl);
        try (destruct Hm as (s & Hs & Hin); exists s; rewrite attr_ns_set; solve [auto]);
        try (destruct Hf as (s & Hs & Hin); exists s; rewrite attr_ns_set; solve [auto]);
        exists a; rewrite attr_ns_set; auto.
    + split; [|split].
      * intros Hin. apply elem_of_nil in Hin. contradiction.
      * exists (py "base"). split; [reflexivity|]. unfold model_sizes. set_solver.
      * exists (py "wav"). split; [reflexivity|]. unfold audio_formats. set_solver.
    + auto.
  - destruct (consume_invariant extractor_parser argv
                (fun ns seen =>
                   (py "url" ∈ seen -> from_argv argv ns (py "url"))
                   /\ (py "output" ∈ seen -> from_argv argv ns (py "output"))
                   /\ one_of audio_formats ns (py "format")))
      with (n := length ts) (ts := ts) (ns := defaults extractor_parser)
           (seen := @nil pystr) (extras := 0%nat) (args := args)
      as (seen' & (Hurl & Hout & Hf) & Hpos & Hreq); try assumption; try reflexivity.
    + intros ns seen a Ha (Hurl & Hout & Hf). split; [|split].
      * intros _. exists a. rewrite attr_ns_set. split; [reflexivity | exact Ha].
      * intros Hin. apply elem_of_cons in Hin as [Hin|Hin]; [discriminate|].
        specialize (Hout Hin). kept_attr Hout.
      * kept_attr Hf.
    + intros o ns seen [Ho _] Hk (Hurl & Hout & Hf). simpl in Ho.
      options_cases Ho; try discriminate.
      split; [|split].
      * intros Hin. apply elem_of_cons in Hin as [Hin|Hin]; [discriminate|].
        specialize (Hurl Hin). kept_attr Hurl.
      * intros Hin. apply elem_of_cons in Hin as [Hin|Hin]; [discriminate|].
        specialize (Hout Hin). kept_attr Hout.
      * kept_attr Hf.
    + intros o choices a ns seen [Ho _] Hk Ha Hch (Hurl & Hout & Hf). simpl in Ho.
      options_cases Ho; try discriminate; injection Hk as <-.
      * split; [|split].
        -- intros Hin. apply elem_of_cons in Hin as [Hin|Hin]; [discriminate|].
           specialize (Hurl Hin). kept_attr Hurl.
        -- intros _. exists a. rewrite attr_ns_set. auto.
        -- kept_attr Hf.
      * split; [|split].
        -- intros Hin. apply elem_of_cons in Hin as [Hin|Hin]; [discriminate|].
           specialize (Hurl Hin). kept_attr Hurl.
        -- intros Hin. apply elem_of_cons in Hin as [Hin|Hin]; [discriminate|].
           specialize (Hout Hin). kept_attr Hout.
        -- exists a. rewrite attr_ns_set. auto.
    + split; [|split].
      * intros Hin. apply elem_of_nil in Hin. contradiction.
      * intros Hin. apply elem_of_nil in Hin. contradiction.
      * exists (py "wav"). split; [reflexivity|]. unfold audio_formats. set_solver.
    + split; [auto|]. split; [|exact Hf]. apply Hout.
      apply (Hreq {| option_strings := [py "-o"; py "--output"]; dest := py "output";
                     kind := Store None; required := true; default_value := VNone |});
        [|reflexivity].
      simpl. set_solver.
Qed.

(** An attribute that no option on the command line fills keeps its default. *)
Lemma default_kept P argv args (name : pystr) :
  name <> positional P ->
  (forall o, o ∈ options P -> dest o = name -> absent argv o) ->
  parse_args P argv = Some (Parsed args) ->
  dict_get name args = dict_get name (defaults P).
Proof.
  intros Hname Habsent. unfold parse_args.
  destruct (classify_all P argv) as [ts|] eqn:Hts; [|discriminate].
  intros [= Hc]. apply classify_all_tokens in Hts.
  assert (forall o, token_of P argv (TOpt o) -> eqb_str (dest o) name = false) as Hother.
  { intros o (Ho & s & Hs & Hso). apply bool_decide_eq_false_2. intros Hd.
    apply (Habsent o Ho Hd s Hso Hs). }
  destruct (consume_invariant P argv
              (fun ns _ => dict_get name ns = dict_get name (defaults P)))
    with (n := length ts) (ts := ts) (ns := defaults P)
         (seen := @nil pystr) (extras := 0%nat) (args := args)
    as (_ & H & _); try assumption; try reflexivity.
  - intros ns seen a _ H. rewrite dict_get_ns_set, H.
    unfold eqb_str. rewrite bool_decide_eq_false_2 by congruence. reflexivity.
  - intros o ns seen Ho _ H. rewrite dict_get_ns_set, (Hother o Ho). exact H.
  - intros o choices a ns seen Ho _ _ _ H. rewrite dict_get_ns_set, (Hother o Ho). exact H.
Qed.

(** X17: an option of [transcriber.py] that is not on the command line keeps
    its default: no audio output and no JSON file (so that the temporary
    workflow runs and the JSON is printed), the model [base] and the format
    [wav]. *)
Theorem option_defaults (argv : list pystr) (args : list (pystr * value)) :
  parse_args transcriber_parser argv = Some (Parsed args) ->
  (py "-a" ∉ argv -> py "--audio-output" ∉ argv -> attr args (py "audio_output") = None)
  /\ (py "-o" ∉ argv -> py "--output" ∉ argv -> attr args (py "output") = None)
  /\ (py "-m" ∉ argv -> py "--model" ∉ argv -> attr args (py "model") = Some (py "base"))
  /\ (py "-f" ∉ argv -> py "--audio-format" ∉ argv ->
      attr args (py "audio_format") = Some (py "wav")).
Proof.
  intros Hparse.
  assert (forall name short long,
            name <> py "url" ->
            (forall o, o ∈ options transcriber_parser -> dest o = name ->
                       option_strings o = [short; long]) ->
            short ∉ argv -> long ∉ argv ->
            attr args name = attr (defaults transcriber_parser) name) as Hkeep.
  { intros name short long Hname Hopt Hs Hl. unfold attr.
    rewrite (default_kept transcriber_parser argv args name); [reflexivity | exact Hname | | exact Hparse].
    intros o Ho Hd s Hin. rewrite (Hopt o Ho Hd) in Hin.
    apply elem_of_cons in Hin as [->|Hin]; [exact Hs|].
    apply elem_of_cons in Hin as [->|Hin]; [exact Hl|].
    apply elem_of_nil in Hin. contradiction. }
  repeat split; intros Hs Hl;
    (erewrite Hkeep; [reflexivity | discriminate | | exact Hs | exact Hl]);
    intros o Ho Hd; simpl in Ho; options_cases Ho; try discriminate; reflexivity.
Qed.

End ParserFacts.

(** ** The two [main] functions *)

Module MainFacts.
Import Vocabulary OsPath Transcriber Cli StmtLogic ExitFacts TempWorkflow AdapterFacts
  ExtractFacts WorkflowFacts ParserFacts.

Section Mains.
Context (E : env) (describe : exn -> pystr).

(** X18: the dependency checks come before everything else.  When the
    recogniser library is missing, [transcriber.main] ends with
    [sys.exit(1)] without having launched a process or changed anything;
    when the probe [yt-dlp --version] fails or the program is not found,
    [transcriber.main] ends with [sys.exit(1)] right after the probe, and
    [audio_extractor.main] after the probe and the line it prints about
    it. *)
Theorem dependency_checks_come_first (args : list (pystr * value)) (st : state) :
  (whisper_installed E = false ->
     transcriber_run E args st = (Raise (SystemExit 1), st))
  /\ (whisper_installed E = true ->
      (exists c, probe_status E st = Exited c /\ c <> 0) \/ probe_status E st = NoSuchProgram ->
      transcriber_run E args st = (Raise (SystemExit 1), after_run E probe st))
  /\ ((exists c, probe_status E st = Exited c /\ c <> 0) \/ probe_status E st = NoSuchProgram ->
      Extractor.main E describe args st
      = (Raise (SystemExit 1),
         log_event (EvPrint Extractor.not_found_line) (after_run E probe st))).
Proof.
  assert ((exists c, probe_status E st = Exited c /\ c <> 0)
          \/ probe_status E st = NoSuchProgram ->
          check_ytdlp E st = (Raise (SystemExit 1), after_run E probe st)) as Hprobe.
  { unfold probe_status, check_ytdlp, try_catch, subprocess_run, after_run, probe.
    intros [(c & Hs & Hc) | Hs]; rewrite Hs; [|reflexivity].
    destruct (Z.eqb_spec c 0); [contradiction | reflexivity]. }
  split; [|split].
  - intros Hw. unfold transcriber_run, transcriber_setup, check_whisper. rewrite Hw.
    reflexivity.
  - intros Hw Hp. unfold transcriber_run, transcriber_setup, check_whisper. rewrite Hw.
    apply run_bind_raise. rewrite (run_bind _ _ st tt st) by reflexivity.
    apply run_bind_raise. apply Hprobe. exact Hp.
  - intros Hp. unfold Extractor.main, Extractor.setup.
    apply run_bind_raise. apply run_bind_raise.
    unfold probe_status in Hp.
    unfold Extractor.check_ytdlp, try_catch, subprocess_run, after_run, probe.
    destruct Hp as [(c & Hs & Hc) | Hs]; rewrite Hs; [|reflexivity].
    destruct (Z.eqb_spec c 0); [contradiction | reflexivity].
Qed.

(** X21: [audio_extractor.main] depends on its surroundings through the
    downloader only: it runs alike on two machines with the same downloader,
    whether or not the recogniser library is installed. *)
Theorem extractor_uses_the_downloader_only (E' : env) (args : list (pystr * value))
    (st : state) :
  run_process E' = run_process E ->
  Extractor.main E' describe args st = Extractor.main E describe args st.
Proof.
  intros Hrun.
  assert (forall cmd, subprocess_run E' cmd = subprocess_run E cmd) as Hsub.
  { intros cmd. unfold subprocess_run. rewrite Hrun. reflexivity. }
  unfold Extractor.main, Extractor.setup, Extractor.call, Extractor.check_ytdlp,
    extract_audio_to_file.
  rewrite !Hsub. reflexivity.
Qed.

(** A guarded block that ends normally was not left by an exception: the
    handlers of the two [main] functions all end in [sys.exit(1)]. *)
Lemma try_catch_exit_inv {A} (m : M A) (h : exn -> option (M A)) a st st' :
  (forall e k s, h e = Some k -> fst (k s) <> Ok a) ->
  try_catch m h st = (Ok a, st') -> m st = (Ok a, st').
Proof.
  intros Hh. unfold try_catch. destruct (m st) as [[x|e] st1]; [auto|].
  destruct (h e) as [k|] eqn:Hk; [|discriminate].
  intros Hrun. exfalso. apply (Hh e k st1 Hk). rewrite Hrun. reflexivity.
Qed.

Lemma check_ytdlp_ok st st' :
  check_ytdlp E st = (Ok tt, st') -> st' = after_run E probe st.
Proof.
  intros H. unfold check_ytdlp in H. apply try_catch_exit_inv in H.
  - apply subprocess_run_ok in H as [_ ->]. reflexivity.
  - intros e k s Hk. destruct e; try discriminate; injection Hk as <-; discriminate.
Qed.

Lemma extractor_check_ok st st' :
  Extractor.check_ytdlp E st = (Ok tt, st') -> st' = after_run E probe st.
Proof.
  intros H. unfold Extractor.check_ytdlp in H. apply try_catch_exit_inv in H.
  - apply subprocess_run_ok in H as [_ ->]. reflexivity.
  - intros e k s Hk.
    destruct e; try discriminate; injection Hk as <-; apply print_then_exit_raises.
Qed.

(** How the probe of [audio_extractor.main] is left by an exception. *)
Lemma extractor_check_raise st e st' :
  Extractor.check_ytdlp E st = (Raise e, st') ->
  (e = SystemExit 1
   /\ st' = log_event (EvPrint Extractor.not_found_line) (after_run E probe st)
   /\ ((exists c, probe_status E st = Exited c /\ c <> 0)
       \/ probe_status E st = NoSuchProgram))
  \/ (st' = after_run E probe st
      /\ ((e = KeyboardInterrupt /\ probe_status E st = Interrupted)
          \/ (e = OSError /\ probe_status E st = SpawnFailed))).
Proof.
  unfold Extractor.check_ytdlp, try_catch, subprocess_run, probe_status, after_run, probe.
  destruct (status _) as [c| | |] eqn:Hs.
  - destruct (Z.eqb_spec c 0); [discriminate|].
    rewrite (run_bind _ _ _ _ _ (print_accepted Extractor.not_found_line _ eq_refl)).
    intros [= <- <-]. left. split; [reflexivity|]. split; [reflexivity|].
    left. exists c. auto.
  - rewrite (run_bind _ _ _ _ _ (print_accepted Extractor.not_found_line _ eq_refl)).
    intros [= <- <-]. left. auto.
  - intros [= <- <-]. right. auto.
  - intros [= <- <-]. right. auto.
Qed.

(** X22: when [audio_extractor.main] ends normally, there is something at
    the path given with [-o], as given, and the run consisted of the probe,
    the extraction command and the line that reports the path. *)
Theorem extractor_success (args : list (pystr * value)) (st st' : state) :
  Extractor.main E describe args st = (Ok tt, st') ->
  let url := attr_str args (py "url") in
  let output := attr_str args (py "output") in
  let format := attr_str args (py "format") in
  path_exists (fs st') output = true
  /\ trace st' = trace st ++ [EvRun probe;
                               EvRun (extract_cmd url (fst (splitext output)) format);
                               EvPrint (py "Audio successfully extracted to: " ++ output)].
Proof.
  intros H url output format. unfold Extractor.main in H.
  apply bind_ok_inv in H as ([] & st1 & Hsetup & H).
  unfold Extractor.setup in Hsetup.
  apply bind_ok_inv in Hsetup as ([] & st0 & Hprobe & Hsetup).
  apply extractor_check_ok in Hprobe as ->. injection Hsetup as <-.
  apply try_catch_exit_inv in H; cycle 1.
  { intros e k s Hk.
    destruct e; try discriminate; injection Hk as <-; apply print_then_exit_raises. }
  apply bind_ok_inv in H as (success & st2 & Hcall & H).
  destruct success; cycle 1.
  { exfalso. apply (f_equal fst) in H. exact (print_then_exit_raises _ _ H). }
  apply print_ok in H as [_ ->].
  unfold Extractor.call in Hcall. fold url output format in Hcall.
  destruct (extract_success_facts E url output format _ _ Hcall)
    as (Hthere & Htrace & _).
  split; [exact Hthere|].
  simpl. rewrite Htrace. simpl. rewrite <- !app_assoc. reflexivity.
Qed.

(** X26: [audio_extractor.main] is left by an exception in three ways only.
    By [sys.exit(1)], and then the last thing it did was to print a line:
    the downloader was not found, the extraction failed, the user
    interrupted it, or [Unexpected error: ...], the last only when the
    extraction had succeeded and the line that reports it could not be
    printed.  By the exception the probe itself was left by, when the user
    interrupts the probe or the probe cannot be started for another reason
    than a missing program: nothing is printed then.  Or by
    [UnicodeEncodeError], when the extraction had succeeded and neither the
    line that reports it nor the [Unexpected error] line could be printed. *)
Theorem extractor_failure_is_reported (args : list (pystr * value)) (st : state)
    (e : exn) (st' : state) :
  Extractor.main E describe args st = (Raise e, st') ->
  let success_line := Extractor.success_line (attr_str args (py "output")) in
  let unexpected_line := Extractor.unexpected_line describe UnicodeEncodeError in
  let extracted st2 := exists st1, Extractor.setup E st = (Ok tt, st1)
                                   /\ Extractor.call E args st1 = (Ok true, st2) in
  (e = SystemExit 1
   /\ exists line st0,
        st' = log_event (EvPrint line) st0
        /\ (line = Extractor.not_found_line
            \/ line = Extractor.failure_line
            \/ line = Extractor.interrupted_line
            \/ (line = unexpected_line /\ extracted st0
                /\ stdout_accepts success_line = false)))
  \/ (st' = after_run E probe st
      /\ ((e = KeyboardInterrupt /\ probe_status E st = Interrupted)
          \/ (e = OSError /\ probe_status E st = SpawnFailed)))
  \/ (e = UnicodeEncodeError /\ extracted st'
      /\ stdout_accepts success_line = false
      /\ stdout_accepts unexpected_line = false).
Proof.
  intros H success_line unexpected_line extracted. unfold Extractor.main in H.
  destruct (Extractor.setup E st) as [[[]|e0] st1] eqn:Hsetup.
  - rewrite (run_bind _ _ _ _ _ Hsetup) in H. unfold try_catch in H.
    destruct (Extractor.call E args st1) as [[[]|e1] st2] eqn:Hcall.
    + rewrite (run_bind _ _ _ _ _ Hcall) in H.
      destruct (stdout_accepts success_line) eqn:Ha.
      * rewrite (print_accepted _ _ Ha) in H. discriminate.
      * rewrite (print_refused _ _ Ha) in H. cbn [Extractor.handler] in H.
        destruct (print_then_exit unexpected_line st2) as [[Hu Hr] | [Hu Hr]];
          fold unexpected_line in H; rewrite Hr in H; injection H as <- <-.
        -- left. split; [reflexivity|]. exists unexpected_line, st2.
           split; [reflexivity|]. do 3 right.
           split; [reflexivity|]. split; [exists st1; auto | reflexivity].
        -- right. right. split; [reflexivity|].
           split; [exists st1; auto|]. split; [reflexivity | exact Hu].
    + rewrite (run_bind _ _ _ _ _ Hcall) in H.
      rewrite (run_bind _ _ _ _ _ (print_accepted Extractor.failure_line _ eq_refl)) in H.
      cbn in H. injection H as <- <-.
      left. split; [reflexivity|]. eexists _, st2. split; [reflexivity|]. auto.
    + rewrite (run_bind_raise _ _ _ _ _ Hcall) in H.
      assert (interrupt e1) as ->.
      { eapply raises_interrupt_guarded; [apply raises_extract_audio_to_file|].
        exact Hcall. }
      cbn [Extractor.handler] in H.
      rewrite (run_bind _ _ _ _ _ (print_accepted Extractor.interrupted_line _ eq_refl))
        in H.
      cbn in H. injection H as <- <-.
      left. split; [reflexivity|]. eexists _, st2. split; [reflexivity|]. auto.
  - rewrite (run_bind_raise _ _ _ _ _ Hsetup) in H. injection H as <- <-.
    unfold Extractor.setup in Hsetup.
    destruct (Extractor.check_ytdlp E st) as [[[]|e1] st0] eqn:Hprobe.
    + rewrite (run_bind _ _ _ _ _ Hprobe) in Hsetup. discriminate.
    + rewrite (run_bind_raise _ _ _ _ _ Hprobe) in Hsetup. injection Hsetup as <- <-.
      apply extractor_check_raise in Hprobe as [(-> & -> & _) | Hp].
      * left. split; [reflexivity|]. eexists _, _. split; [reflexivity|]. auto.
      * right. left. exact Hp.
Qed.

(** X19: without an audio output path, the audio format has no effect on
    [transcriber.main]: the temporary workflow, which always asks the
    downloader for [wav], is the one that runs. *)
Theorem audio_format_needs_audio_output (args : list (pystr * value)) (v : value)
    (st : state) :
  given (attr args (py "audio_output")) = false ->
  transcriber_run E (ns_set (py "audio_format") v args) st = transcriber_run E args st
  /\ selected_workflow E args = process_video E (attr_str args (py "url"))
                                              (attr args (py "output")).
Proof.
  intros Hg. split.
  - unfold transcriber_run, transcriber_setup, selected_workflow, attr_str.
    rewrite !attr_ns_set. cbn [eqb_str].
    assert (forall k, k <> py "audio_format" ->
              eqb_str (py "audio_format") k = false) as Hne.
    { intros k Hk. apply eqb_str_false. congruence. }
    rewrite !Hne by discriminate. rewrite Hg. reflexivity.
  - unfold selected_workflow. rewrite Hg. reflexivity.
Qed.

End Mains.

Section Alike.
Context (P : state -> Prop).

Lemma alike_bind {A B} (m m' : M A) (k k' : A -> M B) :
  alike P m m' -> (forall a, alike P (k a) (k' a)) -> alike P (mbind k m) (mbind k' m').
Proof.
  intros Hm Hk st HP. destruct (Hm st HP) as [Heq HP1].
  unfold mbind, M_bind, bind. rewrite <- Heq.
  destruct (m st) as [[a|e] st1]; [|auto]. apply Hk. exact HP1.
Qed.

Lemma alike_try_catch {A} (m m' : M A) (h h' : exn -> option (M A)) :
  alike P m m' ->
  (forall e, match h e, h' e with
             | Some k, Some k' => alike P k k'
             | None, None => True
             | _, _ => False
             end) ->
  alike P (try_catch m h) (try_catch m' h').
Proof.
  intros Hm Hh st HP. destruct (Hm st HP) as [Heq HP1].
  unfold try_catch. rewrite <- Heq.
  destruct (m st) as [[a|e] st1]; [auto|].
  specialize (Hh e). destruct (h e), (h' e); try contradiction; [|auto].
  apply Hh. exact HP1.
Qed.

Lemma alike_try_finally {A} (m m' : M A) (fin fin' : M unit) :
  alike P m m' -> alike P fin fin' -> alike P (try_finally m fin) (try_finally m' fin').
Proof.
  intros Hm Hf st HP. destruct (Hm st HP) as [Heq HP1].
  unfold try_finally. rewrite <- Heq.
  destruct (m st) as [r st1]. destruct (Hf st1 HP1) as [Heq' HP2].
  rewrite <- Heq'. destruct (fin st1) as [[[]|e] st2]; auto.
Qed.

Lemma alike_ret {A} (a : A) : alike P (ret a) (ret a).
Proof. intros st HP. auto. Qed.

Lemma alike_raise {A} e : alike P (@raise A e) (raise e).
Proof. intros st HP. auto. Qed.

Lemma alike_get : alike P World.get World.get.
Proof. intros st HP. auto. Qed.

Lemma alike_lift {A} (r : res A) : alike P (lift r) (lift r).
Proof. intros st HP. auto. Qed.

(** A statement is like itself when it keeps [P]. *)
Lemma alike_same {A} (m : M A) : (forall st, P st -> P (snd (m st))) -> alike P m m.
Proof. intros H st HP. auto. Qed.

End Alike.

Section Model.
Context (E E' : env) (m : pystr).
Hypothesis Hcwd : cwd E' = cwd E.
Hypothesis Htmp : tmp_name E' = tmp_name E.
Hypothesis Hrun : run_process E' = run_process E.
Hypothesis Hinst : whisper_installed E' = whisper_installed E.
Hypothesis Hmodel : forall path f, whisper_transcribe E' m path f = whisper_transcribe E m path f.

Lemma asks_silent st st' : silent st st' -> asks_for m st -> asks_for m st'.
Proof. intros [_ Hself]. unfold asks_for. rewrite Hself. auto. Qed.

Lemma alike_silent {A} (s : M A) : respects silent s -> alike (asks_for m) s s.
Proof. intros H. apply alike_same. intros st. apply asks_silent. apply H. Qed.

Lemma alike_subprocess_run cmd :
  alike (asks_for m) (subprocess_run E cmd) (subprocess_run E' cmd).
Proof.
  intros st HP. unfold subprocess_run. rewrite Hrun. split; [reflexivity|].
  destruct (status _) as [c| | |]; [destruct (c =? 0)|..]; exact HP.
Qed.

Lemma alike_whisper_call p :
  alike (asks_for m) (whisper_call E p) (whisper_call E' p).
Proof.
  intros st HP. unfold whisper_call. rewrite Hinst. unfold asks_for in HP.
  rewrite HP, Hmodel. split; [reflexivity|].
  destruct (whisper_installed E); [destruct (whisper_transcribe _ _ _ _)|]; exact HP.
Qed.

Lemma alike_write_text path text : alike (asks_for m) (write_text path text) (write_text path text).
Proof.
  apply alike_same. intros st HP. unfold write_text.
  repeat match goal with |- context [if ?c then _ else _] => destruct c end; try exact HP.
  destruct (Json.utf8_encode text); exact HP.
Qed.

Lemma alike_print text : alike (asks_for m) (print text) (print text).
Proof.
  apply alike_same. intros st HP. unfold print. destruct (stdout_accepts text); exact HP.
Qed.

Lemma alike_rmtree d : alike (asks_for m) (rmtree d) (rmtree d).
Proof.
  apply alike_same. intros st HP. unfold rmtree. destruct (fs st !! d) as [[]|]; exact HP.
Qed.

Lemma alike_cleanup : alike (asks_for m) cleanup cleanup.
Proof.
  unfold cleanup. apply alike_bind; [apply alike_get|].
  intros st. destruct (temp_dir (self st)); [|apply alike_ret].
  destruct (_ && _); [apply alike_rmtree | apply alike_ret].
Qed.

Ltac step :=
  first [ apply alike_ret | apply alike_get | apply alike_lift | apply alike_raise
        | apply alike_subprocess_run | apply alike_whisper_call
        | apply alike_write_text | apply alike_print | apply alike_cleanup
        | apply alike_silent; first [apply silent_makedirs | apply silent_rename
                                    | apply silent_unless_exists; apply silent_makedirs]
        | apply alike_bind; [|intros ?]
        | apply alike_try_catch; [|intros ?e; unfold except_Exception;
                                    destruct (is_Exception e); [|exact I]] ].

Lemma alike_download_audio url p :
  alike (asks_for m) (download_audio E url p) (download_audio E' url p).
Proof. unfold download_audio. repeat step. Qed.

Lemma alike_extract_audio_to_file url p fmt :
  alike (asks_for m) (extract_audio_to_file E url p fmt) (extract_audio_to_file E' url p fmt).
Proof.
  unfold extract_audio_to_file. step; [|step].
  step. { destruct (negb _); step. }
  step; [step|]. step; [step|].
  destruct (path_exists _ _); [|step].
  step; [|step]. destruct (negb _); step.
Qed.

Lemma alike_transcribe_audio p :
  alike (asks_for m) (transcribe_audio E p) (transcribe_audio E' p).
Proof. unfold transcribe_audio. repeat step. Qed.

Lemma alike_transcribe_local_audio p :
  alike (asks_for m) (transcribe_local_audio E p) (transcribe_local_audio E' p).
Proof.
  unfold transcribe_local_audio. step; [step|].
  destruct (negb _); [step | apply alike_transcribe_audio].
Qed.

Lemma alike_output_results v out :
  alike (asks_for m) (output_results v out) (output_results v out).
Proof. unfold output_results. destruct out; [destruct (given _)|]; step. Qed.

Lemma alike_tail tr out :
  alike (asks_for m)
    (formatted_output ← format_output tr; _ ← output_results formatted_output out; ret true)
    (formatted_output ← format_output tr; _ ← output_results formatted_output out; ret true).
Proof.
  step; [unfold format_output; step|]. step; [apply alike_output_results | step].
Qed.

Lemma alike_process_video url out :
  alike (asks_for m) (process_video E url out) (process_video E' url out).
Proof.
  unfold process_video. step.
  { intros st HP. unfold mkdtemp. rewrite Htmp. split; [reflexivity|].
    destruct (eqb_str _ _); [exact HP|]. destruct (fs st !! _); exact HP. }
  step. { apply alike_same. intros st HP. exact HP. }
  apply alike_try_finally; [|apply alike_cleanup].
  step; [|step]. unfold process_video_body.
  step; [apply alike_download_audio|].
  destruct (negb _); [step|]. step; [step|].
  destruct (glob_audio _ _); [step|].
  step; [apply alike_transcribe_audio|].
  destruct (negb _); [step | apply alike_tail].
Qed.

Lemma alike_process_video_with_audio_save url p out fmt :
  alike (asks_for m) (process_video_with_audio_save E url p out fmt)
                     (process_video_with_audio_save E' url p out fmt).
Proof.
  unfold process_video_with_audio_save. step; [|step].
  step.
  { unfold audio_save_paths. rewrite Hcwd. step; [step|].
    destruct out as [name|]; [|step]. destruct (given _); [|step].
    step; step. }
  unfold audio_save_steps. step; [apply alike_extract_audio_to_file|].
  destruct (negb _); [step|]. step; [apply alike_transcribe_local_audio|].
  destruct (negb _); [step | apply alike_tail].
Qed.

End Model.

(** X20: [transcriber.main] consults the recogniser for the model size given
    with [-m] and for no other: two machines that differ only in what the
    recogniser does for other model sizes give the same run. *)
Theorem recogniser_gets_the_chosen_model (E E' : env) (args : list (pystr * value))
    (st : state) :
  cwd E' = cwd E -> tmp_name E' = tmp_name E -> run_process E' = run_process E ->
  whisper_installed E' = whisper_installed E ->
  (forall path f,
      whisper_transcribe E' (attr_str args (py "model")) path f
      = whisper_transcribe E (attr_str args (py "model")) path f) ->
  transcriber_run E' args st = transcriber_run E args st.
Proof.
  intros Hcwd Htmp Hrun Hinst Hmodel.
  set (m := attr_str args (py "model")) in *.
  assert (transcriber_setup E' args st = transcriber_setup E args st) as Hsetup.
  { unfold transcriber_setup, check_whisper, check_ytdlp, subprocess_run.
    rewrite Hinst, Hrun. reflexivity. }
  unfold transcriber_run.
  destruct (transcriber_setup E args st) as [[[]|e] st1] eqn:Hs; cycle 1.
  { rewrite (run_bind_raise _ _ _ _ _ Hs), (run_bind_raise _ _ _ _ _ Hsetup). reflexivity. }
  rewrite (run_bind _ _ _ _ _ Hs), (run_bind _ _ _ _ _ Hsetup).
  assert (asks_for m st1) as HP.
  { unfold transcriber_setup in Hs.
    apply bind_ok_inv in Hs as ([] & sa & _ & Hs).
    apply bind_ok_inv in Hs as ([] & sb & _ & Hs). injection Hs as <-. reflexivity. }
  symmetry.
  refine (proj1 (alike_try_catch (asks_for m) _ _ _ _ _ _ st1 HP)).
  - apply alike_bind.
    + unfold selected_workflow. destruct (given _).
      * apply alike_process_video_with_audio_save; assumption.
      * apply alike_process_video; assumption.
    + intros success. destruct (negb success); [apply alike_raise | apply alike_ret].
  - intros e. unfold interrupted_or_failed.
    assert (alike (asks_for m) (_ ← cleanup; sys_exit 1) (_ ← cleanup; @sys_exit unit 1)) as Hh.
    { apply alike_bind; [apply alike_cleanup | intros _; apply alike_raise]. }
    destruct e; try exact Hh. exact I.
Qed.

Section Outcome.
Context (E : env).

Lemma transcriber_setup_ok args st st1 :
  transcriber_setup E args st = (Ok tt, st1) ->
  trace st1 = trace st ++ [EvRun probe].
Proof.
  unfold transcriber_setup, check_whisper. intros H.
  apply bind_ok_inv in H as ([] & sa & Hw & H).
  assert (sa = st) as ->.
  { destruct (whisper_installed E); [injection Hw as <-; reflexivity | discriminate]. }
  apply bind_ok_inv in H as ([] & sb & Hp & H).
  apply check_ytdlp_ok in Hp as ->. injection H as <-. reflexivity.
Qed.

(** X23: when [transcriber.main] ends normally, what its own code did is:
    the version probe of the downloader, then process launches only, then
    the output.
    With [-o] the output is one file opened and written with the UTF-8 bytes
    of the JSON text, at the path given, or at [result/<its file name>]
    under the working directory when the audio is saved; without [-o] the
    JSON text is printed. *)
Theorem transcriber_success (args : list (pystr * value)) (st st' : state) :
  transcriber_run E args st = (Ok tt, st') ->
  let out := attr args (py "output") in
  let saved := given (attr args (py "audio_output")) in
  exists events text,
    formatted_json text
    /\ Forall is_run events
    /\ (given out = false ->
        trace st' = trace st ++ EvRun probe :: events ++ [EvPrint text])
    /\ (forall path, out = Some path -> given out = true ->
          let target := if saved
                        then join (join (cwd E) (py "result")) (basename path)
                        else path in
          exists data,
            Json.utf8_encode text = Some data
            /\ trace st' = trace st ++ EvRun probe :: events
                                    ++ [EvOpen target; EvWrite target data]).
Proof.
  intros H out saved. unfold transcriber_run in H.
  apply bind_ok_inv in H as ([] & st1 & Hsetup & H).
  apply transcriber_setup_ok in Hsetup.
  apply try_catch_exit_inv in H; cycle 1.
  { intros e k s Hk.
    assert (k = (_ ← cleanup; sys_exit 1)) as ->.
    { destruct e; simpl in Hk; congruence. }
    unfold mbind, M_bind, bind. destruct (cleanup s) as [[[]|e'] s']; discriminate. }
  apply bind_ok_inv in H as (success & st2 & Hwf & H).
  destruct success; cbv in H; [|discriminate]. injection H as <-.
  unfold selected_workflow in Hwf. fold saved out in Hwf.
  destruct saved eqn:Hsaved.
  - destruct (SavedWorkflow.saved_success _ _ _ _ _ _ _ Hwf)
      as (_ & formatted & st3 & Hjson & Hout & events & Htrace & Hevents).
    destruct (SavedWorkflow.output_results_ok _ _ _ _ Hout) as (_ & Hwrite & Hprint).
    exists events, (Json.dumps formatted).
    split; [exact Hjson|]. split; [exact Hevents|]. split.
    + intros Hg. rewrite Hprint by (rewrite SavedWorkflow.given_json_target; exact Hg).
      rewrite Htrace, Hsetup, <- !app_assoc. reflexivity.
    + intros path Hpath Hg target.
      destruct (Hwrite target) as (data & Hd & Ht & _).
      { unfold json_target. rewrite Hpath. rewrite <- Hpath, Hg. reflexivity. }
      { rewrite SavedWorkflow.given_json_target. exact Hg. }
      exists data. split; [exact Hd|].
      rewrite Ht, Htrace, Hsetup, <- !app_assoc. reflexivity.
  - destruct (process_video_success_inv E _ _ _ _ Hwf)
      as (st0 & tr & formatted & st6 & _ & Htr0 & Htruthy & Hf & Hout & ->).
    destruct (SavedWorkflow.output_results_ok _ _ _ _ Hout) as (_ & Hfile & Hprint).
    exists [EvRun (download_cmd (attr_str args (py "url"))
                     (join (tmp_name E (fs st1)) (py "audio.%(ext)s")))],
           (Json.dumps formatted).
    split; [exists tr, formatted; auto|].
    split; [constructor; [exact I | constructor]|]. split.
    + intros Hg. simpl. rewrite (Hprint Hg). simpl.
      rewrite Htr0, Hsetup, <- !app_assoc. reflexivity.
    + intros path Hpath Hg target.
      destruct (Hfile path Hpath Hg) as (data & Hd & Ht & _).
      exists data. split; [exact Hd|].
      simpl. rewrite Ht. simpl. rewrite Htr0, Hsetup, <- !app_assoc. reflexivity.
Qed.

End Outcome.

End MainFacts.

(** ** The further properties at work on a concrete machine *)

Module Runs.
Import Vocabulary Transcriber Cli.

(** The two segments of [hello_segments] and their records. *)
Lemma format_output_all_or_nothing_witness :
  Forall2 (fun seg r => Formatter.format_segment seg = Ok r) hello_items
          [Formatter.record 0 1.24 (py "hello world"); Formatter.record 1.24 2.5 (py "bye")].
Proof.
  apply (proj1 (RecordFacts.format_output_all_or_nothing hello_segments hello_items
                  eq_refl)).
  vm_compute. reflexivity.
Defined.

(** The sentences of the two records of [hello_segments]. *)
Lemma sentences_are_stripped_witness :
  exists records,
    VList [Formatter.record 0 1.24 (py "hello world"); Formatter.record 1.24 2.5 (py "bye")]
    = VList records
    /\ Forall (fun r => exists s, sentence_of r s /\ stripped s) records.
Proof.
  apply (RecordFacts.sentences_are_stripped (VDict hello_segments)).
  vm_compute. reflexivity.
Defined.

(** Two calls on [hello_store]: the lists are at addresses 14 and 25. *)
Lemma format_output_repeatable_witness :
  fst (Heap.format_output 13%nat hello_store) = Heap.HOk 14%nat
  /\ fst (Heap.format_output 13%nat (snd (Heap.format_output 13%nat hello_store)))
     = Heap.HOk 25%nat.
Proof.
  destruct (SharingFacts.format_output_repeatable hello_store 13%nat
              (VDict (hello_segments ++ [(py "language", VStr (py "en"))]))
              (VList [Formatter.record 0 1.24 (py "hello world");
                      Formatter.record 1.24 2.5 (py "bye")]) 4%nat)
    as (H1 & H2 & _).
  - vm_compute. reflexivity.
  - vm_compute. reflexivity.
  - split; [exact H1|]. rewrite H2. vm_compute. reflexivity.
Defined.

(** The mapping at address 17, made by the call, is reached from its result. *)
Lemma format_output_result_is_new_witness : (length hello_store <= 17)%nat.
Proof.
  apply (SharingFacts.format_output_result_is_new 13%nat 14%nat hello_store
           (snd (Heap.format_output 13%nat hello_store))
           ltac:(vm_compute; reflexivity) 17%nat
           (Heap.ODict [(py "start", 15); (py "end", 16)]%nat)).
  - eapply (reaches_through _ 14%nat _ 19%nat); [vm_compute; reflexivity | |].
    + simpl. left.
    + eapply (reaches_through _ 19%nat _ 17%nat);
        [vm_compute; reflexivity | simpl; left | apply reaches_here].
  - vm_compute. reflexivity.
  - exact I.
Defined.

(** The user interrupts the download: [process_video] is left by
    [KeyboardInterrupt], after the temporary directory was made. *)
Lemma process_video_exceptions_witness :
  (exists st0, mkdtemp interrupting_env demo_state = (Raise KeyboardInterrupt, st0)
               /\ snd (process_video interrupting_env demo_url None demo_state) = demo_state)
  \/ (exists d st0, mkdtemp interrupting_env demo_state = (Ok d, st0)
                    /\ KeyboardInterrupt = KeyboardInterrupt).
Proof.
  apply (AdapterFacts.process_video_exceptions interrupting_env demo_url None demo_state).
  vm_compute. reflexivity.
Defined.

(** [extract_audio_to_file(url, "/work/audio/x.wav", "wav")] on the working
    machine. *)
Lemma extract_audio_to_file_success_witness :
  path_exists
    (fs (snd (extract_audio_to_file demo_env demo_url (py "/work/audio/x.wav") (py "wav")
                demo_state)))
    (py "/work/audio/x.wav") = true.
Proof.
  refine (proj1 (ExtractFacts.extract_audio_to_file_success demo_env demo_url
                   (py "/work/audio/x.wav") (py "wav") demo_state _ _)).
  vm_compute. reflexivity.
Defined.

(** [extract_audio_to_file(url, "/work/audio/x.mp3", "wav")]: the downloader
    leaves [x.wav], which is moved to [x.mp3]. *)
Lemma extract_renames_to_requested_path_witness :
  exists st',
    extract_audio_to_file demo_env demo_url (py "/work/audio/x.mp3") (py "wav") audio_state
    = (Ok true, st')
    /\ fs st' !! py "/work/audio/x.mp3" = Some (File [0x52; 0x49; 0x46; 0x46]%N)
    /\ fs st' !! py "/work/audio/x.wav" = None.
Proof.
  destruct (WorkflowFacts.extract_renames_to_requested_path demo_env demo_url
              (py "/work/audio/x.mp3") (py "wav") audio_state [0x52; 0x49; 0x46; 0x46]%N)
    as (st' & Hrun & _ & Hp & Hexp).
  - vm_compute. reflexivity.
  - vm_compute. intros Hin. repeat (apply elem_of_cons in Hin as [Hin|Hin]; [discriminate|]).
    apply elem_of_nil in Hin. contradiction.
  - vm_compute. reflexivity.
  - vm_compute. reflexivity.
  - vm_compute. reflexivity.
  - vm_compute. discriminate.
  - vm_compute. reflexivity.
  - exists st'. split; [exact Hrun|]. split; [exact Hp | exact Hexp].
Defined.

(** The recogniser fails after the audio was saved: the workflow returns
    [False] and the audio stays. *)
Lemma saved_audio_kept_on_failure_witness :
  fst (process_video_with_audio_save deaf_env demo_url (py "x.wav") None (py "wav")
         demo_state) = Ok false
  /\ path_exists
       (fs (snd (process_video_with_audio_save deaf_env demo_url (py "x.wav") None (py "wav")
                   demo_state)))
       (py "/work/audio/x.wav") = true.
Proof.
  destruct (WorkflowFacts.saved_audio_kept_on_failure deaf_env demo_url (py "x.wav") None
              (py "wav") demo_state (py "/work/audio/x.wav") None
              (snd (audio_save_paths deaf_env (py "x.wav") None demo_state))
              (snd (process_video_with_audio_save deaf_env demo_url (py "x.wav") None
                      (py "wav") demo_state))
              VNone
              (snd (process_video_with_audio_save deaf_env demo_url (py "x.wav") None
                      (py "wav") demo_state)))
    as [Hrun Hkept]; try (vm_compute; reflexivity).
  rewrite Hrun. split; [reflexivity | exact Hkept].
Defined.

(** A successful run leaves no [audio.wav] in the temporary directory. *)
Lemma temporary_audio_removed_witness :
  fs (snd (process_video demo_env demo_url None demo_state)) !! py "/tmp/tmpabc/audio.wav"
  = None.
Proof.
  destruct (WorkflowFacts.temporary_audio_removed demo_env demo_url None demo_state
              (py "/tmp/tmpabc") (snd (mkdtemp demo_env demo_state)))
    as (_ & Hbelow & _); [vm_compute; reflexivity|].
  exact (Hbelow (py "audio.wav")).
Defined.

(** A successful run with [-o /work/out.json]. *)
Lemma process_video_success_witness :
  exists text data,
    formatted_json text
    /\ Json.utf8_encode text = Some data
    /\ fs (snd (process_video demo_env demo_url (Some (py "/work/out.json")) demo_state))
         !! py "/work/out.json" = Some (File data).
Proof.
  destruct (WorkflowFacts.process_video_success demo_env demo_url (Some (py "/work/out.json"))
              demo_state
              (snd (process_video demo_env demo_url (Some (py "/work/out.json")) demo_state)))
    as (text & Hjson & Hfile & _); [vm_compute; reflexivity|].
  destruct (Hfile (py "/work/out.json") eq_refl eq_refl) as (data & Henc & _ & Hlook).
  exists text, data. split; [exact Hjson|]. split; [exact Henc|].
  apply Hlook. vm_compute. reflexivity.
Defined.

(** [transcriber.py URL]: no audio output, no JSON file, the model [base]. *)
Lemma option_defaults_witness :
  exists args,
    parse_args transcriber_parser [demo_url] = Some (Parsed args)
    /\ attr args (py "audio_output") = None
    /\ attr args (py "model") = Some (py "base").
Proof.
  eexists. split; [vm_compute; reflexivity|].
  destruct (ParserFacts.option_defaults [demo_url] _ eq_refl) as (Ha & _ & Hm & _).
  split; [apply Ha | apply Hm]; vm_compute; intros Hin;
    (apply elem_of_cons in Hin as [Hin|Hin];
     [discriminate | apply elem_of_nil in Hin; contradiction]).
Defined.

(** Without [-a], [-f mp3] changes nothing. *)
Lemma audio_format_needs_audio_output_witness :
  transcriber_run demo_env
    (ns_set (py "audio_format") (VStr (py "mp3")) (defaults transcriber_parser)) demo_state
  = transcriber_run demo_env (defaults transcriber_parser) demo_state.
Proof.
  refine (proj1 (MainFacts.audio_format_needs_audio_output demo_env
                   (defaults transcriber_parser) (VStr (py "mp3")) demo_state _)).
  reflexivity.
Defined.

(** A recogniser that fails for every model but [base] serves a run with the
    default model as well as [demo_env] does. *)
Lemma recogniser_gets_the_chosen_model_witness :
  transcriber_run base_only_env (defaults transcriber_parser) demo_state
  = transcriber_run demo_env (defaults transcriber_parser) demo_state.
Proof.
  apply MainFacts.recogniser_gets_the_chosen_model; reflexivity.
Defined.

(** The extractor runs alike with and without the recogniser. *)
Lemma extractor_uses_the_downloader_only_witness :
  Extractor.main deaf_env (fun _ => []) extractor_args audio_state
  = Extractor.main demo_env (fun _ => []) extractor_args audio_state.
Proof.
  apply (MainFacts.extractor_uses_the_downloader_only demo_env (fun _ => []) deaf_env
           extractor_args audio_state).
  reflexivity.
Defined.

(** [audio_extractor.py URL -o /work/audio/x.wav] on the working machine. *)
Lemma extractor_success_witness :
  path_exists
    (fs (snd (Extractor.main demo_env (fun _ => []) extractor_args audio_state)))
    (py "/work/audio/x.wav") = true.
Proof.
  refine (proj1 (MainFacts.extractor_success demo_env (fun _ => []) extractor_args
                   audio_state _ _)).
  vm_compute. reflexivity.
Defined.

(** The same command line with a downloader that exits with status 1: the
    run ends with the line about the failed extraction. *)
Lemma extractor_failure_is_reported_witness :
  exists line st0,
    snd (Extractor.main failing_env (fun _ => []) extractor_args audio_state)
    = log_event (EvPrint line) st0
    /\ (line = Extractor.not_found_line
        \/ line = Extractor.failure_line
        \/ line = Extractor.interrupted_line
        \/ stdout_accepts (Extractor.success_line (py "/work/audio/x.wav")) = false).
Proof.
  destruct (MainFacts.extractor_failure_is_reported failing_env (fun _ => [])
              extractor_args audio_state (SystemExit 1)
              (snd (Extractor.main failing_env (fun _ => []) extractor_args audio_state)))
    as [(_ & line & st0 & Hst & Hline) | [[_ [[H _] | [H _]]] | [H _]]].
  - vm_compute. reflexivity.
  - exists line, st0. split; [exact Hst|].
    destruct Hline as [H | [H | [H | (_ & _ & H)]]]; auto.
  - discriminate H.
  - discriminate H.
  - discriminate H.
Defined.

(** [transcriber.py URL] on the working machine: the probe, one download,
    the JSON text printed. *)
Lemma transcriber_success_witness :
  exists events text,
    formatted_json text
    /\ Forall is_run events
    /\ trace (snd (transcriber_run demo_env url_args demo_state))
       = EvRun probe :: events ++ [EvPrint text].
Proof.
  destruct (MainFacts.transcriber_success demo_env url_args demo_state
              (snd (transcriber_run demo_env url_args demo_state)))
    as (events & text & Hjson & Hruns & Hprint & _); [vm_compute; reflexivity|].
  exists events, text. split; [exact Hjson|]. split; [exact Hruns|].
  apply Hprint. reflexivity.
Defined.

(** A segment that starts at infinity. *)
Lemma non_finite_times_pass_through_witness :
  Formatter.format_segment
    (VDict [(py "start", VFloat infinity); (py "end", VFloat 2.5);
            (py "text", VStr (py " late "))])
  = Ok (Formatter.record infinity 2.5 (py "late"))
  /\ Json.dumps (VFloat infinity) = py "Infinity".
Proof.
  destruct (RecordFacts.non_finite_times_pass_through
              (VDict [(py "start", VFloat infinity); (py "end", VFloat 2.5);
                      (py "text", VStr (py " late "))])
              {| Formatter.seg_start := infinity; Formatter.seg_end := 2.5;
                 Formatter.seg_text := py " late " |} 0%nat) as [Hrec _].
  - eexists. repeat split; reflexivity.
  - vm_compute. exact I.
  - split; [rewrite Hrec; vm_compute; reflexivity | vm_compute; reflexivity].
Defined.

(** The audio is to go below [/work/f], which is a regular file. *)
Lemma extract_needs_its_directory_witness :
  extract_audio_to_file demo_env demo_url (py "/work/f/audio/x.wav") (py "wav")
    blocked_state
  = (Ok false, blocked_state).
Proof.
  eapply (WorkflowFacts.extract_needs_its_directory demo_env demo_url
            (py "/work/f/audio/x.wav") (py "wav") blocked_state).
  - vm_compute. discriminate.
  - vm_compute. reflexivity.
  - vm_compute. reflexivity.
Defined.


(** [-a /tmp/sub/x.wav -o a/b/out.json]: the run succeeds, the audio is
    under [audio/] and the JSON under [result/] in the working directory, and
    nothing is at the paths as given. *)
Lemma basename_only_witness :
  fst sub_run = Ok true
  /\ path_exists (fs (snd sub_run)) (py "/work/audio/x.wav") = true
  /\ path_exists (fs (snd sub_run)) (py "/tmp/sub/x.wav") = false
  /\ path_exists (fs (snd sub_run)) (py "a/b/out.json") = false
  /\ exists data,
       fs (snd sub_run) !! py "/work/result/out.json" = Some (File data)
       /\ trace (snd sub_run)
          = [EvRun (extract_cmd demo_url (py "/work/audio/x") (py "wav"));
             EvOpen (py "/work/result/out.json");
             EvWrite (py "/work/result/out.json") data].
Proof.
  pose proof (PersistFacts.basename_only demo_env demo_url (py "/tmp/sub/x.wav")
                (Some (py "a/b/out.json")) (py "wav") demo_state) as H.
  cbv zeta in H. destruct H as (_ & _ & _ & _ & Hsucc & _).
  assert (fst sub_run = Ok true) as Hok by (vm_compute; reflexivity).
  destruct (Hsucc Hok) as [Haudio Hjson].
  destruct (Hjson (py "/work/result/out.json") eq_refl eq_refl)
    as (data & Hlook & Htrace).
  split; [exact Hok|]. split; [exact Haudio|].
  split; [vm_compute; reflexivity|]. split; [vm_compute; reflexivity|].
  exists data. split; [exact Hlook | exact Htrace].
Defined.

End Runs.
